(** * Centinel: pot transfers, balance accrual and recurring bills

  A shallow embedding of

  - [supabase/migrations/20240215000001_initial_schema.sql] (tables,
    policies, and the read functions [get_overview], [get_budgets] and
    [get_balance]),
  - [supabase/migrations/20240215000002_db_functions.sql]
    ([pot_deposit], [pot_withdraw], [delete_pot], [get_budget_spent] and
    the trigger function [update_balance_on_transaction]),
  - the Supabase client in [lib/api.ts] ([SORT_MAP], [getTransactions],
    [getRecurringBills], [invokeEdgeFunction], [deletePot]),
  - the edge function [pot-delete],
  - [fetchUserWithProfile] of [AuthContext],

  followed by the properties of the specification that concern them and
  by further properties of the code. *)

From Stdlib Require Import ZArith Floats.PrimFloat.
From stdpp Require Import gmap strings pretty list sorting.

Local Open Scope Z_scope.

(* ===================================================================== *)
(** ** The civil calendar *)
(* ===================================================================== *)

Module Calendar.

Definition is_leap_year (y : Z) : bool :=
  ((y mod 4 =? 0) && negb (y mod 100 =? 0)) || (y mod 400 =? 0).

(** Number of days of month [m] (1 = January ... 12 = December). *)
Definition days_in_month (y m : Z) : Z :=
  if m =? 2 then (if is_leap_year y then 29 else 28)
  else if (m =? 4) || (m =? 6) || (m =? 9) || (m =? 11) then 30
  else 31.

End Calendar.

(* ===================================================================== *)
(** ** The database: tables, stored functions, trigger *)
(* ===================================================================== *)

Module Db.

(** Column types.  [numeric] is PostgreSQL's exact decimal type: sums,
    differences and comparisons are exact, so a value is represented by
    the integer number of its smallest units.  A [timestamptz] is kept in
    its civil form (session time zone), ordered chronologically. *)
Definition uuid : Type := N.
Definition numeric : Type := Z.

Record timestamptz := Timestamptz {
  ts_year : Z;
  ts_month : Z;   (* 1 .. 12 *)
  ts_day : Z;     (* 1 .. days_in_month *)
  ts_usec : Z     (* microseconds since midnight *)
}.

Definition ts_compare (a b : timestamptz) : comparison :=
  match ts_year a ?= ts_year b with
  | Eq => match ts_month a ?= ts_month b with
          | Eq => match ts_day a ?= ts_day b with
                  | Eq => ts_usec a ?= ts_usec b
                  | c => c
                  end
          | c => c
          end
  | c => c
  end.

(** [a <= b] and [a >= b] on timestamps. *)
Definition ts_leb (a b : timestamptz) : bool :=
  match ts_compare a b with Gt => false | _ => true end.
Definition ts_geb (a b : timestamptz) : bool := ts_leb b a.

(** [date_trunc('month', t)] *)
Definition date_trunc_month (t : timestamptz) : timestamptz :=
  {| ts_year := ts_year t; ts_month := ts_month t; ts_day := 1; ts_usec := 0 |}.

(** [t + interval '1 month']: same day of the next month, clamped to the
    length of that month. *)
Definition plus_one_month (t : timestamptz) : timestamptz :=
  let y := if ts_month t =? 12 then ts_year t + 1 else ts_year t in
  let m := if ts_month t =? 12 then 1 else ts_month t + 1 in
  {| ts_year := y; ts_month := m;
     ts_day := Z.min (ts_day t) (Calendar.days_in_month y m);
     ts_usec := ts_usec t |}.

Definition usec_per_second : Z := 1000000.
Definition usec_per_day : Z := 86400 * usec_per_second.

Definition previous_day (t : timestamptz) : timestamptz :=
  if 1 <? ts_day t then
    {| ts_year := ts_year t; ts_month := ts_month t;
       ts_day := ts_day t - 1; ts_usec := ts_usec t |}
  else if 1 <? ts_month t then
    {| ts_year := ts_year t; ts_month := ts_month t - 1;
       ts_day := Calendar.days_in_month (ts_year t) (ts_month t - 1);
       ts_usec := ts_usec t |}
  else
    {| ts_year := ts_year t - 1; ts_month := 12; ts_day := 31;
       ts_usec := ts_usec t |}.

(** [t - interval '1 second'] *)
Definition minus_one_second (t : timestamptz) : timestamptz :=
  if usec_per_second <=? ts_usec t then
    {| ts_year := ts_year t; ts_month := ts_month t; ts_day := ts_day t;
       ts_usec := ts_usec t - usec_per_second |}
  else
    let p := previous_day t in
    {| ts_year := ts_year p; ts_month := ts_month p; ts_day := ts_day p;
       ts_usec := ts_usec t + usec_per_day - usec_per_second |}.

(** [v_month_start := date_trunc('month', now())::timestamptz;]
    [v_month_end := v_month_start + interval '1 month' - interval '1 second';] *)
Definition v_month_start (now : timestamptz) : timestamptz :=
  date_trunc_month now.
Definition v_month_end (now : timestamptz) : timestamptz :=
  minus_one_second (plus_one_month (v_month_start now)).

(** [d >= v_month_start AND d <= v_month_end] *)
Definition in_current_month (now d : timestamptz) : bool :=
  ts_geb d (v_month_start now) && ts_leb d (v_month_end now).

(** *** Tables (the primary key [id] is the key of the map) *)

Record profile := Profile {
  full_name : string;
  balance : numeric;
  avatar_url : option string;
  profile_created_at : timestamptz;
  profile_updated_at : timestamptz
}.

Inductive category :=
| Entertainment | Bills | Groceries | DiningOut | Transportation
| PersonalCare | Education | Lifestyle | Shopping | General.

Record transaction := Transaction {
  tx_user_id : uuid;
  tx_avatar : string;
  tx_name : string;
  tx_category : category;
  tx_date : timestamptz;
  tx_amount : numeric;
  tx_recurring : bool;
  tx_created_at : timestamptz;
  tx_updated_at : timestamptz
}.

Record pot := Pot {
  pot_user_id : uuid;
  pot_name : string;
  pot_target : numeric;   (* CHECK (target >= 0) *)
  pot_total : numeric;    (* CHECK (total >= 0) *)
  pot_theme : string;
  pot_created_at : timestamptz;
  pot_updated_at : timestamptz
}.

Record store := Store {
  profiles : gmap uuid profile;
  transactions : gmap uuid transaction;
  pots : gmap uuid pot
}.

(** *** Row updates *)

(** [UPDATE profiles SET balance = balance + delta, updated_at = now()
     WHERE id = uid]: no row, no effect. *)
Definition profile_add_balance (delta : numeric) (now : timestamptz)
    (p : profile) : profile :=
  {| full_name := full_name p;
     balance := balance p + delta;
     avatar_url := avatar_url p;
     profile_created_at := profile_created_at p;
     profile_updated_at := now |}.

Definition update_profile_balance (uid : uuid) (delta : numeric)
    (now : timestamptz) (ps : gmap uuid profile) : gmap uuid profile :=
  alter (profile_add_balance delta now) uid ps.

(** [UPDATE pots SET total = total + delta, updated_at = now()
     WHERE id = pot_id] *)
Definition pot_add_total (delta : numeric) (now : timestamptz)
    (p : pot) : pot :=
  {| pot_user_id := pot_user_id p;
     pot_name := pot_name p;
     pot_target := pot_target p;
     pot_total := pot_total p + delta;
     pot_theme := pot_theme p;
     pot_created_at := pot_created_at p;
     pot_updated_at := now |}.

Definition update_pot_total (pot_id : uuid) (delta : numeric)
    (now : timestamptz) (ps : gmap uuid pot) : gmap uuid pot :=
  alter (pot_add_total delta now) pot_id ps.

(** [SELECT * INTO v_pot FROM pots WHERE id = pot_id AND user_id = v_user_id] *)
Definition select_pot (pot_id v_user_id : uuid) (ps : gmap uuid pot)
    : option pot :=
  match ps !! pot_id with
  | Some p => if decide (pot_user_id p = v_user_id) then Some p else None
  | None => None
  end.

(** *** Results of the stored functions (the [jsonb] they build) *)

Inductive jsonb :=
| error (message : string)
    (* jsonb_build_object('error', message) *)
| success_transfer (v_pot : option pot) (newBalance : option numeric)
    (* jsonb_build_object('success', true, 'pot', .., 'newBalance', ..) *)
| success.
    (* jsonb_build_object('success', true) *)

(** *** [pot_deposit(pot_id uuid, amount numeric)]

    [auth_uid] is [auth.uid()], [None] for SQL NULL; a NULL [amount] is
    [None]. *)
Definition pot_deposit (auth_uid : option uuid) (now : timestamptz)
    (pot_id : uuid) (amount : option numeric) (st : store) : jsonb * store :=
  match auth_uid with
  | None => (error "Unauthorized", st)
  | Some v_user_id =>
    match amount with
    | None => (error "Amount must be a positive number", st)
    | Some amount =>
      if amount <=? 0 then (error "Amount must be a positive number", st)
      else
        match select_pot pot_id v_user_id (pots st) with
        | None => (error "Pot not found", st)
        | Some v_pot =>
          match profiles st !! v_user_id with
          | None => (error "Profile not found", st)
          | Some v_profile =>
            if balance v_profile <? amount
            then (error "Insufficient balance", st)
            else
              let profiles' :=
                update_profile_balance v_user_id (- amount) now (profiles st) in
              let pots' := update_pot_total pot_id amount now (pots st) in
              (success_transfer (pots' !! pot_id)
                                (balance <$> profiles' !! v_user_id),
               {| profiles := profiles';
                  transactions := transactions st;
                  pots := pots' |})
          end
        end
    end
  end.

(** *** [pot_withdraw(pot_id uuid, amount numeric)] *)
Definition pot_withdraw (auth_uid : option uuid) (now : timestamptz)
    (pot_id : uuid) (amount : option numeric) (st : store) : jsonb * store :=
  match auth_uid with
  | None => (error "Unauthorized", st)
  | Some v_user_id =>
    match amount with
    | None => (error "Amount must be a positive number", st)
    | Some amount =>
      if amount <=? 0 then (error "Amount must be a positive number", st)
      else
        match select_pot pot_id v_user_id (pots st) with
        | None => (error "Pot not found", st)
        | Some v_pot =>
          if pot_total v_pot <? amount
          then (error "Insufficient pot balance", st)
          else
            let pots' := update_pot_total pot_id (- amount) now (pots st) in
            let profiles' :=
              update_profile_balance v_user_id amount now (profiles st) in
            (success_transfer (pots' !! pot_id)
                              (balance <$> profiles' !! v_user_id),
             {| profiles := profiles';
                transactions := transactions st;
                pots := pots' |})
        end
    end
  end.

(** *** [delete_pot(pot_id uuid)] *)
Definition delete_pot (auth_uid : option uuid) (now : timestamptz)
    (pot_id : uuid) (st : store) : jsonb * store :=
  match auth_uid with
  | None => (error "Unauthorized", st)
  | Some v_user_id =>
    match select_pot pot_id v_user_id (pots st) with
    | None => (error "Pot not found", st)
    | Some v_pot =>
      let profiles' :=
        if 0 <? pot_total v_pot
        then update_profile_balance v_user_id (pot_total v_pot) now
                                    (profiles st)
        else profiles st in
      (success,
       {| profiles := profiles';
          transactions := transactions st;
          pots := delete pot_id (pots st) |})
    end
  end.

(** *** The trigger [on_transaction_balance_change]

    [AFTER INSERT OR UPDATE OR DELETE ON transactions FOR EACH ROW
     EXECUTE FUNCTION update_balance_on_transaction()] *)

Inductive trigger_event :=
| TG_INSERT (NEW : transaction)
| TG_UPDATE (OLD NEW : transaction)
| TG_DELETE (OLD : transaction).

Definition update_balance_on_transaction (now : timestamptz)
    (ev : trigger_event) (ps : gmap uuid profile) : gmap uuid profile :=
  match ev with
  | TG_INSERT NEW =>
    let v_in_current_month := in_current_month now (tx_date NEW) in
    if v_in_current_month
    then update_profile_balance (tx_user_id NEW) (tx_amount NEW) now ps
    else ps
  | TG_UPDATE OLD NEW =>
    let v_in_current_month := in_current_month now (tx_date NEW) in
    if in_current_month now (tx_date OLD) || v_in_current_month then
      (* Reverse old amount if it was in current month *)
      let ps1 :=
        if in_current_month now (tx_date OLD)
        then update_profile_balance (tx_user_id OLD) (- tx_amount OLD) now ps
        else ps in
      (* Apply new amount if in current month *)
      if v_in_current_month
      then update_profile_balance (tx_user_id NEW) (tx_amount NEW) now ps1
      else ps1
    else ps
  | TG_DELETE OLD =>
    let v_in_current_month := in_current_month now (tx_date OLD) in
    if v_in_current_month
    then update_profile_balance (tx_user_id OLD) (- tx_amount OLD) now ps
    else ps
  end.

(** *** Statements on [transactions]

    Row-level security, policy "Users can CRUD own transactions":
    [FOR ALL USING (auth.uid() = user_id) WITH CHECK (auth.uid() = user_id)].
    A statement that is rejected (policy, primary key) or that matches no
    row leaves the store as it is and fires no trigger. *)

(** [INSERT INTO transactions (id, ...) VALUES (id, row)] *)
Definition insert_transaction (auth_uid : option uuid) (now : timestamptz)
    (id : uuid) (row : transaction) (st : store) : store :=
  if decide (auth_uid = Some (tx_user_id row)) then
    match transactions st !! id with
    | Some _ => st
    | None =>
      {| profiles :=
           update_balance_on_transaction now (TG_INSERT row) (profiles st);
         transactions := <[id := row]> (transactions st);
         pots := pots st |}
    end
  else st.

(** The columns [updateTransaction] may set; an absent field keeps the
    stored value. *)
Record transaction_update := TransactionUpdate {
  set_name : option string;
  set_amount : option numeric;
  set_category : option category;
  set_date : option timestamptz;
  set_avatar : option string;
  set_recurring : option bool
}.

Definition apply_update (u : transaction_update) (OLD : transaction)
    : transaction :=
  {| tx_user_id := tx_user_id OLD;
     tx_avatar := default (tx_avatar OLD) (set_avatar u);
     tx_name := default (tx_name OLD) (set_name u);
     tx_category := default (tx_category OLD) (set_category u);
     tx_date := default (tx_date OLD) (set_date u);
     tx_amount := default (tx_amount OLD) (set_amount u);
     tx_recurring := default (tx_recurring OLD) (set_recurring u);
     tx_created_at := tx_created_at OLD;
     tx_updated_at := tx_updated_at OLD |}.

(** [UPDATE transactions SET ... WHERE id = id] *)
Definition update_transaction (auth_uid : option uuid) (now : timestamptz)
    (id : uuid) (u : transaction_update) (st : store) : store :=
  match transactions st !! id with
  | Some OLD =>
    if decide (auth_uid = Some (tx_user_id OLD)) then
      let NEW := apply_update u OLD in
      {| profiles :=
           update_balance_on_transaction now (TG_UPDATE OLD NEW) (profiles st);
         transactions := <[id := NEW]> (transactions st);
         pots := pots st |}
    else st
  | None => st
  end.

(** [DELETE FROM transactions WHERE id = id] *)
Definition delete_transaction (auth_uid : option uuid) (now : timestamptz)
    (id : uuid) (st : store) : store :=
  match transactions st !! id with
  | Some OLD =>
    if decide (auth_uid = Some (tx_user_id OLD)) then
      {| profiles :=
           update_balance_on_transaction now (TG_DELETE OLD) (profiles st);
         transactions := delete id (transactions st);
         pots := pots st |}
    else st
  | None => st
  end.

(** *** Statements on [pots] issued by [createPot] and [updatePot]

    Policy "Users can CRUD own pots"; [CHECK (target >= 0)];
    [UNIQUE (user_id, theme)]. *)

Definition theme_taken (uid : uuid) (theme : string) (except : option uuid)
    (ps : gmap uuid pot) : bool :=
  bool_decide (map_Exists (λ id p, Some id ≠ except ∧ pot_user_id p = uid
                                   ∧ pot_theme p = theme) ps).

(** [INSERT INTO pots (id, user_id, name, target, theme, total)
     VALUES (id, auth.uid(), name, target, theme, 0)] *)
Definition insert_pot (auth_uid : option uuid) (now : timestamptz)
    (id : uuid) (name : string) (target : numeric) (theme : string)
    (st : store) : store :=
  match auth_uid with
  | None => st
  | Some uid =>
    if (target <? 0) || theme_taken uid theme None (pots st) then st
    else
      match pots st !! id with
      | Some _ => st
      | None =>
        {| profiles := profiles st;
           transactions := transactions st;
           pots := <[id := {| pot_user_id := uid; pot_name := name;
                              pot_target := target; pot_total := 0;
                              pot_theme := theme; pot_created_at := now;
                              pot_updated_at := now |}]> (pots st) |}
      end
  end.

Record pot_update := PotUpdate {
  set_pot_name : option string;
  set_pot_target : option numeric;
  set_pot_theme : option string
}.

Definition apply_pot_update (u : pot_update) (p : pot) : pot :=
  {| pot_user_id := pot_user_id p;
     pot_name := default (pot_name p) (set_pot_name u);
     pot_target := default (pot_target p) (set_pot_target u);
     pot_total := pot_total p;
     pot_theme := default (pot_theme p) (set_pot_theme u);
     pot_created_at := pot_created_at p;
     pot_updated_at := pot_updated_at p |}.

(** [UPDATE pots SET ... WHERE id = id] *)
Definition update_pot (auth_uid : option uuid) (id : uuid) (u : pot_update)
    (st : store) : store :=
  match pots st !! id with
  | Some p =>
    if decide (auth_uid = Some (pot_user_id p)) then
      let p' := apply_pot_update u p in
      if (pot_target p' <? 0)
         || theme_taken (pot_user_id p) (pot_theme p') (Some id) (pots st)
      then st
      else {| profiles := profiles st;
              transactions := transactions st;
              pots := <[id := p']> (pots st) |}
    else st
  | None => st
  end.

(** *** Operations of the system and their replay *)

Inductive operation :=
| CreateTransaction (id : uuid) (row : transaction)
| UpdateTransaction (id : uuid) (u : transaction_update)
| DeleteTransaction (id : uuid)
| CreatePot (id : uuid) (name : string) (target : numeric) (theme : string)
| UpdatePot (id : uuid) (u : pot_update)
| DepositToPot (pot_id : uuid) (amount : option numeric)
| WithdrawFromPot (pot_id : uuid) (amount : option numeric)
| DeletePot (pot_id : uuid).

Definition is_transaction_operation (o : operation) : bool :=
  match o with
  | CreateTransaction _ _ | UpdateTransaction _ _ | DeleteTransaction _ => true
  | _ => false
  end.

(** One request: who calls ([auth.uid()]) and what. *)
Definition request : Type := option uuid * operation.

Definition execute (now : timestamptz) (r : request) (st : store) : store :=
  let '(auth_uid, o) := r in
  match o with
  | CreateTransaction id row => insert_transaction auth_uid now id row st
  | UpdateTransaction id u => update_transaction auth_uid now id u st
  | DeleteTransaction id => delete_transaction auth_uid now id st
  | CreatePot id name target theme =>
    insert_pot auth_uid now id name target theme st
  | UpdatePot id u => update_pot auth_uid id u st
  | DepositToPot pot_id amount =>
    snd (pot_deposit auth_uid now pot_id amount st)
  | WithdrawFromPot pot_id amount =>
    snd (pot_withdraw auth_uid now pot_id amount st)
  | DeletePot pot_id => snd (delete_pot auth_uid now pot_id st)
  end.

(** Requests are served one after the other, [now] held fixed. *)
Definition replay (now : timestamptz) (rs : list request) (st : store)
    : store :=
  foldl (λ s r, execute now r s) st rs.

(** New accounts: every profile row has [balance] at its [DEFAULT 0]; no
    transaction, no pot. *)
Definition new_profile (name : string) (now : timestamptz) : profile :=
  {| full_name := name; balance := 0; avatar_url := None;
     profile_created_at := now; profile_updated_at := now |}.

Definition new_accounts (now : timestamptz) (users : gmap uuid string)
    : store :=
  {| profiles := (λ name, new_profile name now) <$> users;
     transactions := ∅;
     pots := ∅ |}.

(** *** Sums over [transactions] and [pots]

    [SELECT COALESCE(SUM(amount), 0) FROM transactions WHERE selected] *)
Definition sum_where (selected : transaction → bool)
    (txs : gmap uuid transaction) : numeric :=
  map_fold (λ _ t acc, if selected t then acc + tx_amount t else acc) 0 txs.

(** The sum over the window that the trigger tests:
    [WHERE user_id = uid AND date >= v_month_start AND date <= v_month_end] *)
Definition period_sum (now : timestamptz) (uid : uuid)
    (txs : gmap uuid transaction) : numeric :=
  sum_where (λ t, bool_decide (tx_user_id t = uid)
                  && in_current_month now (tx_date t)) txs.

(** The statement period of the specification: the calendar month that
    contains [now]. *)
Definition in_statement_period (now d : timestamptz) : bool :=
  (ts_year d =? ts_year now) && (ts_month d =? ts_month now).

(** Direct recomputation: the sum of the amounts of the transactions of
    [uid] whose date falls within the current statement period. *)
Definition statement_sum (now : timestamptz) (uid : uuid)
    (txs : gmap uuid transaction) : numeric :=
  sum_where (λ t, bool_decide (tx_user_id t = uid)
                  && in_statement_period now (tx_date t)) txs.

(** A timestamp that exists in the calendar. *)
Definition valid_timestamptz (t : timestamptz) : Prop :=
  1 <= ts_month t <= 12
  ∧ 1 <= ts_day t <= Calendar.days_in_month (ts_year t) (ts_month t)
  ∧ 0 <= ts_usec t < usec_per_day.

(** A timestamp after 23:59:59.000000 on the last day of its month. *)
Definition in_last_second (t : timestamptz) : Prop :=
  ts_day t = Calendar.days_in_month (ts_year t) (ts_month t)
  ∧ usec_per_day - usec_per_second < ts_usec t.

(** A valid timestamp that is not within the last second of its month. *)
Definition before_last_second (t : timestamptz) : Prop :=
  valid_timestamptz t ∧ ¬ in_last_second t.

#[export] Instance before_last_second_dec t : Decision (before_last_second t).
Proof.
  unfold before_last_second, valid_timestamptz, in_last_second. apply _.
Defined.

(** [SELECT COALESCE(SUM(total), 0) FROM pots WHERE user_id = uid] *)
Definition pots_sum (uid : uuid) (ps : gmap uuid pot) : numeric :=
  map_fold (λ _ p acc,
              if bool_decide (pot_user_id p = uid)
              then acc + pot_total p else acc) 0 ps.

(** *** Properties of stores *)

(** What transaction [t] adds to the period sum of [uid]. *)
Definition contribution (now : timestamptz) (uid : uuid) (t : transaction)
    : numeric :=
  if bool_decide (tx_user_id t = uid) && in_current_month now (tx_date t)
  then tx_amount t else 0.

(** What pot [p] adds to the pots of [uid]. *)
Definition pot_share (uid : uuid) (p : pot) : numeric :=
  if bool_decide (pot_user_id p = uid) then pot_total p else 0.

(** What one firing of the trigger should add to the period sum of [uid]. *)
Definition event_change (now : timestamptz) (uid : uuid) (ev : trigger_event)
    : numeric :=
  match ev with
  | TG_INSERT NEW => contribution now uid NEW
  | TG_UPDATE OLD NEW => contribution now uid NEW - contribution now uid OLD
  | TG_DELETE OLD => - contribution now uid OLD
  end.

(** The balance of [uid]'s account, if there is one, and that balance plus
    the totals of [uid]'s pots. *)
Definition balance_of (uid : uuid) (st : store) : option numeric :=
  balance <$> profiles st !! uid.

Definition funds_of (uid : uuid) (st : store) : option numeric :=
  (λ b, b + pots_sum uid (pots st)) <$> balance_of uid st.

(** Every account balance equals the direct recomputation. *)
Definition balance_consistent (now : timestamptz) (st : store) : Prop :=
  ∀ uid prof,
    profiles st !! uid = Some prof →
    balance prof = period_sum now uid (transactions st).

(** Every account balance, together with what the account holds in pots,
    equals the direct recomputation. *)
Definition funds_consistent (now : timestamptz) (st : store) : Prop :=
  ∀ uid prof,
    profiles st !! uid = Some prof →
    balance prof + pots_sum uid (pots st)
    = period_sum now uid (transactions st).

(** The [CHECK (total >= 0)] constraint of [pots]. *)
Definition pots_nonnegative (st : store) : Prop :=
  map_Forall (λ _ p, 0 <= pot_total p) (pots st).

(** Every pot that holds money belongs to a user who has a profile row. *)
Definition pots_backed (st : store) : Prop :=
  map_Forall (λ _ p, 0 < pot_total p → is_Some (profiles st !! pot_user_id p))
             (pots st).

(** The two transfers, told apart by the direction of the money. *)
Inductive transfer := Deposit | Withdraw.

Definition pot_transfer (k : transfer) :=
  match k with Deposit => pot_deposit | Withdraw => pot_withdraw end.

(** Change of the pot's total on a transfer of [a]. *)
Definition pot_change (k : transfer) (a : numeric) : numeric :=
  match k with Deposit => a | Withdraw => - a end.

End Db.

(* ===================================================================== *)
(** ** The client: [lib/api.ts] *)
(* ===================================================================== *)

Module Api.

(** *** JavaScript values *)

(** The operations [getRecurringBills] performs on the JavaScript numbers
    it handles: [0], [+], [-], [Math.abs] and [<]. *)
Class JsNumber (num : Type) := {
  num_zero : num;
  num_add : num → num → num;
  num_sub : num → num → num;
  num_abs : num → num;
  num_ltb : num → num → bool
}.

(** JavaScript numbers are IEEE 754 binary64 values. *)
#[export] Instance float_JsNumber : JsNumber float := {
  num_zero := 0%float;
  num_add := PrimFloat.add;
  num_sub := PrimFloat.sub;
  num_abs := PrimFloat.abs;
  num_ltb := PrimFloat.ltb
}.

(** Amounts whose arithmetic never rounds (for instance whole numbers of
    cents below 2^53) behave as integers. *)
#[export] Instance Z_JsNumber : JsNumber Z := {
  num_zero := 0;
  num_add := Z.add;
  num_sub := Z.sub;
  num_abs := Z.abs;
  num_ltb := Z.ltb
}.

(** The sign of a number, which is all [Array.prototype.sort] reads of the
    value its callback returns (NaN counts as 0). *)
Definition num_sgn {num} `{JsNumber num} (x : num) : Z :=
  if num_ltb x num_zero then -1
  else if num_ltb num_zero x then 1
  else 0.

(** A [Date], in the local civil time in which [getFullYear], [getMonth]
    and [getDate] read it; [Date]s compare by their time value, which is
    the chronological order of these fields. *)
Record Date := mkDate {
  getFullYear : Z;
  getMonth : Z;      (* 0 .. 11 *)
  getDate : Z;       (* 1 .. 31 *)
  msOfDay : Z        (* milliseconds since local midnight *)
}.

Definition Date_compare (a b : Date) : comparison :=
  match getFullYear a ?= getFullYear b with
  | Eq => match getMonth a ?= getMonth b with
          | Eq => match getDate a ?= getDate b with
                  | Eq => msOfDay a ?= msOfDay b
                  | c => c
                  end
          | c => c
          end
  | c => c
  end.

(** [a > b], [a >= b], [a <= b] on [Date]s *)
Definition Date_gtb (a b : Date) : bool :=
  match Date_compare a b with Gt => true | _ => false end.
Definition Date_leb (a b : Date) : bool := negb (Date_gtb a b).
Definition Date_geb (a b : Date) : bool := Date_leb b a.

(** [new Date(year, month, 1)] *)
Definition first_of_month (year month : Z) : Date :=
  {| getFullYear := year; getMonth := month; getDate := 1; msOfDay := 0 |}.

(** [new Date(year, month + 1, 0, 23, 59, 59, 999)]: day 0 of the next
    month is the last day of [month]. *)
Definition end_of_month (year month : Z) : Date :=
  {| getFullYear := year; getMonth := month;
     getDate := Calendar.days_in_month year (month + 1);
     msOfDay := ((23 * 60 + 59) * 60 + 59) * 1000 + 999 |}.

(** A string is held as the bytes of its UTF-8 encoding.  On well-formed
    text, one string occurs in another as a run of bytes exactly when it
    occurs in it as a run of UTF-16 code units, which is what
    [s.includes(sub)] tests. *)
Fixpoint includes (s sub : string) : bool :=
  String.prefix sub s
  || match s with
     | EmptyString => false
     | String _ s' => includes s' sub
     end.

(** [Array.prototype.sort(compareFn)] is stable: an element moves behind
    another one only where [compareFn] is positive.  [goes_after a b] is
    [compareFn(a, b) > 0]. *)
Section Sort.
Context {A : Type} (goes_after : A → A → bool).

Fixpoint sort_insert (x : A) (l : list A) : list A :=
  match l with
  | [] => [x]
  | y :: l' => if goes_after x y then y :: sort_insert x l' else x :: l
  end.

Definition stable_sort (l : list A) : list A := foldr sort_insert [] l.

(** [x] may stand before [y]: [compareFn(x, y)] is not positive. *)
Definition may_precede (x y : A) : Prop := goes_after x y = false.

End Sort.

(** A [Map<string, V>] keeps its entries in insertion order; [set] on a
    present key replaces the value where it stands. *)
Section Map.
Context {V : Type}.

Fixpoint Map_get (k : string) (m : list (string * V)) : option V :=
  match m with
  | [] => None
  | (k', v) :: m' => if String.eqb k k' then Some v else Map_get k m'
  end.

Fixpoint Map_set (k : string) (v : V) (m : list (string * V))
    : list (string * V) :=
  match m with
  | [] => [(k, v)]
  | (k', v') :: m' =>
    if String.eqb k k' then (k', v) :: m' else (k', v') :: Map_set k v m'
  end.

Definition Map_values (m : list (string * V)) : list V := m.*2.

End Map.

(** *** Types *)

Inductive SortOption := Latest | Oldest | AtoZ | ZtoA | Highest | Lowest.

Record Transaction {num : Type} := mkTransaction {
  id : string;
  user_id : string;
  avatar : string;
  name : string;
  category : string;
  date : Date;            (* [new Date(tx.date)] *)
  amount : num;
  recurring : bool;
  created_at : string;
  updated_at : string
}.
Arguments Transaction : clear implicits.

Record TransactionsResponse {num : Type} := mkTransactionsResponse {
  transactions : list (Transaction num);
  total : nat;
  page : positive;
  pages : Z;
  limit : positive
}.
Arguments TransactionsResponse : clear implicits.

Record TransactionParams := mkTransactionParams {
  tp_page : option positive;
  tp_limit : option positive;
  tp_search : option string;
  tp_sort : option SortOption;
  tp_filter : option string;
  tp_category : option string
}.

Inductive Status := paid | upcoming | due_soon.

(** [RecurringBill extends Transaction]: [{ ...tx, status, dueDay }] *)
Record RecurringBill {num : Type} := mkRecurringBill {
  tx : Transaction num;
  status : Status;
  dueDay : Z
}.
Arguments RecurringBill : clear implicits.

Record RecurringBillsParams := mkRecurringBillsParams {
  search : option string;
  sort : option SortOption
}.

Record CountAmount {num : Type} := mkCountAmount {
  count : nat;
  amount_of : num
}.
Arguments CountAmount : clear implicits.

Record RecurringBillsSummary {num : Type} := mkSummary {
  summary_total : nat;
  totalAmount : num;
  summary_paid : CountAmount num;
  summary_upcoming : CountAmount num;
  dueSoon : CountAmount num
}.
Arguments RecurringBillsSummary : clear implicits.

Record RecurringBillsResponse {num : Type} := mkRecurringBillsResponse {
  bills : list (RecurringBill num);
  summary : RecurringBillsSummary num
}.
Arguments RecurringBillsResponse : clear implicits.

(** *** Functions *)

Inductive Column := col_date | col_name | col_amount.

Record SortSpec := mkSortSpec { column : Column; ascending : bool }.

Definition SORT_MAP (sort : SortOption) : SortSpec :=
  match sort with
  | Latest => {| column := col_date; ascending := false |}
  | Oldest => {| column := col_date; ascending := true |}
  | AtoZ => {| column := col_name; ascending := true |}
  | ZtoA => {| column := col_name; ascending := false |}
  | Highest => {| column := col_amount; ascending := false |}
  | Lowest => {| column := col_amount; ascending := true |}
  end.

(** A non-empty string is truthy. *)
Definition truthy (s : option string) : option string :=
  match s with
  | Some EmptyString | None => None
  | Some s => Some s
  end.

Section Client.
Context {num : Type} `{JsNumber num}.

(** What the platform supplies: PostgreSQL's [name ILIKE pattern] and its
    order on [text] (the collation of the database),
    [String.prototype.localeCompare] and [String.prototype.toLowerCase]
    (the lower-casing of Unicode). *)
Variable ilike : string → string → bool.
Variable text_ltb : string → string → bool.
Variable localeCompare : string → string → Z.
Variable toLowerCase : string → string.

(** [column_ltb c a b]: the value of column [c] is smaller in row [a] than
    in row [b]. *)
Definition column_ltb (c : Column) (a b : Transaction num) : bool :=
  match c with
  | col_date => Date_gtb (date b) (date a)
  | col_name => text_ltb (name a) (name b)
  | col_amount => num_ltb (amount a) (amount b)
  end.

(** [.order(column, { ascending })]: [ORDER BY column ASC|DESC].  Rows that
    agree on the column (for [date], to the millisecond that a [Date]
    keeps) stay in the order of the table. *)
Definition order (c : Column) (asc : bool) (rows : list (Transaction num))
    : list (Transaction num) :=
  stable_sort (λ a b, if asc then column_ltb c b a else column_ltb c a b) rows.

(** [.range(from, to)] *)
Definition range (from to : nat) (rows : list (Transaction num))
    : list (Transaction num) :=
  take (to + 1 - from) (drop from rows).

(** [getTransactions(params)], on the rows of [transactions] that row-level
    security lets the caller see. *)
Definition getTransactions (table : list (Transaction num))
    (params : option TransactionParams) : TransactionsResponse num :=
  let page := default 1%positive (params ≫= tp_page) in
  let limit := default 10%positive (params ≫= tp_limit) in
  let sort := default Latest (params ≫= tp_sort) in
  let '{| column := column; ascending := ascending |} := SORT_MAP sort in
  let category :=
    match params ≫= tp_filter with
    | Some f => Some f
    | None => params ≫= tp_category
    end in
  let query := order column ascending table in
  let query :=
    match truthy (params ≫= tp_search) with
    | Some search =>
      filter (λ t, ilike (name t) ("%" ++ search ++ "%")%string = true) query
    | None => query
    end in
  let query :=
    match truthy category with
    | Some category =>
      if String.eqb category "All Transactions" then query
      else filter (λ t, Api.category t = category) query
    | None => query
    end in
  let from := ((Pos.to_nat page - 1) * Pos.to_nat limit)%nat in
  let to := (from + Pos.to_nat limit - 1)%nat in
  let data := range from to query in
  let total := length query in
  let pages := (Z.of_nat total + Z.pos limit - 1) / Z.pos limit in
  {| transactions := data;
     total := total;
     page := page;
     pages := pages;
     limit := limit |}.

(** The callback of [filteredBills.sort]: the sign of what it returns. *)
Definition compareBills (sortOption : SortOption) (a b : RecurringBill num)
    : Z :=
  match sortOption with
  | Latest => Z.sgn (dueDay a - dueDay b)
  | Oldest => Z.sgn (dueDay b - dueDay a)
  | AtoZ => Z.sgn (localeCompare (name (tx a)) (name (tx b)))
  | ZtoA => Z.sgn (localeCompare (name (tx b)) (name (tx a)))
  | Highest =>
    num_sgn (num_sub (num_abs (amount (tx b))) (num_abs (amount (tx a))))
  | Lowest =>
    num_sgn (num_sub (num_abs (amount (tx a))) (num_abs (amount (tx b))))
  end.

Definition sortBills (sortOption : SortOption) (l : list (RecurringBill num))
    : list (RecurringBill num) :=
  stable_sort (λ a b, 0 <? compareBills sortOption a b) l.

(** [billMap]: per name, the first transaction met that no later one beats
    on the date. *)
Definition billMap_step (billMap : list (string * Transaction num))
    (t : Transaction num) : list (string * Transaction num) :=
  match Map_get (name t) billMap with
  | None => Map_set (name t) t billMap
  | Some current =>
    if Date_gtb (date t) (date current) then Map_set (name t) t billMap
    else billMap
  end.

Definition classify (now : Date) (t : Transaction num) : RecurringBill num :=
  let CURRENT_DATE := getDate now in
  let CURRENT_MONTH := getMonth now in
  let CURRENT_YEAR := getFullYear now in
  let CURRENT_MONTH_START := first_of_month CURRENT_YEAR CURRENT_MONTH in
  let CURRENT_MONTH_END := end_of_month CURRENT_YEAR CURRENT_MONTH in
  let billDate := date t in
  let dueDay := getDate billDate in
  let isPaidThisMonth :=
    Date_geb billDate CURRENT_MONTH_START
    && Date_leb billDate CURRENT_MONTH_END in
  let status :=
    if isPaidThisMonth then paid
    else if (CURRENT_DATE <? dueDay) && (dueDay <=? CURRENT_DATE + 5)
         then due_soon
         else upcoming in
  {| tx := t; status := status; dueDay := dueDay |}.

Definition is_paid (b : RecurringBill num) : bool :=
  match status b with paid => true | _ => false end.
Definition is_unpaid (b : RecurringBill num) : bool :=
  match status b with upcoming | due_soon => true | paid => false end.
Definition is_due_soon (b : RecurringBill num) : bool :=
  match status b with due_soon => true | _ => false end.

(** [l.reduce((sum, b) => sum + Math.abs(b.amount), 0)] *)
Definition sum_abs (l : list (RecurringBill num)) : num :=
  foldl (λ sum b, num_add sum (num_abs (amount (tx b)))) num_zero l.

Definition summarize (bills : list (RecurringBill num))
    : RecurringBillsSummary num :=
  let paidBills := filter (λ b, is_paid b = true) bills in
  let upcomingBills := filter (λ b, is_unpaid b = true) bills in
  let dueSoonBills := filter (λ b, is_due_soon b = true) bills in
  {| summary_total := length upcomingBills;
     totalAmount := sum_abs upcomingBills;
     summary_paid :=
       {| count := length paidBills; amount_of := sum_abs paidBills |};
     summary_upcoming :=
       {| count := length upcomingBills; amount_of := sum_abs upcomingBills |};
     dueSoon :=
       {| count := length dueSoonBills; amount_of := sum_abs dueSoonBills |} |}.

(** [{ limit: 500 }] *)
Definition limit_500 : TransactionParams :=
  {| tp_page := None; tp_limit := Some 500%positive; tp_search := None;
     tp_sort := None; tp_filter := None; tp_category := None |}.

(** [tx.recurring && tx.amount < 0] *)
Definition is_recurring_expense (t : Transaction num) : bool :=
  recurring t && num_ltb (amount t) num_zero.

(** [getRecurringBills(params)] at the time [now = new Date()].

    [bills] is one array object.  Without a search [filteredBills] is that
    same object, so [filteredBills.sort] sorts [bills] itself and the
    summary is then taken from the sorted array; with a search,
    [bills.filter] makes a new array and [bills] keeps its order. *)
Definition getRecurringBills (now : Date) (table : list (Transaction num))
    (params : option RecurringBillsParams) : RecurringBillsResponse num :=
  let response := getTransactions table (Some limit_500) in
  let allTransactions := transactions response in
  let recurringTransactions :=
    filter (λ t, is_recurring_expense t = true) allTransactions in
  let billMap := foldl billMap_step [] recurringTransactions in
  let uniqueBills := Map_values billMap in
  let bills := classify now <$> uniqueBills in
  let sortOption := default Latest (params ≫= sort) in
  let '(bills, filteredBills) :=
    match truthy (params ≫= search) with
    | Some search =>
      let searchLower := toLowerCase search in
      let filteredBills :=
        filter (λ b, includes (toLowerCase (name (tx b))) searchLower = true)
               bills in
      (bills, sortBills sortOption filteredBills)
    | None =>
      let sorted := sortBills sortOption bills in
      (sorted, sorted)
    end in
  {| bills := filteredBills; summary := summarize bills |}.

(** The transactions [getRecurringBills] works from, and the array [bills]
    as [uniqueBills.map] builds it: the classified set. *)
Definition allTransactions (table : list (Transaction num))
    : list (Transaction num) :=
  transactions (getTransactions table (Some limit_500)).

Definition recurringTransactions (table : list (Transaction num))
    : list (Transaction num) :=
  filter (λ t, is_recurring_expense t = true) (allTransactions table).

Definition classifiedBills (now : Date) (table : list (Transaction num))
    : list (RecurringBill num) :=
  classify now <$> Map_values (foldl billMap_step [] (recurringTransactions table)).

End Client.

(** *** Properties of dates, bills and listings *)

(** A [Date] whose day exists in its month and whose time is within the
    day, as every [Date] object is. *)
Definition valid_Date (d : Date) : Prop :=
  1 <= getDate d <= Calendar.days_in_month (getFullYear d) (getMonth d + 1)
  ∧ 0 <= msOfDay d < 86400000.

(** [d] falls within the calendar month of [now]. *)
Definition in_calendar_month (now d : Date) : Prop :=
  getFullYear d = getFullYear now ∧ getMonth d = getMonth now.

(** [billMap] after the transactions [l]: one entry per name met, holding
    a transaction of [l] of that name that none of [l] beats on the date. *)
Definition latest_per_name {num} (l : list (Transaction num))
    (billMap : list (string * Transaction num)) : Prop :=
  NoDup billMap.*1
  ∧ (∀ k v, (k, v) ∈ billMap →
       name v = k ∧ v ∈ l
       ∧ ∀ t, t ∈ l → name t = k → Date_gtb (date t) (date v) = false)
  ∧ (∀ t, t ∈ l → name t ∈ billMap.*1).

(** [b] is not dated after [a]: [a] may stand before [b], newest first. *)
Definition not_newer {num} (a b : Transaction num) : Prop :=
  Date_gtb (date b) (date a) = false.

(** Row [a] may stand before row [b] in a listing by [abs(amount)]
    descending, respectively by [amount] descending. *)
Definition abs_amount_geq {num} `{JsNumber num} (a b : Transaction num)
    : Prop :=
  num_ltb (num_abs (amount a)) (num_abs (amount b)) = false.

Definition amount_geq {num} `{JsNumber num} (a b : Transaction num) : Prop :=
  num_ltb (amount a) (amount b) = false.

End Api.

(* ===================================================================== *)
(** ** A small scenario, used to exercise the statements below *)
(* ===================================================================== *)

Module Scenario.
Import Db.

Definition alice : uuid := 7%N.
Definition bob : uuid := 8%N.

(** 10 February 2024, noon. *)
Definition now0 : timestamptz :=
  {| ts_year := 2024; ts_month := 2; ts_day := 10; ts_usec := 43200000000 |}.

Definition salary : transaction :=
  {| tx_user_id := alice; tx_avatar := "/assets/images/avatars/default.jpg";
     tx_name := "Salary"; tx_category := General;
     tx_date := {| ts_year := 2024; ts_month := 2; ts_day := 1; ts_usec := 0 |};
     tx_amount := 100; tx_recurring := false;
     tx_created_at := now0; tx_updated_at := now0 |}.

Definition rent : transaction :=
  {| tx_user_id := alice; tx_avatar := "/assets/images/avatars/default.jpg";
     tx_name := "Rent"; tx_category := Bills;
     tx_date := {| ts_year := 2024; ts_month := 1; ts_day := 28; ts_usec := 0 |};
     tx_amount := -30; tx_recurring := true;
     tx_created_at := now0; tx_updated_at := now0 |}.

(** An income dated half a second before the end of February 2024. *)
Definition late_income : transaction :=
  {| tx_user_id := alice; tx_avatar := "/assets/images/avatars/default.jpg";
     tx_name := "Refund"; tx_category := General;
     tx_date := {| ts_year := 2024; ts_month := 2; ts_day := 29;
                   ts_usec := 86399500000 |};
     tx_amount := 100; tx_recurring := false;
     tx_created_at := now0; tx_updated_at := now0 |}.

(** Alice records her salary and last month's rent, moves the rent to
    3 February; Bob tries to delete Alice's salary. *)
Definition writes : list request :=
  [ (Some alice, CreateTransaction 1%N salary);
    (Some alice, CreateTransaction 4%N rent);
    (Some alice,
     UpdateTransaction 4%N
       {| set_name := None; set_amount := None; set_category := None;
          set_date := Some {| ts_year := 2024; ts_month := 2; ts_day := 3;
                              ts_usec := 0 |};
          set_avatar := None; set_recurring := None |});
    (Some bob, DeleteTransaction 1%N) ].

(** 1 March 2024, midnight. *)
Definition march : timestamptz :=
  {| ts_year := 2024; ts_month := 3; ts_day := 1; ts_usec := 0 |}.

(** Alice has an account; Bob is a user whose profile row is missing. *)
Definition opened : store := new_accounts now0 {[ alice := "Alice" ]}.

(** Alice receives 100 and opens a pot; Bob opens a pot. *)
Definition funded : store :=
  replay now0 [ (Some alice, CreateTransaction 1%N salary);
                (Some alice, CreatePot 2%N "Holiday" 500 "green");
                (Some bob, CreatePot 3%N "Car" 1000 "red") ] opened.

(** Alice then puts 40 in her pot. *)
Definition saved : store :=
  replay now0 [ (Some alice, DepositToPot 2%N (Some 40)) ] funded.

End Scenario.

Module ApiScenario.
Import Api.
Local Set Warnings "-inexact-float".

(** A stand-in for the platform on the ASCII text of the scenarios:
    lower-casing of the letters A to Z, byte-wise order of strings, and
    [ILIKE] for the patterns [%search%] that the client builds. *)
Definition ascii_toLowerCase (c : Ascii.ascii) : Ascii.ascii :=
  let n := Ascii.nat_of_ascii c in
  if (65 <=? n)%nat && (n <=? 90)%nat then Ascii.ascii_of_nat (n + 32) else c.

Fixpoint toLowerCase (s : string) : string :=
  match s with
  | EmptyString => EmptyString
  | String c s' => String (ascii_toLowerCase c) (toLowerCase s')
  end.

Definition ilike (s pattern : string) : bool :=
  includes
    (toLowerCase s)
    (toLowerCase (String.substring 1 (String.length pattern - 2) pattern)).

Definition text_ltb (a b : string) : bool := String.ltb a b.

Definition localeCompare (a b : string) : Z :=
  match String.compare a b with Lt => -1 | Eq => 0 | Gt => 1 end.

Definition day (y m d : Z) : Date :=
  {| getFullYear := y; getMonth := m; getDate := d; msOfDay := 0 |}.

Definition row {num} (i n : string) (d : Date) (a : num) (r : bool)
    : Transaction num :=
  {| id := i; user_id := "alice"; avatar := "/assets/images/avatars/default.jpg";
     name := n; category := "Bills"; date := d; amount := a; recurring := r;
     created_at := "2024-01-01T00:00:00+00:00";
     updated_at := "2024-01-01T00:00:00+00:00" |}.

(** 1 February 2024. *)
Definition today : Date := day 2024 1 1.

(** Three bills paid in January 2024, in JavaScript numbers. *)
Definition january_bills : list (Transaction float) :=
  [ row "t1" "Gym" (day 2024 0 20) (-0.1)%float true;
    row "t2" "Water" (day 2024 0 15) (-0.2)%float true;
    row "t3" "Power" (day 2024 0 10) (-0.3)%float true ].

(** The same month with whole amounts: rent paid twice, a salary. *)
Definition ledger : list (Transaction Z) :=
  [ row "t1" "Rent" (day 2024 0 28) (-900) true;
    row "t2" "Salary" (day 2024 0 25) 2500 false;
    row "t3" "Gym" (day 2024 0 4) (-30) true;
    row "t4" "Rent" (day 2023 11 28) (-850) true ].

(** An expense of 100 and an income of 50. *)
Definition two_amounts : list (Transaction Z) :=
  [ row "t1" "Rent" (day 2024 0 28) (-100) true;
    row "t2" "Refund" (day 2024 0 25) 50 false ].

(** 500 card payments in January 2024, one every minute, and a gym
    subscription paid in December 2023. *)
Definition card_payment (i : nat) : Transaction Z :=
  row ("c" +:+ pretty i) "Card" {| getFullYear := 2024; getMonth := 0; getDate := 5;
                    msOfDay := Z.of_nat i * 60000 |} (-3) false.

Definition old_gym : Transaction Z :=
  row "g" "Gym" (day 2023 11 4) (-30) true.

Definition busy_ledger : list (Transaction Z) :=
  old_gym :: (card_payment <$> seq 0 500).

End ApiScenario.

(* ===================================================================== *)
(** ** The database: constraints of [pots], the read functions *)
(* ===================================================================== *)

Module Queries.
Import Db.

(** The constraints that the schema puts on [pots]: [CHECK (target >= 0)],
    [CHECK (total >= 0)] and [UNIQUE (user_id, theme)]. *)
Definition pots_constraints (st : store) : Prop :=
  map_Forall (λ _ p, 0 <= pot_target p ∧ 0 <= pot_total p) (pots st)
  ∧ ∀ i j p q,
      pots st !! i = Some p → pots st !! j = Some q →
      pot_user_id p = pot_user_id q → pot_theme p = pot_theme q → i = j.

#[export] Instance category_eq_dec : EqDecision category.
Proof. solve_decision. Defined.

(** A row of [budgets]. *)
Record budget := Budget {
  budget_user_id : uuid;
  budget_category : category;
  budget_maximum : numeric;   (* CHECK (maximum >= 0) *)
  budget_theme : string;
  budget_created_at : timestamptz;
  budget_updated_at : timestamptz
}.

(** *** Queries

    The rows of a table with their keys, in the order in which a scan
    yields them (SQL leaves it open; here the order of the keys). *)
Definition scan {A} (table : gmap uuid A) : list (uuid * A) :=
  map_to_list table.

(** [SELECT * FROM table WHERE condition] *)
Definition select_where {A} (condition : A → bool) (table : gmap uuid A)
    : list (uuid * A) :=
  filter (λ r, condition r.2 = true) (scan table).

(** [SUM] is NULL over no row; [ABS(NULL)] is NULL; [COALESCE(x, d)]. *)
Definition SUM (values : list numeric) : option numeric :=
  match values with
  | [] => None
  | _ => Some (foldr Z.add 0 values)
  end.

Definition ABS (x : option numeric) : option numeric := Z.abs <$> x.

Definition COALESCE (x : option numeric) (d : numeric) : numeric :=
  default d x.

(** [COUNT( * )::int] *)
Definition COUNT {A} (rows : list A) : nat := length rows.

Definition amounts (rows : list (uuid * transaction)) : list numeric :=
  (λ r, tx_amount r.2) <$> rows.

(** [a < b] on timestamps. *)
Definition ts_ltb (a b : timestamptz) : bool := negb (ts_leb b a).

(** [ORDER BY date DESC] on transactions and [ORDER BY created_at] on
    pots.  Rows that agree on the sort key come in some order; here they
    keep the order they had. *)
Definition order_by_date_desc (rows : list (uuid * transaction))
    : list (uuid * transaction) :=
  Api.stable_sort (λ a b, ts_ltb (tx_date a.2) (tx_date b.2)) rows.

Definition order_by_created_at (rows : list (uuid * pot))
    : list (uuid * pot) :=
  Api.stable_sort (λ a b, ts_ltb (pot_created_at b.2) (pot_created_at a.2))
                  rows.

(** [LIMIT n] *)
Definition LIMIT {A} (n : nat) (rows : list A) : list A := take n rows.

(** *** [get_budget_spent(p_user_id uuid, p_category text)] *)
Definition get_budget_spent (now : timestamptz) (p_user_id : uuid)
    (p_category : category) (txs : gmap uuid transaction) : numeric :=
  let v_spent :=
    COALESCE
      (ABS (SUM (amounts
         (select_where
            (λ t, bool_decide (tx_user_id t = p_user_id)
                  && bool_decide (tx_category t = p_category)
                  && (tx_amount t <? 0)
                  && in_current_month now (tx_date t))
            txs))))
      0 in
  v_spent.

(** *** [get_budgets()] *)

Record budget_row := BudgetRow {
  row_id : uuid;
  row_budget : budget;   (* id, user_id, category, maximum, theme, ... *)
  spent : numeric;
  remaining : numeric;
  latest_transactions : list (uuid * transaction)
}.

Inductive budgets_jsonb :=
| budgets_error (message : string)
| budgets_success (budgets : list budget_row).

(** [SELECT COALESCE(jsonb_agg(to_jsonb(t) ORDER BY t.date DESC), '[]')
     FROM (SELECT * FROM transactions
           WHERE user_id = v_user_id AND category = b.category AND amount < 0
           ORDER BY date DESC LIMIT 3) t] *)
Definition latest_expenses (v_user_id : uuid) (b_category : category)
    (txs : gmap uuid transaction) : list (uuid * transaction) :=
  order_by_date_desc
    (LIMIT 3
       (order_by_date_desc
          (select_where
             (λ t, bool_decide (tx_user_id t = v_user_id)
                   && bool_decide (tx_category t = b_category)
                   && (tx_amount t <? 0))
             txs))).

Definition get_budgets (auth_uid : option uuid) (now : timestamptz)
    (budgets : gmap uuid budget) (txs : gmap uuid transaction)
    : budgets_jsonb :=
  match auth_uid with
  | None => budgets_error "Unauthorized"
  | Some v_user_id =>
    budgets_success
      ((λ r : uuid * budget,
          let b := r.2 in
          {| row_id := r.1;
             row_budget := b;
             spent := get_budget_spent now v_user_id (budget_category b) txs;
             remaining :=
               budget_maximum b
               - get_budget_spent now v_user_id (budget_category b) txs;
             latest_transactions :=
               latest_expenses v_user_id (budget_category b) txs |})
         <$> select_where (λ b, bool_decide (budget_user_id b = v_user_id))
                          budgets)
  end.

(** *** [get_balance()] *)

Record balance_data := BalanceData {
  currentBalance : numeric;
  income : numeric;
  expenses : numeric
}.

Inductive balance_jsonb :=
| balance_error (message : string)
| balance_success (data : balance_data).

(** [SELECT COALESCE(SUM(amount), 0) INTO v_income FROM transactions
     WHERE user_id = v_user_id AND amount > 0] *)
Definition v_income (v_user_id : uuid) (txs : gmap uuid transaction)
    : numeric :=
  COALESCE
    (SUM (amounts
       (select_where
          (λ t, bool_decide (tx_user_id t = v_user_id) && (0 <? tx_amount t))
          txs)))
    0.

(** [SELECT COALESCE(ABS(SUM(amount)), 0) INTO v_expenses FROM transactions
     WHERE user_id = v_user_id AND amount < 0] *)
Definition v_expenses (v_user_id : uuid) (txs : gmap uuid transaction)
    : numeric :=
  COALESCE
    (ABS (SUM (amounts
       (select_where
          (λ t, bool_decide (tx_user_id t = v_user_id) && (tx_amount t <? 0))
          txs))))
    0.

Definition get_balance (auth_uid : option uuid) (st : store) : balance_jsonb :=
  match auth_uid with
  | None => balance_error "Unauthorized"
  | Some v_user_id =>
    let v_balance := balance <$> profiles st !! v_user_id in
    balance_success
      {| currentBalance := COALESCE v_balance 0;
         income := v_income v_user_id (transactions st);
         expenses := v_expenses v_user_id (transactions st) |}
  end.

(** *** [get_overview()] *)

Record pot_item := PotItem {
  item_id : uuid;
  item_pot : pot;
  item_percentage : numeric;
  item_remaining : numeric
}.

Record budget_item := BudgetItem {
  budget_item_id : uuid;
  budget_item_row : budget;
  budget_item_spent : numeric;
  budget_item_remaining : numeric
}.

Record count_amount := CountAmount { count : nat; amount : numeric }.

Record recurring_bills := RecurringBills {
  total : nat;
  totalAmount : numeric;
  paid : count_amount;
  upcoming : count_amount;
  dueSoon : count_amount
}.

Record overview := Overview {
  balance_current : numeric;
  balance_income : numeric;
  balance_expenses : numeric;
  pots_totalSaved : numeric;
  pots_items : list pot_item;
  budgets_items : list budget_item;
  transactions_recent : list (uuid * transaction);
  recurringBills : recurring_bills
}.

Inductive overview_jsonb :=
| overview_error (message : string)
| overview_success (data : overview).

(** [SELECT DISTINCT ON (name) * FROM rows ORDER BY name, date DESC]: of
    the rows of one name, the one that comes first by [date DESC].  The
    rows that result are only counted and summed, so the order by [name]
    in which SQL yields them is not kept. *)
Fixpoint first_of_each_name (rows : list (uuid * transaction))
    : list (uuid * transaction) :=
  match rows with
  | [] => []
  | r :: rows' =>
    r :: filter (λ r', tx_name r'.2 ≠ tx_name r.2) (first_of_each_name rows')
  end.

Definition distinct_on_name_latest (rows : list (uuid * transaction))
    : list (uuid * transaction) :=
  first_of_each_name (order_by_date_desc rows).

(** [SELECT COUNT( * )::int FROM rows],
    [SELECT COALESCE(SUM(ABS(amount)), 0) FROM rows] *)
Definition count_and_amount (rows : list (uuid * transaction)) : count_amount :=
  {| count := COUNT rows;
     amount := COALESCE (SUM (Z.abs <$> amounts rows)) 0 |}.

(** The recurring bills summary of [get_overview]. *)
Definition recurring_summary (now : timestamptz) (v_user_id : uuid)
    (txs : gmap uuid transaction) : recurring_bills :=
  let v_current_date := ts_day now in
  let recurring :=
    distinct_on_name_latest
      (select_where
         (λ t, bool_decide (tx_user_id t = v_user_id)
               && bool_decide (tx_recurring t = true)
               && (tx_amount t <? 0))
         txs) in
  let paid :=
    filter (λ r, in_current_month now (tx_date r.2) = true) recurring in
  let unpaid :=
    filter (λ r, negb (in_current_month now (tx_date r.2)) = true) recurring in
  let due_soon :=
    filter (λ r, (v_current_date <? ts_day (tx_date r.2))
                 && (ts_day (tx_date r.2) <=? v_current_date + 5) = true)
           unpaid in
  {| total := COUNT unpaid;
     totalAmount := amount (count_and_amount unpaid);
     paid := count_and_amount paid;
     upcoming := count_and_amount unpaid;
     dueSoon := count_and_amount due_soon |}.

Section Overview.

(** [(total / target) * 100] in the arithmetic of [numeric], which rounds
    the quotient: supplied by the database. *)
Variable percentage_of : numeric → numeric → numeric.

Definition get_overview (auth_uid : option uuid) (now : timestamptz)
    (budgets : gmap uuid budget) (st : store) : overview_jsonb :=
  match auth_uid with
  | None => overview_error "Unauthorized"
  | Some v_user_id =>
    match profiles st !! v_user_id with
    | None => overview_error "Profile not found"
    | Some v_profile =>
      let own_pots :=
        select_where (λ p, bool_decide (pot_user_id p = v_user_id)) (pots st) in
      overview_success
        {| balance_current := balance v_profile;
           balance_income := v_income v_user_id (transactions st);
           balance_expenses := v_expenses v_user_id (transactions st);
           pots_totalSaved :=
             COALESCE (SUM ((λ r, pot_total r.2) <$> own_pots)) 0;
           pots_items :=
             (λ r : uuid * pot,
                let p := r.2 in
                {| item_id := r.1;
                   item_pot := p;
                   item_percentage :=
                     if 0 <? pot_target p
                     then percentage_of (pot_total p) (pot_target p)
                     else 0;
                   item_remaining := pot_target p - pot_total p |})
              <$> LIMIT 4 (order_by_created_at own_pots);
           budgets_items :=
             (λ r : uuid * budget,
                let b := r.2 in
                {| budget_item_id := r.1;
                   budget_item_row := b;
                   budget_item_spent :=
                     get_budget_spent now v_user_id (budget_category b)
                                      (transactions st);
                   budget_item_remaining :=
                     budget_maximum b
                     - get_budget_spent now v_user_id (budget_category b)
                                        (transactions st) |})
              <$> select_where
                    (λ b, bool_decide (budget_user_id b = v_user_id)) budgets;
           transactions_recent :=
             LIMIT 5
               (order_by_date_desc
                  (select_where (λ t, bool_decide (tx_user_id t = v_user_id))
                                (transactions st)));
           recurringBills := recurring_summary now v_user_id (transactions st)
        |}
    end
  end.

End Overview.

(** *** What the results are measured against *)

(** The ten categories. *)
Definition categories : list category :=
  [ Entertainment; Bills; Groceries; DiningOut; Transportation;
    PersonalCare; Education; Lifestyle; Shopping; General ].

(** The rows that [get_budget_spent] selects. *)
Definition is_spending (now : timestamptz) (uid : uuid) (c : category)
    (t : transaction) : bool :=
  bool_decide (tx_user_id t = uid) && bool_decide (tx_category t = c)
  && (tx_amount t <? 0) && in_current_month now (tx_date t).

(** The income of [uid] dated in the window that the trigger and
    [get_budget_spent] test, and what [get_budget_spent] reports over all
    the categories together. *)
Definition period_income (now : timestamptz) (uid : uuid)
    (txs : gmap uuid transaction) : numeric :=
  sum_where (λ t, bool_decide (tx_user_id t = uid) && (0 <? tx_amount t)
                  && in_current_month now (tx_date t)) txs.

Definition total_spent (now : timestamptz) (uid : uuid)
    (txs : gmap uuid transaction) : numeric :=
  foldr Z.add 0 ((λ c, get_budget_spent now uid c txs) <$> categories).

(** The sum of the amounts of all the transactions of [uid]. *)
Definition net_total (uid : uuid) (txs : gmap uuid transaction) : numeric :=
  sum_where (λ t, bool_decide (tx_user_id t = uid)) txs.

(** The sum of [f] over the rows of a table. *)
Definition sum_over {A} (f : A → numeric) (table : gmap uuid A) : numeric :=
  map_fold (λ _ x acc, acc + f x) 0 table.

(** [a] is not dated before [b]: [a] may stand before [b], newest first. *)
Definition not_older (a b : uuid * transaction) : Prop :=
  ts_leb (tx_date b.2) (tx_date a.2) = true.

End Queries.

(* ===================================================================== *)
(** ** The client: the pages of a listing *)
(* ===================================================================== *)

Module Pages.
Import Api.

Section Query.
Context {num : Type} `{JsNumber num}.
Variable ilike : string → string → bool.
Variable text_ltb : string → string → bool.

(** The request that [getTransactions] builds, before [.range(from, to)]
    cuts the page out of it: the rows ordered, then filtered. *)
Definition query (table : list (Transaction num))
    (params : option TransactionParams) : list (Transaction num) :=
  let sort := default Latest (params ≫= tp_sort) in
  let '{| column := column; ascending := ascending |} := SORT_MAP sort in
  let category :=
    match params ≫= tp_filter with
    | Some f => Some f
    | None => params ≫= tp_category
    end in
  let query := order text_ltb column ascending table in
  let query :=
    match truthy (params ≫= tp_search) with
    | Some search =>
      filter (λ t, ilike (name t) ("%" ++ search ++ "%")%string = true) query
    | None => query
    end in
  let query :=
    match truthy category with
    | Some category =>
      if String.eqb category "All Transactions" then query
      else filter (λ t, Api.category t = category) query
    | None => query
    end in
  query.

(** Whether a row passes the filters of a request: the search, if it is
    not empty, and the category ([filter], or else [category]) unless it is
    empty or "All Transactions". *)
Definition passes (params : option TransactionParams) (t : Transaction num)
    : bool :=
  match params ≫= tp_search with
  | Some search =>
    bool_decide (search = EmptyString) || ilike (name t) ("%" ++ search ++ "%")%string
  | None => true
  end
  && match match params ≫= tp_filter with
           | Some f => Some f
           | None => params ≫= tp_category
           end with
     | Some c =>
       bool_decide (c = EmptyString) || bool_decide (c = "All Transactions")
       || bool_decide (Api.category t = c)
     | None => true
     end.

End Query.

(** [{ ...params, page }] *)
Definition on_page (page : positive) (params : option TransactionParams)
    : option TransactionParams :=
  Some {| tp_page := Some page;
          tp_limit := params ≫= tp_limit;
          tp_search := params ≫= tp_search;
          tp_sort := params ≫= tp_sort;
          tp_filter := params ≫= tp_filter;
          tp_category := params ≫= tp_category |}.

(** The numbers of the pages of a listing: [1 .. pages]. *)
Definition page_numbers (pages : Z) : list positive :=
  Pos.of_nat <$> seq 1 (Z.to_nat pages).

(** [b] does not fall due before [a]. *)
Definition due_day_leq {num} (a b : RecurringBill num) : Prop :=
  dueDay a <= dueDay b.

End Pages.

(* ===================================================================== *)
(** ** Deleting a pot: the edge function [pot-delete] and its caller *)
(* ===================================================================== *)

Module Edge.
Import Db.

(** A [Response]: the status and the JSON body
    [{ success, error?, message? }]. *)
Record Response := mkResponse {
  status : Z;
  body_success : bool;
  body_error : option string;
  body_message : option string
}.

(** What [supabase.rpc] resolves to: [{ data, error }]. *)
Inductive rpc_result :=
| rpc_error (message : string)
| rpc_data (data : jsonb).

(** What the database makes of the [Authorization] header of a request:
    it refuses the request, or runs it in a role, with [auth.uid()] the
    user of the token or NULL. *)
Inductive credentials :=
| refused (message : string)
| role (auth_uid : option uuid).

(** A promise settles: it resolves or it throws. *)
Inductive settled (A : Type) :=
| resolved (value : A)
| thrown.
Arguments resolved {A} value.
Arguments thrown {A}.

Section PotDelete.

(** Supplied by the platform: the verification of the token, the reading
    of a [uuid] argument and the message for one that cannot be read. *)
Variable authenticate : string → credentials.
Variable uuid_of : string → option uuid.
Variable invalid_uuid : string.

(** [supabase.rpc('delete_pot', { pot_id: potId })] from a client that
    sends [authHeader]. *)
Definition rpc_delete_pot (authHeader potId : string) (now : timestamptz)
    (st : store) : rpc_result * store :=
  match authenticate authHeader with
  | refused message => (rpc_error message, st)
  | role auth_uid =>
    match uuid_of potId with
    | None => (rpc_error invalid_uuid, st)
    | Some pot_id =>
      let '(data, st') := delete_pot auth_uid now pot_id st in
      (rpc_data data, st')
    end
  end.

(** The handler of [pot-delete], for a request that is not a CORS
    preflight: [authHeader] is the [Authorization] header, [potId] and
    [id] the members of that name of the JSON body (absent from a body
    that is not JSON).  The calls it makes are taken to settle without an
    exception, so that its [catch] branch (status 500) is not entered. *)
Definition pot_delete (authHeader : option string)
    (body_potId body_id : option string) (now : timestamptz) (st : store)
    : Response * store :=
  match Api.truthy authHeader with
  | None =>
    ({| status := 401; body_success := false;
        body_error := Some "Missing authorization header";
        body_message := None |}, st)
  | Some authHeader =>
    let potId :=
      match body_potId with
      | Some potId => Some potId
      | None => body_id
      end in
    match Api.truthy potId with
    | None =>
      ({| status := 400; body_success := false;
          body_error := Some "Missing pot ID"; body_message := None |}, st)
    | Some potId =>
      match rpc_delete_pot authHeader potId now st with
      | (rpc_error message, st') =>
        ({| status := 400; body_success := false;
            body_error := Some message; body_message := None |}, st')
      | (rpc_data (error message), st') =>
        ({| status := 400; body_success := false;
            body_error := Some message; body_message := None |}, st')
      | (rpc_data _, st') =>
        ({| status := 200; body_success := true; body_error := None;
            body_message := Some "Pot deleted and money returned to balance" |},
         st')
      end
    end
  end.

(** [invokeEdgeFunction(name, body)]: [supabase.functions.invoke] gives an
    error for a response whose status is not 2xx. *)
Definition invokeEdgeFunction (response : Response) : settled Response :=
  if (200 <=? status response) && (status response <? 300) then
    match body_error response with
    | Some _ => thrown
    | None => resolved response
    end
  else thrown.

(** [deletePot(id)], called with the header [authHeader] that the client
    attaches to the request. *)
Definition deletePot (authHeader : string) (id : string) (now : timestamptz)
    (st : store) : settled (bool * string) * store :=
  let '(response, st') :=
    pot_delete (Some authHeader) (Some id) None now st in
  match invokeEdgeFunction response with
  | thrown => (thrown, st')
  | resolved result =>
    if negb (body_success result) then (thrown, st')
    else (resolved (true, "Pot deleted and money returned to balance"), st')
  end.

End PotDelete.

End Edge.

(* ===================================================================== *)
(** ** The client: loading the user with the profile ([AuthContext]) *)
(* ===================================================================== *)

Module Auth.
Import Db.

(** The user that [supabase.auth.getUser()] returns: what
    [fetchUserWithProfile] reads of it. *)
Record AuthUser := mkAuthUser {
  auth_id : uuid;
  auth_email : option string;
  user_metadata_full_name : option string;
  user_metadata_avatar_url : option string;
  app_metadata_provider : option string;
  email_confirmed_at : option string
}.

Inductive AuthProvider := google | local.

Record User := mkUser {
  id : uuid;
  email : string;
  fullName : string;
  balance : numeric;
  avatarUrl : option string;
  verified : bool;
  authProvider : AuthProvider;
  createdAt : timestamptz;
  updatedAt : timestamptz
}.

(** [s.split('@')[0]] *)
Fixpoint before_at (s : string) : string :=
  match s with
  | EmptyString => EmptyString
  | String c s' =>
    (* 64 is the code of the at sign *)
    if Ascii.eqb c (Ascii.ascii_of_nat 64) then EmptyString
    else String c (before_at s')
  end.

(** How a request of the client to the database ends.  [answered]: the
    statement has run and its result has arrived.  [refused]: the request
    has failed and the statement has had no effect (no connection, a token
    that has expired, an error of the server).  [lost]: the statement has
    run and its result has not arrived.  In the last two cases the client
    holds [{ data: null, error }]. *)
Inductive outcome := answered | refused | lost.

(** [SELECT * FROM profiles WHERE id = userId] as [.single()] returns it:
    the row, or no row and an error.  Policy "Users can view own profile":
    [FOR SELECT USING (auth.uid() = id)]. *)
Definition select_profile (auth_uid userId : uuid) (st : store)
    : option profile :=
  if decide (auth_uid = userId) then profiles st !! userId else None.

(** [upsert({ id, full_name, avatar_url, balance }, { onConflict: 'id' })]:
    [INSERT INTO profiles (id, full_name, avatar_url, balance) VALUES ...
     ON CONFLICT (id) DO UPDATE SET] the same columns, [RETURNING *].  A
    new row takes [created_at] and [updated_at] from their [DEFAULT now()];
    a row that exists keeps them.  Policies "Users can insert own profile"
    [FOR INSERT WITH CHECK (auth.uid() = id)] and "Users can update own
    profile" [FOR UPDATE USING (auth.uid() = id)]: the statement fails for
    another user's id. *)
Definition upsert_profile (auth_uid userId : uuid) (fullName : string)
    (avatarUrl : option string) (balance : numeric) (now : timestamptz)
    (st : store) : option (profile * store) :=
  if decide (auth_uid = userId) then
    let row :=
      match profiles st !! userId with
      | Some existing =>
        {| full_name := fullName; Db.balance := balance;
           avatar_url := avatarUrl;
           profile_created_at := profile_created_at existing;
           profile_updated_at := profile_updated_at existing |}
      | None =>
        {| full_name := fullName; Db.balance := balance;
           avatar_url := avatarUrl;
           profile_created_at := now; profile_updated_at := now |}
      end in
    Some (row,
          {| profiles := <[userId := row]> (profiles st);
             transactions := transactions st;
             pots := pots st |})
  else None.

(** [fetchUserWithProfile(userId)], the requests being made for the user
    [authUser] of the session, so that [auth.uid()] is [authUser.id];
    [select] and [upsert] say how the two requests to [profiles] end. *)
Definition fetchUserWithProfile (authUser : option AuthUser) (userId : uuid)
    (select upsert : outcome) (now : timestamptz) (st : store)
    : option User * store :=
  match authUser with
  | None => (None, st)
  | Some user =>
    (* [{ data: profile, error }] *)
    let profile :=
      match select with
      | answered => select_profile (auth_id user) userId st
      | refused | lost => None
      end in
    let '(profile, st') :=
      match profile with
      | Some profile => (Some profile, st)
      | None =>
        (* [error || !profile]: self-heal missing profile rows *)
        let fullName :=
          match user_metadata_full_name user with
          | Some n => n
          | None =>
            match auth_email user with
            | Some e => before_at e
            | None => "User"%string
            end
          end in
        let avatarUrl := user_metadata_avatar_url user in
        (* [{ data: inserted, error: insertError }] *)
        match upsert,
              upsert_profile (auth_id user) userId fullName avatarUrl 0 now st
        with
        | answered, Some (inserted, st') => (Some inserted, st')
        | lost, Some (_, st') => (None, st')
        | _, _ => (None, st)
        end
      end in
    match profile with
    | None => (None, st')
    | Some profile =>
      let authProvider :=
        match app_metadata_provider user with
        | Some provider =>
          if String.eqb provider "google" then google else local
        | None => local
        end in
      (Some {| id := userId;
               email := default EmptyString (auth_email user);
               fullName := full_name profile;
               balance := Db.balance profile;
               avatarUrl := avatar_url profile;
               verified :=
                 match Api.truthy (email_confirmed_at user) with
                 | Some _ => true
                 | None => false
                 end;
               authProvider := authProvider;
               createdAt := profile_created_at profile;
               updatedAt := profile_updated_at profile |},
       st')
    end
  end.

End Auth.

(* ===================================================================== *)
(** ** A household, used to exercise the statements on the read functions *)
(* ===================================================================== *)

Module ReportScenario.
Import Db Queries.

Definition on (m d : Z) : timestamptz :=
  {| ts_year := 2024; ts_month := m; ts_day := d; ts_usec := 0 |}.

Definition expense (name : string) (c : category) (d : timestamptz)
    (a : numeric) (r : bool) : transaction :=
  {| tx_user_id := Scenario.alice;
     tx_avatar := "/assets/images/avatars/default.jpg";
     tx_name := name; tx_category := c; tx_date := d; tx_amount := a;
     tx_recurring := r; tx_created_at := d; tx_updated_at := d |}.

(** What Alice has recorded by 10 February 2024: her salary, three pots,
    one with 40 in it, four purchases of groceries, the rent of January
    and of February and a gym subscription last paid in January. *)
Definition requests : list request :=
  [ (Some Scenario.alice, CreateTransaction 1%N Scenario.salary);
    (Some Scenario.alice, CreatePot 2%N "Holiday" 500 "green");
    (Some Scenario.alice, CreatePot 5%N "Bike" 300 "blue");
    (Some Scenario.alice, CreatePot 6%N "Gift" 0 "red");
    (Some Scenario.alice, DepositToPot 2%N (Some 40));
    (Some Scenario.alice,
     CreateTransaction 11%N (expense "Market" Groceries (on 2 2) (-20) false));
    (Some Scenario.alice,
     CreateTransaction 12%N (expense "Market" Groceries (on 2 5) (-30) false));
    (Some Scenario.alice,
     CreateTransaction 13%N (expense "Bakery" Groceries (on 1 20) (-15) false));
    (Some Scenario.alice,
     CreateTransaction 14%N (expense "Market" Groceries (on 2 8) (-10) false));
    (Some Scenario.alice,
     CreateTransaction 15%N (expense "Rent" Bills (on 1 28) (-30) true));
    (Some Scenario.alice,
     CreateTransaction 16%N (expense "Rent" Bills (on 2 3) (-30) true));
    (Some Scenario.alice,
     CreateTransaction 17%N (expense "Gym" PersonalCare (on 1 12) (-8) true)) ].

Definition household : store :=
  replay Scenario.now0 requests Scenario.opened.

(** Alice's budget for groceries; a budget of Bob's. *)
Definition plans : gmap uuid budget :=
  {[ 21%N := {| budget_user_id := Scenario.alice;
                budget_category := Groceries; budget_maximum := 50;
                budget_theme := "green"; budget_created_at := on 1 1;
                budget_updated_at := on 1 1 |};
     22%N := {| budget_user_id := Scenario.bob;
                budget_category := Bills; budget_maximum := 100;
                budget_theme := "green"; budget_created_at := on 1 1;
                budget_updated_at := on 1 1 |} ]}.

(** A stand-in for the percentage that the database computes. *)
Definition percentage_of (total target : numeric) : numeric :=
  total * 100 / target.

(** A stand-in for the platform of the edge function: the token names
    the user, and the ids of Alice's pots are read as numerals. *)
Definition authenticate (authHeader : string) : Edge.credentials :=
  if String.eqb authHeader "Bearer alice" then Edge.role (Some Scenario.alice)
  else if String.eqb authHeader "Bearer bob" then Edge.role (Some Scenario.bob)
  else if String.eqb authHeader "Bearer anon" then Edge.role None
  else Edge.refused "invalid JWT".

Definition uuid_of (s : string) : option uuid :=
  if String.eqb s "2" then Some 2%N
  else if String.eqb s "5" then Some 5%N
  else if String.eqb s "6" then Some 6%N
  else None.

(** Alice and Bob, as the authentication service knows them. *)
Definition alice : Auth.AuthUser :=
  {| Auth.auth_id := Scenario.alice;
     Auth.auth_email := Some "alice@example.org"%string;
     Auth.user_metadata_full_name := Some "Alice"%string;
     Auth.user_metadata_avatar_url := None;
     Auth.app_metadata_provider := None;
     Auth.email_confirmed_at := Some "2024-01-01T00:00:00Z"%string |}.

Definition bob : Auth.AuthUser :=
  {| Auth.auth_id := Scenario.bob;
     Auth.auth_email := Some "bob@example.org"%string;
     Auth.user_metadata_full_name := None;
     Auth.user_metadata_avatar_url := None;
     Auth.app_metadata_provider := Some "google"%string;
     Auth.email_confirmed_at := Some "2024-01-01T00:00:00Z"%string |}.

End ReportScenario.

(* ===================================================================== *)
(** ** Properties of the pot transfer functions *)
(* ===================================================================== *)

Module PotTransfer.
Import Db.

Lemma lookup_update_profile_balance uid delta now (ps : gmap uuid profile) u :
  update_profile_balance uid delta now ps !! u
  = if decide (uid = u) then profile_add_balance delta now <$> ps !! u
    else ps !! u.
Proof.
  unfold update_profile_balance. rewrite lookup_alter.
  by case_decide; subst.
Qed.

Lemma lookup_update_pot_total pot_id delta now (ps : gmap uuid pot) i :
  update_pot_total pot_id delta now ps !! i
  = if decide (pot_id = i) then pot_add_total delta now <$> ps !! i
    else ps !! i.
Proof.
  unfold update_pot_total. rewrite lookup_alter.
  by case_decide; subst.
Qed.

Lemma select_pot_Some pot_id uid (ps : gmap uuid pot) p :
  select_pot pot_id uid ps = Some p ↔ ps !! pot_id = Some p ∧ pot_user_id p = uid.
Proof.
  unfold select_pot. destruct (ps !! pot_id) as [q|] eqn:E.
  - case_decide; split; intros HH.
    + by inversion HH; subst.
    + by destruct HH as [[= ->] _].
    + discriminate.
    + destruct HH as [[= ->] ?]. contradiction.
  - split; [discriminate | intros [? _]; discriminate].
Qed.

(** Case analysis of a transfer that reports success. *)
Lemma pot_transfer_success k auth_uid now pot_id amount st v_pot newBalance st' :
  pot_transfer k auth_uid now pot_id amount st
  = (success_transfer v_pot newBalance, st') →
  ∃ uid a p,
    auth_uid = Some uid ∧ amount = Some a ∧ 0 < a
    ∧ select_pot pot_id uid (pots st) = Some p
    ∧ (k = Deposit → ∃ prof, profiles st !! uid = Some prof ∧ a <= balance prof)
    ∧ (k = Withdraw → a <= pot_total p)
    ∧ st' = {| profiles :=
                 update_profile_balance uid (- pot_change k a) now (profiles st);
               transactions := transactions st;
               pots := update_pot_total pot_id (pot_change k a) now (pots st) |}
    ∧ v_pot = pots st' !! pot_id
    ∧ newBalance = balance <$> profiles st' !! uid.
Proof.
  intros Hrun.
  destruct auth_uid as [uid|]; [|by destruct k].
  destruct amount as [a|]; [|by destruct k].
  destruct (a <=? 0) eqn:Ha;
    [by destruct k; simpl in Hrun; rewrite Ha in Hrun|].
  apply Z.leb_gt in Ha.
  destruct (select_pot pot_id uid (pots st)) as [p|] eqn:Hp;
    [|by destruct k; simpl in Hrun;
         rewrite (proj2 (Z.leb_gt a 0) Ha), Hp in Hrun].
  exists uid, a, p. destruct k; simpl in Hrun;
    rewrite (proj2 (Z.leb_gt a 0) Ha), Hp in Hrun.
  - destruct (profiles st !! uid) as [prof|] eqn:Hprof; [|done].
    destruct (balance prof <? a) eqn:Hb; [done|].
    apply Z.ltb_ge in Hb. inversion Hrun; subst; clear Hrun. simpl.
    repeat split; try done. intros _. by exists prof.
  - destruct (pot_total p <? a) eqn:Hb; [done|].
    apply Z.ltb_ge in Hb. inversion Hrun; subst; clear Hrun. simpl.
    rewrite Z.opp_involutive. repeat split; done.
Qed.

(** C1: a deposit or withdrawal that succeeds moves exactly [amount]
    between the balance of the caller's account and the total of the pot:
    the pot's total changes by [amount] (up on a deposit, down on a
    withdrawal), the account's balance by the opposite, so that
    [pot.total + account.balance] is the same before and after; every other
    pot row, every other account row and the transactions are untouched. *)
Theorem pot_transfer_conserves k auth_uid now pot_id amount st
    v_pot newBalance st' :
  pot_transfer k auth_uid now pot_id amount st
  = (success_transfer v_pot newBalance, st') →
  ∃ uid a p p',
    auth_uid = Some uid ∧ amount = Some a ∧ 0 < a
    ∧ pots st !! pot_id = Some p ∧ pot_user_id p = uid
    ∧ pots st' !! pot_id = Some p'
    ∧ pot_total p' = pot_total p + pot_change k a
    ∧ v_pot = Some p'
    ∧ (∀ i, i ≠ pot_id → pots st' !! i = pots st !! i)
    ∧ (∀ u, u ≠ uid → profiles st' !! u = profiles st !! u)
    ∧ transactions st' = transactions st
    ∧ ∀ prof, profiles st !! uid = Some prof →
        ∃ prof',
          profiles st' !! uid = Some prof'
          ∧ balance prof' = balance prof - pot_change k a
          ∧ newBalance = Some (balance prof')
          ∧ pot_total p' + balance prof' = pot_total p + balance prof.
Proof.
  intros Hrun.
  destruct (pot_transfer_success _ _ _ _ _ _ _ _ _ Hrun)
    as (uid & a & p & -> & -> & Ha & Hp & _ & _ & -> & -> & ->).
  apply select_pot_Some in Hp as [Hp Hown]. simpl.
  exists uid, a, p, (pot_add_total (pot_change k a) now p).
  rewrite lookup_update_pot_total, decide_True, Hp by done. simpl.
  repeat split; try done.
  - intros i Hi. by rewrite lookup_update_pot_total, decide_False.
  - intros u Hu. by rewrite lookup_update_profile_balance, decide_False.
  - intros prof Hprof.
    exists (profile_add_balance (- pot_change k a) now prof).
    rewrite lookup_update_profile_balance, decide_True, Hprof by done.
    simpl. repeat split; lia.
Qed.

Lemma pot_transfer_conserves_witness :
  ∃ r st',
    pot_transfer Deposit (Some Scenario.alice) Scenario.now0 2%N (Some 40)
                 Scenario.funded = (r, st')
    ∧ ∃ p p' prof prof',
        pots Scenario.funded !! 2%N = Some p
        ∧ pots st' !! 2%N = Some p'
        ∧ profiles Scenario.funded !! Scenario.alice = Some prof
        ∧ profiles st' !! Scenario.alice = Some prof'
        ∧ pot_total p' + balance prof' = pot_total p + balance prof.
Proof.
  eexists _, _. split; [vm_compute; reflexivity|].
  destruct (pot_transfer_conserves Deposit (Some Scenario.alice) Scenario.now0
              2%N (Some 40) Scenario.funded _ _ _ eq_refl)
    as (uid & a & p & p' & Hu & _ & _ & Hp & _ & Hp' & _ & _ & _ & _ & _ & Hprof).
  injection Hu as <-.
  edestruct Hprof as (prof' & Hprof' & _ & _ & Hsum);
    [vm_compute; reflexivity|].
  eexists p, p', _, prof'.
  split; [exact Hp|]. split; [exact Hp'|]. split; [reflexivity|].
  split; [exact Hprof'|exact Hsum].
Defined.

(** The result of a transfer, for an authenticated caller. *)
Lemma pot_deposit_result uid now pot_id amount st :
  fst (pot_deposit (Some uid) now pot_id amount st)
  = match amount with
    | None => error "Amount must be a positive number"
    | Some a =>
      if a <=? 0 then error "Amount must be a positive number"
      else match select_pot pot_id uid (pots st), profiles st !! uid with
           | None, _ => error "Pot not found"
           | Some _, None => error "Profile not found"
           | Some _, Some prof =>
             if balance prof <? a then error "Insufficient balance"
             else success_transfer
                    (update_pot_total pot_id a now (pots st) !! pot_id)
                    (balance <$> update_profile_balance uid (- a) now
                                   (profiles st) !! uid)
           end
    end.
Proof. unfold pot_deposit. by repeat case_match. Qed.

Lemma pot_withdraw_result uid now pot_id amount st :
  fst (pot_withdraw (Some uid) now pot_id amount st)
  = match amount with
    | None => error "Amount must be a positive number"
    | Some a =>
      if a <=? 0 then error "Amount must be a positive number"
      else match select_pot pot_id uid (pots st) with
           | None => error "Pot not found"
           | Some p =>
             if pot_total p <? a then error "Insufficient pot balance"
             else success_transfer
                    (update_pot_total pot_id (- a) now (pots st) !! pot_id)
                    (balance <$> update_profile_balance uid a now
                                   (profiles st) !! uid)
           end
    end.
Proof. unfold pot_withdraw. by repeat case_match. Qed.

(** C3: when [pot_deposit], [pot_withdraw] or [delete_pot] returns an
    error, the store it leaves is the store it found: balances, pot totals
    and the set of pot rows are as before. *)
Theorem failed_pot_operation_changes_nothing auth_uid now pot_id amount st
    message st' :
  pot_deposit auth_uid now pot_id amount st = (error message, st')
  ∨ pot_withdraw auth_uid now pot_id amount st = (error message, st')
  ∨ delete_pot auth_uid now pot_id st = (error message, st') →
  st' = st.
Proof.
  unfold pot_deposit, pot_withdraw, delete_pot.
  intros [Hrun | [Hrun | Hrun]];
    repeat case_match; by simplify_eq.
Qed.

Lemma failed_pot_operation_changes_nothing_witness :
  pot_deposit (Some Scenario.alice) Scenario.now0 2%N (Some 500) Scenario.funded
  = (error "Insufficient balance", Scenario.funded).
Proof.
  assert (Hrun : ∃ st', pot_deposit (Some Scenario.alice) Scenario.now0 2%N
                          (Some 500) Scenario.funded
                        = (error "Insufficient balance", st'))
    by (eexists; vm_compute; reflexivity).
  destruct Hrun as [st' Hrun].
  rewrite Hrun. f_equal.
  exact (failed_pot_operation_changes_nothing (Some Scenario.alice)
           Scenario.now0 2%N (Some 500) Scenario.funded
           "Insufficient balance" st' (or_introl Hrun)).
Defined.

(** A deposit into a pot of a user who has no profile row is refused with
    "Profile not found": the amount is positive, the pot is found, and the
    call neither succeeds nor reports an insufficient balance. *)
Lemma pot_deposit_without_profile :
  0 < 50
  ∧ is_Some (select_pot 3%N Scenario.bob (pots Scenario.funded))
  ∧ pot_deposit (Some Scenario.bob) Scenario.now0 3%N (Some 50) Scenario.funded
    = (error "Profile not found", Scenario.funded)
  ∧ fst (pot_deposit (Some Scenario.bob) Scenario.now0 3%N (Some 50)
                     Scenario.funded) ≠ error "Insufficient balance"
  ∧ ∀ v b, fst (pot_deposit (Some Scenario.bob) Scenario.now0 3%N (Some 50)
                            Scenario.funded) ≠ success_transfer v b.
Proof.
  split; [lia|]. split; [by eexists; vm_compute|].
  assert (Hrun : pot_deposit (Some Scenario.bob) Scenario.now0 3%N (Some 50)
                   Scenario.funded
                 = (error "Profile not found", Scenario.funded))
    by (vm_compute; reflexivity).
  rewrite Hrun. simpl. by repeat split.
Qed.

Local Ltac outcome :=
  repeat match goal with
         | |- _ ∧ _ => split
         | |- _ ↔ _ => split
         | |- ∀ _, _ => intros ?
         | H : _ ∨ _ |- _ => destruct H
         | H : ∃ _, _ |- _ => destruct H
         | H : _ ∧ _ |- _ => destruct H
         end;
  simplify_eq; eauto; try lia.

(** C2 (amended): for an authenticated caller, a transfer fails with
    "Amount must be a positive number" exactly when the amount is NULL or
    [<= 0]; for a positive amount it fails with "Pot not found" exactly
    when no pot with this id belongs to the caller; for a pot that is
    found, a withdrawal fails with "Insufficient pot balance" exactly when
    the pot's total is below the amount and succeeds otherwise, while a
    deposit fails with "Profile not found" exactly when the caller has no
    profile row and, for a caller who has one, fails with "Insufficient
    balance" exactly when the balance is below the amount and succeeds
    otherwise. *)
Theorem pot_transfer_outcome uid now pot_id amount st :
  let deposit := fst (pot_deposit (Some uid) now pot_id amount st) in
  let withdraw := fst (pot_withdraw (Some uid) now pot_id amount st) in
  let invalid := amount = None ∨ ∃ a, amount = Some a ∧ a <= 0 in
  (deposit = error "Amount must be a positive number" ↔ invalid)
  ∧ (withdraw = error "Amount must be a positive number" ↔ invalid)
  ∧ ∀ a, amount = Some a → 0 < a →
      (deposit = error "Pot not found"
       ↔ select_pot pot_id uid (pots st) = None)
      ∧ (withdraw = error "Pot not found"
         ↔ select_pot pot_id uid (pots st) = None)
      ∧ ∀ p, select_pot pot_id uid (pots st) = Some p →
          (withdraw = error "Insufficient pot balance" ↔ pot_total p < a)
          ∧ (a <= pot_total p → ∃ v b, withdraw = success_transfer v b)
          ∧ (deposit = error "Profile not found"
             ↔ profiles st !! uid = None)
          ∧ ∀ prof, profiles st !! uid = Some prof →
              (deposit = error "Insufficient balance" ↔ balance prof < a)
              ∧ (a <= balance prof → ∃ v b, deposit = success_transfer v b).
Proof.
  intros deposit withdraw invalid. subst deposit withdraw invalid.
  rewrite pot_deposit_result, pot_withdraw_result.
  destruct amount as [a|]; [|outcome].
  destruct (Z.leb_spec a 0) as [Ha|Ha]; [outcome|].
  destruct (select_pot pot_id uid (pots st)) as [p|];
    [|outcome].
  destruct (Z.ltb_spec (pot_total p) a);
    (destruct (profiles st !! uid) as [prof|];
     [destruct (Z.ltb_spec (balance prof) a)|]); outcome.
Qed.

Lemma pot_transfer_outcome_witness :
  fst (pot_deposit (Some Scenario.alice) Scenario.now0 2%N (Some 500)
                   Scenario.funded) = error "Insufficient balance"
  ∧ ∃ v b, fst (pot_withdraw (Some Scenario.alice) Scenario.now0 2%N (Some 40)
                             Scenario.saved) = success_transfer v b.
Proof.
  split.
  - destruct (pot_transfer_outcome Scenario.alice Scenario.now0 2%N (Some 500)
                Scenario.funded) as (_ & _ & Hpos).
    destruct (Hpos 500 eq_refl ltac:(lia)) as (_ & _ & Hfound).
    edestruct Hfound as (_ & _ & _ & Hprof); [vm_compute; reflexivity|].
    edestruct Hprof as [Hlow _]; [vm_compute; reflexivity|].
    apply Hlow. simpl. lia.
  - destruct (pot_transfer_outcome Scenario.alice Scenario.now0 2%N (Some 40)
                Scenario.saved) as (_ & _ & Hpos).
    destruct (Hpos 40 eq_refl ltac:(lia)) as (_ & _ & Hfound).
    edestruct Hfound as (_ & Hok & _); [vm_compute; reflexivity|].
    apply Hok. simpl. lia.
Defined.

(** Sums over the [pots] table when one row changes. *)
Lemma pots_sum_insert uid i p (ps : gmap uuid pot) :
  ps !! i = None →
  pots_sum uid (<[i := p]> ps) = pots_sum uid ps + pot_share uid p.
Proof.
  intros Hi. unfold pots_sum.
  rewrite map_fold_insert_L; [| |done].
  - unfold pot_share. case_bool_decide; lia.
  - intros. repeat case_bool_decide; lia.
Qed.

Lemma pots_sum_delete uid i p (ps : gmap uuid pot) :
  ps !! i = Some p →
  pots_sum uid (delete i ps) = pots_sum uid ps - pot_share uid p.
Proof.
  intros Hi. rewrite <- (insert_delete_id ps i p Hi) at 2.
  rewrite pots_sum_insert by apply lookup_delete_eq. lia.
Qed.

Lemma pots_sum_replace uid i p q (ps : gmap uuid pot) :
  ps !! i = Some p →
  pots_sum uid (<[i := q]> ps)
  = pots_sum uid ps - pot_share uid p + pot_share uid q.
Proof.
  intros Hi. rewrite <- insert_delete_eq.
  rewrite pots_sum_insert by apply lookup_delete_eq.
  by rewrite (pots_sum_delete uid i p).
Qed.

Lemma update_pot_total_insert pot_id delta now p (ps : gmap uuid pot) :
  ps !! pot_id = Some p →
  update_pot_total pot_id delta now ps
  = <[pot_id := pot_add_total delta now p]> ps.
Proof.
  intros Hp. apply map_eq. intros i.
  rewrite lookup_update_pot_total, lookup_insert.
  case_decide; subst; by rewrite ?Hp.
Qed.

(** C6: [delete_pot] on a pot of the caller returns success and removes
    the pot row; the balance of the caller's account grows by exactly the
    pot's total [T] (by [T > 0], or not at all when [T = 0], in which case
    no profile row is written); the account's balance plus the totals of
    its pots is the same before and after. *)
Theorem delete_pot_returns_total uid now pot_id st p :
  select_pot pot_id uid (pots st) = Some p →
  0 <= pot_total p →
  ∃ st',
    delete_pot (Some uid) now pot_id st = (success, st')
    ∧ pots st' !! pot_id = None
    ∧ (∀ i, i ≠ pot_id → pots st' !! i = pots st !! i)
    ∧ transactions st' = transactions st
    ∧ (∀ u, u ≠ uid → profiles st' !! u = profiles st !! u)
    ∧ (pot_total p = 0 → profiles st' = profiles st)
    ∧ ∀ prof, profiles st !! uid = Some prof →
        ∃ prof',
          profiles st' !! uid = Some prof'
          ∧ balance prof' = balance prof + pot_total p
          ∧ balance prof' + pots_sum uid (pots st')
            = balance prof + pots_sum uid (pots st).
Proof.
  intros Hsel HT. unfold delete_pot. rewrite Hsel.
  apply select_pot_Some in Hsel as [Hp Hown].
  eexists. split; [reflexivity|]. simpl.
  split; [apply lookup_delete_eq|].
  split; [by intros i Hi; apply lookup_delete_ne|].
  split; [done|].
  split.
  { intros u Hu. case_match; [|done].
    by rewrite lookup_update_profile_balance, decide_False. }
  split.
  { intros H0. by rewrite H0. }
  intros prof Hprof.
  rewrite (pots_sum_delete uid pot_id p) by done.
  unfold pot_share. rewrite bool_decide_eq_true_2 by done.
  destruct (Z.ltb_spec 0 (pot_total p)).
  - rewrite lookup_update_profile_balance, decide_True, Hprof by done.
    eexists. split; [reflexivity|]. simpl. lia.
  - exists prof. split; [done|]. lia.
Qed.

Lemma delete_pot_returns_total_witness :
  ∃ st',
    delete_pot (Some Scenario.alice) Scenario.now0 2%N Scenario.saved
    = (success, st')
    ∧ pots st' !! 2%N = None
    ∧ balance <$> profiles Scenario.saved !! Scenario.alice = Some 60
    ∧ balance <$> profiles st' !! Scenario.alice = Some 100.
Proof.
  destruct (delete_pot_returns_total Scenario.alice Scenario.now0 2%N
              Scenario.saved
              {| pot_user_id := Scenario.alice; pot_name := "Holiday";
                 pot_target := 500; pot_total := 40; pot_theme := "green";
                 pot_created_at := Scenario.now0;
                 pot_updated_at := Scenario.now0 |})
    as (st' & Hrun & Hgone & _ & _ & _ & _ & Hprof);
    [vm_compute; reflexivity | simpl; lia |].
  exists st'. split; [exact Hrun|]. split; [exact Hgone|].
  split; [vm_compute; reflexivity|].
  edestruct Hprof as (prof' & -> & Hbal & _); [vm_compute; reflexivity|].
  simpl. rewrite Hbal. reflexivity.
Defined.

End PotTransfer.

(* ===================================================================== *)
(** ** Properties of the balance accrual *)
(* ===================================================================== *)

Module Accrual.
Import Db PotTransfer.

(** *** The window of the trigger and the calendar month *)

Lemma ts_leb_true a b :
  ts_leb a b = true
  ↔ ts_year a < ts_year b
    ∨ ts_year a = ts_year b
      ∧ (ts_month a < ts_month b
         ∨ ts_month a = ts_month b
           ∧ (ts_day a < ts_day b
              ∨ ts_day a = ts_day b ∧ ts_usec a <= ts_usec b)).
Proof.
  unfold ts_leb, ts_compare.
  destruct (Z.compare_spec (ts_year a) (ts_year b));
    destruct (Z.compare_spec (ts_month a) (ts_month b));
    destruct (Z.compare_spec (ts_day a) (ts_day b));
    destruct (Z.compare_spec (ts_usec a) (ts_usec b));
    split; intros; try discriminate; try reflexivity; lia.
Qed.

Lemma days_in_month_bounds y m : 28 <= Calendar.days_in_month y m <= 31.
Proof. unfold Calendar.days_in_month. repeat case_match; lia. Qed.

(** The window ends at 23:59:59.000000 of the last day of the month. *)
Lemma v_month_end_eq now :
  1 <= ts_month now <= 12 →
  v_month_end now
  = {| ts_year := ts_year now; ts_month := ts_month now;
       ts_day := Calendar.days_in_month (ts_year now) (ts_month now);
       ts_usec := usec_per_day - usec_per_second |}.
Proof.
  intros Hm. unfold v_month_end, v_month_start.
  set (y := if ts_month now =? 12 then ts_year now + 1 else ts_year now).
  set (m := if ts_month now =? 12 then 1 else ts_month now + 1).
  assert (Hplus : plus_one_month (date_trunc_month now)
                  = {| ts_year := y; ts_month := m; ts_day := 1;
                       ts_usec := 0 |}).
  { unfold plus_one_month, date_trunc_month. simpl. fold y m.
    rewrite Z.min_l; [done|]. pose proof (days_in_month_bounds y m). lia. }
  rewrite Hplus. unfold minus_one_second, previous_day. simpl.
  subst y m.
  destruct (Z.eqb_spec (ts_month now) 12) as [Heq|Hne]; simpl.
  - rewrite Heq. f_equal; lia.
  - destruct (Z.ltb_spec 1 (ts_month now + 1)); [|lia]. simpl.
    f_equal; [lia|]. f_equal. lia.
Qed.

(** Within the month, the window leaves out exactly the last second. *)
Lemma in_current_month_spec now d :
  valid_timestamptz now → valid_timestamptz d →
  in_current_month now d = true
  ↔ in_statement_period now d = true ∧ ¬ in_last_second d.
Proof.
  intros (Hm & _ & _) (_ & Hday & Husec).
  unfold in_current_month, ts_geb, in_statement_period, in_last_second.
  rewrite v_month_end_eq by done.
  rewrite !andb_true_iff, !ts_leb_true, !Z.eqb_eq. simpl.
  unfold usec_per_day, usec_per_second in *.
  split.
  - intros [Hstart Hend].
    assert (ts_year d = ts_year now ∧ ts_month d = ts_month now)
      as [Hy Hmo] by lia.
    rewrite Hy, Hmo. split; [done|]. lia.
  - intros [[Hy Hmo] Hlast]. rewrite Hy, Hmo in *. lia.
Qed.

Lemma in_current_month_statement now d :
  valid_timestamptz now → before_last_second d →
  in_current_month now d = in_statement_period now d.
Proof.
  intros Hnow [Hd Hlast].
  pose proof (in_current_month_spec now d Hnow Hd) as Hspec.
  destruct (in_current_month now d), (in_statement_period now d);
    try done.
  - by destruct (proj1 Hspec eq_refl).
  - by pose proof (proj2 Hspec (conj eq_refl Hlast)).
Qed.

Lemma sum_where_insert selected id row (txs : gmap uuid transaction) :
  txs !! id = None →
  sum_where selected (<[id := row]> txs)
  = sum_where selected txs + (if selected row then tx_amount row else 0).
Proof.
  intros Hid. unfold sum_where.
  rewrite map_fold_insert_L; [| |done].
  - case_match; lia.
  - intros. repeat case_match; lia.
Qed.

Lemma sum_where_ext selected selected' (txs : gmap uuid transaction) :
  map_Forall (λ _ t, selected t = selected' t) txs →
  sum_where selected txs = sum_where selected' txs.
Proof.
  induction txs as [|id row txs Hid IH] using map_ind; [done|].
  intros [Hrow Htxs]%map_Forall_insert; [|done].
  rewrite !sum_where_insert by done. rewrite Hrow, IH by done. done.
Qed.

Lemma period_sum_insert now uid id row (txs : gmap uuid transaction) :
  txs !! id = None →
  period_sum now uid (<[id := row]> txs)
  = period_sum now uid txs + contribution now uid row.
Proof. apply sum_where_insert. Qed.

Lemma period_sum_delete now uid id row (txs : gmap uuid transaction) :
  txs !! id = Some row →
  period_sum now uid (delete id txs)
  = period_sum now uid txs - contribution now uid row.
Proof.
  intros Hid. rewrite <- (insert_delete_id txs id row Hid) at 2.
  rewrite period_sum_insert by apply lookup_delete_eq. lia.
Qed.

Lemma period_sum_replace now uid id OLD NEW (txs : gmap uuid transaction) :
  txs !! id = Some OLD →
  period_sum now uid (<[id := NEW]> txs)
  = period_sum now uid txs - contribution now uid OLD
    + contribution now uid NEW.
Proof.
  intros Hid. rewrite <- insert_delete_eq.
  rewrite period_sum_insert by apply lookup_delete_eq.
  by rewrite (period_sum_delete now uid id OLD).
Qed.

Lemma balance_update_profile u delta now (ps : gmap uuid profile) uid :
  balance <$> update_profile_balance u delta now ps !! uid
  = (λ b, b + (if decide (u = uid) then delta else 0))
      <$> (balance <$> ps !! uid).
Proof.
  rewrite lookup_update_profile_balance.
  case_decide; destruct (ps !! uid); simpl; f_equal; lia.
Qed.

(** One firing of the trigger moves every balance by the change of the
    account's period sum. *)
Lemma trigger_balance now ev (ps : gmap uuid profile) uid :
  balance <$> update_balance_on_transaction now ev ps !! uid
  = (λ b, b + event_change now uid ev) <$> (balance <$> ps !! uid).
Proof.
  destruct ev as [NEW | OLD NEW | OLD]; simpl; unfold contribution;
    repeat (destruct (in_current_month now (tx_date _)); simpl);
    rewrite ?balance_update_profile;
    repeat case_decide; repeat case_bool_decide; try done;
    destruct (balance <$> ps !! uid); simpl; f_equal; lia.
Qed.

Lemma fmap_add_zero (x : option numeric) c :
  c = 0 → x = (λ b, b + c) <$> x.
Proof. intros ->. destruct x; simpl; f_equal; lia. Qed.

(** A write to [transactions] leaves the pots alone and moves every
    balance by the change of the account's period sum. *)
Lemma transaction_operation_effect now auth_uid o st uid :
  is_transaction_operation o = true →
  pots (execute now (auth_uid, o) st) = pots st
  ∧ balance_of uid (execute now (auth_uid, o) st)
    = (λ b, b + (period_sum now uid (transactions (execute now (auth_uid, o) st))
                 - period_sum now uid (transactions st)))
        <$> balance_of uid st.
Proof.
  intros Ho. destruct o as [id row | id u | id | | | | |]; try discriminate;
    simpl.
  - unfold insert_transaction. case_decide; [|split; [done|apply fmap_add_zero; lia]].
    destruct (transactions st !! id) eqn:Hid;
      [split; [done|apply fmap_add_zero; lia]|].
    split; [done|]. unfold balance_of. cbn [profiles transactions pots].
    rewrite trigger_balance, period_sum_insert by done. simpl.
    destruct (balance <$> profiles st !! uid); simpl; f_equal; lia.
  - unfold update_transaction.
    destruct (transactions st !! id) as [OLD|] eqn:Hid;
      [|split; [done|apply fmap_add_zero; lia]].
    case_decide; [|split; [done|apply fmap_add_zero; lia]].
    split; [done|]. unfold balance_of. cbn [profiles transactions pots].
    rewrite trigger_balance, (period_sum_replace now uid id OLD) by done.
    simpl.
    destruct (balance <$> profiles st !! uid); simpl; f_equal; lia.
  - unfold delete_transaction.
    destruct (transactions st !! id) as [OLD|] eqn:Hid;
      [|split; [done|apply fmap_add_zero; lia]].
    case_decide; [|split; [done|apply fmap_add_zero; lia]].
    split; [done|]. unfold balance_of. cbn [profiles transactions pots].
    rewrite trigger_balance, (period_sum_delete now uid id OLD) by done.
    simpl.
    destruct (balance <$> profiles st !! uid); simpl; f_equal; lia.
Qed.

Lemma balance_consistent_alt now st :
  balance_consistent now st
  ↔ ∀ uid b, balance_of uid st = Some b →
             b = period_sum now uid (transactions st).
Proof.
  unfold balance_consistent, balance_of. split.
  - intros Hc uid b Hb. destruct (profiles st !! uid) as [prof|] eqn:Hp;
      [|done]. injection Hb as <-. by apply Hc.
  - intros Hc uid prof Hp. apply Hc. by rewrite Hp.
Qed.

Lemma transaction_operation_consistent now auth_uid o st :
  is_transaction_operation o = true →
  balance_consistent now st →
  balance_consistent now (execute now (auth_uid, o) st).
Proof.
  rewrite !balance_consistent_alt. intros Ho Hc uid b.
  destruct (transaction_operation_effect now auth_uid o st uid Ho)
    as [_ ->].
  destruct (balance_of uid st) as [b0|] eqn:Hb0; [|done].
  simpl. intros [= <-]. rewrite (Hc uid b0 Hb0). lia.
Qed.

Lemma new_accounts_consistent t0 now users :
  balance_consistent now (new_accounts t0 users).
Proof.
  intros uid prof. simpl. rewrite lookup_fmap.
  destruct (users !! uid); [|done]. intros [= <-]. simpl.
  unfold period_sum, sum_where. by rewrite map_fold_empty.
Qed.

(** Over any sequence of transaction inserts, updates and deletes, served
    with [now] fixed and starting from balances that agree with it, the
    balance that the trigger maintains is the sum over the trigger's own
    window. *)
Lemma balance_equals_period_sum now rs st :
  Forall (λ r : request, is_transaction_operation r.2 = true) rs →
  balance_consistent now st →
  balance_consistent now (replay now rs st).
Proof.
  intros Hrs. revert st.
  induction Hrs as [|[auth_uid o] rs Ho _ IH]; intros st Hc; [exact Hc|].
  simpl. apply IH. by apply transaction_operation_consistent.
Qed.

Lemma statement_sum_period_sum now uid (txs : gmap uuid transaction) :
  valid_timestamptz now →
  map_Forall (λ _ t, before_last_second (tx_date t)) txs →
  statement_sum now uid txs = period_sum now uid txs.
Proof.
  intros Hnow Htxs. apply sum_where_ext.
  intros id t Ht. simpl.
  by rewrite (in_current_month_statement now (tx_date t) Hnow (Htxs id t Ht)).
Qed.

(** So that it is the recomputation over the statement period as long as
    no transaction is dated within the last second of a month. *)
Lemma balance_equals_statement_sum now rs st uid prof :
  valid_timestamptz now →
  Forall (λ r : request, is_transaction_operation r.2 = true) rs →
  balance_consistent now st →
  map_Forall (λ _ t, before_last_second (tx_date t))
             (transactions (replay now rs st)) →
  profiles (replay now rs st) !! uid = Some prof →
  balance prof = statement_sum now uid (transactions (replay now rs st)).
Proof.
  intros Hnow Hrs Hc Hdates Hprof.
  rewrite statement_sum_period_sum by done.
  by apply (balance_equals_period_sum now rs st).
Qed.

Lemma balance_equals_statement_sum_example :
  balance_of Scenario.alice
             (replay Scenario.now0 Scenario.writes Scenario.opened) = Some 70
  ∧ statement_sum Scenario.now0 Scenario.alice
      (transactions (replay Scenario.now0 Scenario.writes Scenario.opened))
    = 70.
Proof. split; vm_compute; reflexivity. Qed.

(** C4: a transaction dated 29 February 2024 at 23:59:59.5, inserted in
    February 2024, falls within the current statement period, yet the
    trigger does not add its amount: the window it tests ends at
    23:59:59.000000.  The maintained balance is 0, the recomputation
    is 100. *)
Theorem last_second_not_accrued :
  let st :=
    replay Scenario.now0
      [ (Some Scenario.alice, CreateTransaction 5%N Scenario.late_income) ]
      Scenario.opened in
  transactions st !! 5%N = Some Scenario.late_income
  ∧ in_statement_period Scenario.now0 (tx_date Scenario.late_income) = true
  ∧ in_current_month Scenario.now0 (tx_date Scenario.late_income) = false
  ∧ balance_of Scenario.alice st = Some 0
  ∧ statement_sum Scenario.now0 Scenario.alice (transactions st) = 100.
Proof. repeat split; vm_compute; reflexivity. Qed.

(** After a deposit the balance no longer is the sum of the period: Alice,
    whose only transaction is 100 received on 1 February 2024, holds 60
    once she has put 40 in a pot. *)
Lemma balance_differs_after_deposit :
  let st :=
    replay Scenario.now0
      [ (Some Scenario.alice, CreateTransaction 1%N Scenario.salary);
        (Some Scenario.alice, CreatePot 2%N "Holiday" 500 "green");
        (Some Scenario.alice, DepositToPot 2%N (Some 40)) ]
      (new_accounts Scenario.now0 {[ Scenario.alice := "Alice" ]}) in
  balance_of Scenario.alice st = Some 60
  ∧ statement_sum Scenario.now0 Scenario.alice (transactions st) = 100.
Proof. split; vm_compute; reflexivity. Qed.

(** Nor does the balance follow the calendar: what Alice received in
    February is still her balance when March has begun. *)
Lemma balance_differs_next_month :
  let st :=
    replay Scenario.now0
      [ (Some Scenario.alice, CreateTransaction 1%N Scenario.salary) ]
      Scenario.opened in
  balance_of Scenario.alice st = Some 100
  ∧ statement_sum Scenario.march Scenario.alice (transactions st) = 0.
Proof. split; vm_compute; reflexivity. Qed.

Lemma funds_of_update_profile_pot u pot_id delta now st p uid :
  select_pot pot_id u (pots st) = Some p →
  funds_of uid
    {| profiles := update_profile_balance u (- delta) now (profiles st);
       transactions := transactions st;
       pots := update_pot_total pot_id delta now (pots st) |}
  = funds_of uid st.
Proof.
  intros [Hp Hown]%select_pot_Some.
  unfold funds_of, balance_of. cbn [profiles transactions pots].
  rewrite balance_update_profile, (update_pot_total_insert _ _ _ p) by done.
  rewrite (pots_sum_replace uid pot_id p) by done.
  unfold pot_share. simpl. rewrite Hown.
  case_decide; case_bool_decide; try done;
    destruct (balance <$> profiles st !! uid); simpl; f_equal; lia.
Qed.

Lemma nonnegative_update_pot pot_id delta now p (ps : gmap uuid pot) :
  ps !! pot_id = Some p →
  0 <= pot_total p + delta →
  map_Forall (λ _ q, 0 <= pot_total q) ps →
  map_Forall (λ _ q, 0 <= pot_total q) (update_pot_total pot_id delta now ps).
Proof.
  intros Hp Hd Hall. rewrite (update_pot_total_insert _ _ _ p) by done.
  by apply map_Forall_insert_2.
Qed.

(** A pot operation leaves the transactions alone, keeps every total
    non-negative and keeps, for every account, balance plus pots. *)
Lemma pot_operation_effect now auth_uid o st uid :
  is_transaction_operation o = false →
  pots_nonnegative st →
  transactions (execute now (auth_uid, o) st) = transactions st
  ∧ pots_nonnegative (execute now (auth_uid, o) st)
  ∧ funds_of uid (execute now (auth_uid, o) st) = funds_of uid st.
Proof.
  intros Ho Hnn.
  destruct o as [| | | id name target theme | id u | pot_id amount
                 | pot_id amount | pot_id]; try discriminate; simpl.
  - (* createPot *)
    unfold insert_pot. destruct auth_uid as [u|]; [|done].
    destruct (_ || _); [done|].
    destruct (pots st !! id) eqn:Hid; [done|].
    split; [done|]. split.
    + by apply map_Forall_insert_2.
    + unfold funds_of, balance_of. cbn [profiles transactions pots].
      rewrite pots_sum_insert by done. unfold pot_share. simpl.
      case_bool_decide;
        destruct (balance <$> profiles st !! uid); simpl; f_equal; lia.
  - (* updatePot *)
    unfold update_pot. destruct (pots st !! id) as [p|] eqn:Hid; [|done].
    case_decide; [|done]. destruct (_ || _); [done|].
    split; [done|]. split.
    + apply map_Forall_insert_2; [|done]. simpl. by apply (Hnn id).
    + unfold funds_of, balance_of. cbn [profiles transactions pots].
      rewrite (pots_sum_replace uid id p) by done. unfold pot_share. simpl.
      destruct (balance <$> profiles st !! uid); simpl; f_equal; lia.
  - (* pot_deposit *)
    unfold pot_deposit. destruct auth_uid as [u|]; [|done].
    destruct amount as [a|]; [|done].
    destruct (Z.leb_spec a 0); [done|].
    destruct (select_pot pot_id u (pots st)) as [p|] eqn:Hsel; [|done].
    destruct (profiles st !! u) as [prof|]; [|done].
    destruct (balance prof <? a); [done|]. cbn [snd].
    split; [done|]. split.
    + apply select_pot_Some in Hsel as [Hp _].
      apply (nonnegative_update_pot _ _ _ p); [done| |done].
      specialize (Hnn _ _ Hp). simpl in Hnn. lia.
    + by apply (funds_of_update_profile_pot u pot_id a now st p).
  - (* pot_withdraw *)
    unfold pot_withdraw. destruct auth_uid as [u|]; [|done].
    destruct amount as [a|]; [|done].
    destruct (Z.leb_spec a 0); [done|].
    destruct (select_pot pot_id u (pots st)) as [p|] eqn:Hsel; [|done].
    destruct (Z.ltb_spec (pot_total p) a); [done|]. cbn [snd].
    split; [done|]. split.
    + apply select_pot_Some in Hsel as [Hp _].
      apply (nonnegative_update_pot _ _ _ p); [done|lia|done].
    + rewrite <- (Z.opp_involutive a) at 1.
      by apply (funds_of_update_profile_pot u pot_id (- a) now st p).
  - (* delete_pot *)
    unfold delete_pot. destruct auth_uid as [u|]; [|done].
    destruct (select_pot pot_id u (pots st)) as [p|] eqn:Hsel; [|done].
    cbn [snd]. apply select_pot_Some in Hsel as [Hp Hown].
    split; [done|]. split.
    + by apply map_Forall_delete.
    + unfold funds_of, balance_of. cbn [profiles transactions pots].
      rewrite (pots_sum_delete uid pot_id p) by done. unfold pot_share.
      specialize (Hnn _ _ Hp). simpl in Hnn.
      destruct (Z.ltb_spec 0 (pot_total p)).
      * rewrite balance_update_profile, Hown.
        case_decide; case_bool_decide; try done;
          destruct (balance <$> profiles st !! uid); simpl; f_equal; lia.
      * case_bool_decide;
          destruct (balance <$> profiles st !! uid); simpl; f_equal; lia.
Qed.

Lemma funds_consistent_alt now st :
  funds_consistent now st
  ↔ ∀ uid f, funds_of uid st = Some f →
             f = period_sum now uid (transactions st).
Proof.
  unfold funds_consistent, funds_of, balance_of. split.
  - intros Hc uid f Hf. destruct (profiles st !! uid) as [prof|] eqn:Hp;
      [|done]. injection Hf as <-. by apply Hc.
  - intros Hc uid prof Hp. apply Hc. by rewrite Hp.
Qed.

Lemma execute_preserves_funds now r st :
  funds_consistent now st ∧ pots_nonnegative st →
  funds_consistent now (execute now r st)
  ∧ pots_nonnegative (execute now r st).
Proof.
  destruct r as [auth_uid o]. rewrite !funds_consistent_alt.
  intros [Hc Hnn].
  destruct (is_transaction_operation o) eqn:Ho.
  - split.
    + intros uid f. unfold funds_of.
      destruct (transaction_operation_effect now auth_uid o st uid Ho)
        as [-> ->].
      specialize (Hc uid). unfold funds_of in Hc.
      destruct (balance_of uid st) as [b0|]; [|done].
      pose proof (Hc _ eq_refl) as Hf. simpl in Hf.
      simpl. intros [= <-]. lia.
    + unfold pots_nonnegative.
      by destruct (transaction_operation_effect now auth_uid o st 0%N Ho)
        as [-> _].
  - split.
    + intros uid f.
      destruct (pot_operation_effect now auth_uid o st uid Ho Hnn)
        as (-> & _ & ->). apply Hc.
    + by destruct (pot_operation_effect now auth_uid o st 0%N Ho Hnn)
        as (_ & ? & _).
Qed.

Lemma replay_preserves_funds now rs st :
  funds_consistent now st ∧ pots_nonnegative st →
  funds_consistent now (replay now rs st)
  ∧ pots_nonnegative (replay now rs st).
Proof.
  revert st. induction rs as [|r rs IH]; intros st Hst; [done|].
  simpl. by apply IH, execute_preserves_funds.
Qed.

Lemma new_accounts_funds t0 now users :
  funds_consistent now (new_accounts t0 users)
  ∧ pots_nonnegative (new_accounts t0 users).
Proof.
  split; [|apply map_Forall_empty].
  intros uid prof. simpl. rewrite lookup_fmap.
  destruct (users !! uid); [|done]. intros [= <-]. simpl.
  unfold period_sum, sum_where, pots_sum. by rewrite !map_fold_empty.
Qed.

(** No operation adds or removes a profile row. *)
Lemma execute_keeps_profiles now r st u :
  pots_nonnegative st →
  is_Some (profiles (execute now r st) !! u) ↔ is_Some (profiles st !! u).
Proof.
  intros Hnn. destruct r as [auth_uid o].
  rewrite <- !(fmap_is_Some balance).
  change (is_Some (balance_of u (execute now (auth_uid, o) st))
          ↔ is_Some (balance_of u st)).
  destruct (is_transaction_operation o) eqn:Ho.
  - destruct (transaction_operation_effect now auth_uid o st u Ho) as [_ ->].
    by rewrite fmap_is_Some.
  - destruct (pot_operation_effect now auth_uid o st u Ho Hnn)
      as (_ & _ & Hfunds).
    unfold funds_of in Hfunds.
    destruct (balance_of u (execute now (auth_uid, o) st)),
      (balance_of u st); try done; by split; eauto.
Qed.

(** In the states that the operations reach from new accounts, a pot that
    holds money has an owner with an account: the account that a
    withdrawal or a deletion credits exists. *)
Lemma execute_preserves_backed now r st :
  pots_nonnegative st → pots_backed st → pots_backed (execute now r st).
Proof.
  intros Hnn Hb id p' Hp' Hpos.
  apply (execute_keeps_profiles now r st _ Hnn).
  destruct r as [auth_uid o].
  destruct o as [| | | i name target theme | i u | pot_id amount
                 | pot_id amount | pot_id]; simpl in Hp'.
  - unfold insert_transaction in Hp'. repeat case_match; by apply (Hb id).
  - unfold update_transaction in Hp'. repeat case_match; by apply (Hb id).
  - unfold delete_transaction in Hp'. repeat case_match; by apply (Hb id).
  - unfold insert_pot in Hp'.
    repeat case_match; try by apply (Hb id). simpl in Hp'.
    apply lookup_insert_Some in Hp' as [[_ <-]|[_ Hp']]; [simpl in Hpos; lia|].
    by apply (Hb id).
  - unfold update_pot in Hp'.
    repeat case_match; try by apply (Hb id). simpl in Hp'.
    apply lookup_insert_Some in Hp' as [[<- <-]|[_ Hp']]; [|by apply (Hb id)].
    simpl in *. by apply (Hb i p).
  - unfold pot_deposit in Hp'.
    repeat case_match; try by apply (Hb id). simpl in Hp'.
    rewrite lookup_update_pot_total in Hp'. case_decide; [|by apply (Hb id)].
    subst. match goal with
           | Hs : select_pot _ _ _ = Some _ |- _ =>
             apply select_pot_Some in Hs as [Hs Hown]; rewrite Hs in Hp'
           end.
    injection Hp' as <-. simpl. rewrite Hown. by eexists.
  - unfold pot_withdraw in Hp'.
    repeat case_match; try by apply (Hb id). simpl in Hp'.
    rewrite lookup_update_pot_total in Hp'. case_decide; [|by apply (Hb id)].
    subst. match goal with
           | Hs : select_pot _ _ _ = Some _ |- _ =>
             apply select_pot_Some in Hs as [Hs Hown]; rewrite Hs in Hp';
             injection Hp' as <-; simpl in *; apply (Hb _ _ Hs); lia
           end.
  - unfold delete_pot in Hp'.
    repeat case_match; try by apply (Hb id).
    all: simpl in Hp'; apply lookup_delete_Some in Hp' as [_ Hp'];
      by apply (Hb id).
Qed.

Lemma replay_backed t0 now users rs :
  pots_backed (replay now rs (new_accounts t0 users)).
Proof.
  assert (Hinit : pots_nonnegative (new_accounts t0 users)
                  ∧ pots_backed (new_accounts t0 users))
    by (split; apply map_Forall_empty).
  revert Hinit. generalize (new_accounts t0 users).
  induction rs as [|[auth_uid o] rs IH]; intros st [Hnn Hb]; [done|].
  change (replay now ((auth_uid, o) :: rs) st)
    with (replay now rs (execute now (auth_uid, o) st)).
  apply IH. split; [|by apply execute_preserves_backed].
  destruct (is_transaction_operation o) eqn:Ho.
  - unfold pots_nonnegative.
    by destruct (transaction_operation_effect now auth_uid o st 0%N Ho)
      as [-> _].
  - by destruct (pot_operation_effect now auth_uid o st 0%N Ho Hnn)
      as (_ & ? & _).
Qed.

(** C5 (amended): in every state reached from new accounts by any sequence
    of transaction inserts, updates and deletes and of pot creations,
    updates, deposits, withdrawals and deletions (served with [now] fixed),
    the balance of an account plus the totals of the account's pots equals
    the sum of the amounts of its transactions dated in the current
    statement period; transactions dated within the last second of a month
    are left aside. *)
Theorem funds_equal_recomputation t0 now users rs uid prof :
  valid_timestamptz now →
  map_Forall (λ _ t, before_last_second (tx_date t))
             (transactions (replay now rs (new_accounts t0 users))) →
  profiles (replay now rs (new_accounts t0 users)) !! uid = Some prof →
  balance prof + pots_sum uid (pots (replay now rs (new_accounts t0 users)))
  = statement_sum now uid
      (transactions (replay now rs (new_accounts t0 users))).
Proof.
  intros Hnow Hdates. rewrite statement_sum_period_sum by done.
  apply (replay_preserves_funds now rs (new_accounts t0 users)).
  apply new_accounts_funds.
Qed.

Lemma funds_equal_recomputation_witness :
  balance_of Scenario.alice Scenario.saved = Some 60
  ∧ pots_sum Scenario.alice (pots Scenario.saved) = 40
  ∧ statement_sum Scenario.now0 Scenario.alice (transactions Scenario.saved)
    = 60 + 40.
Proof.
  assert (Hb : ∃ prof, profiles Scenario.saved !! Scenario.alice = Some prof
                       ∧ balance prof = 60)
    by (eexists; split; vm_compute; reflexivity).
  assert (Hs : pots_sum Scenario.alice (pots Scenario.saved) = 40)
    by (vm_compute; reflexivity).
  destruct Hb as (prof & Hprof & Hb).
  split; [unfold balance_of; rewrite Hprof; simpl; f_equal; exact Hb|].
  split; [exact Hs|].
  rewrite <- Hb, <- Hs. symmetry.
  refine (funds_equal_recomputation Scenario.now0 Scenario.now0
            {[ Scenario.alice := "Alice" ]}
            [ (Some Scenario.alice, CreateTransaction 1%N Scenario.salary);
              (Some Scenario.alice, CreatePot 2%N "Holiday" 500 "green");
              (Some Scenario.bob, CreatePot 3%N "Car" 1000 "red");
              (Some Scenario.alice, DepositToPot 2%N (Some 40)) ]
            Scenario.alice prof _ _ Hprof).
  - unfold valid_timestamptz, Calendar.days_in_month, Calendar.is_leap_year,
      usec_per_day, usec_per_second. simpl. lia.
  - apply (bool_decide_unpack _). vm_compute. exact I.
Defined.

End Accrual.

(* ===================================================================== *)
(** ** Properties of the listings and of the recurring bills *)
(* ===================================================================== *)

Module Listing.
Import Api.

(** *** The stable sort *)

Section SortFacts.
Context {A : Type} (goes_after : A → A → bool).

Local Abbreviation precedes := (may_precede goes_after).

Hypothesis goes_after_asym :
  ∀ x y, goes_after x y = true → goes_after y x = false.
Hypothesis precedes_trans :
  ∀ x y z, precedes x y → precedes y z → precedes x z.

Lemma sort_insert_Permutation x l : sort_insert goes_after x l ≡ₚ x :: l.
Proof.
  induction l as [|y l IH]; simpl; [done|].
  destruct (goes_after x y); [|done].
  rewrite IH. apply perm_swap.
Qed.

Lemma stable_sort_Permutation l : stable_sort goes_after l ≡ₚ l.
Proof.
  induction l as [|x l IH]; simpl; [done|].
  by rewrite sort_insert_Permutation, IH.
Qed.

Lemma sort_insert_sorted x l :
  StronglySorted precedes l →
  StronglySorted precedes (sort_insert goes_after x l).
Proof.
  induction l as [|y l IH]; intros Hl; simpl.
  - by repeat constructor.
  - apply StronglySorted_cons in Hl as [Hy Hl].
    destruct (goes_after x y) eqn:Hxy.
    + apply StronglySorted_cons. split; [|by apply IH].
      rewrite sort_insert_Permutation. constructor; [|done].
      by apply goes_after_asym.
    + apply StronglySorted_cons. split; [|by apply StronglySorted_cons].
      constructor; [done|].
      eapply Forall_impl; [exact Hy|]. intros z Hz.
      by apply (precedes_trans x y z).
Qed.

Lemma stable_sort_sorted l :
  StronglySorted precedes (stable_sort goes_after l).
Proof.
  induction l as [|x l IH]; simpl; [constructor|].
  by apply sort_insert_sorted.
Qed.

Lemma sort_insert_head x l :
  Forall (precedes x) l → sort_insert goes_after x l = x :: l.
Proof.
  destruct l as [|y l]; [done|]. intros [Hy _]%Forall_cons. simpl.
  by rewrite Hy.
Qed.

(** Sorting what is sorted changes nothing. *)
Lemma stable_sort_id l :
  StronglySorted precedes l → stable_sort goes_after l = l.
Proof.
  induction l as [|x l IH]; [done|].
  intros [Hx Hl]%StronglySorted_cons. simpl.
  rewrite IH by done. by apply sort_insert_head.
Qed.

(** Leaving rows out and sorting commute. *)
Lemma sort_insert_filter (P : A → Prop) `{∀ x, Decision (P x)} x l :
  StronglySorted precedes l →
  filter P (sort_insert goes_after x l)
  = if decide (P x) then sort_insert goes_after x (filter P l)
    else filter P l.
Proof.
  induction l as [|y l IH]; intros Hl; simpl.
  - rewrite filter_cons. by case_decide.
  - apply StronglySorted_cons in Hl as [Hy Hl].
    destruct (goes_after x y) eqn:Hxy.
    + rewrite !filter_cons, IH by done.
      repeat case_decide; simpl; by rewrite ?Hxy.
    + rewrite (filter_cons _ x). case_decide; [|done].
      rewrite sort_insert_head; [done|].
      apply Forall_forall. intros z Hz%list_elem_of_filter.
      destruct Hz as [_ Hz]. apply elem_of_cons in Hz as [->|Hz]; [done|].
      apply (precedes_trans x y z); [done|].
      by eapply Forall_forall in Hy.
Qed.

Lemma stable_sort_filter (P : A → Prop) `{∀ x, Decision (P x)} l :
  filter P (stable_sort goes_after l) = stable_sort goes_after (filter P l).
Proof.
  induction l as [|x l IH]; [done|]. simpl.
  rewrite sort_insert_filter by apply stable_sort_sorted.
  rewrite filter_cons, IH. by case_decide.
Qed.

End SortFacts.

Lemma StronglySorted_sublist {A} (R : relation A) (l1 l2 : list A) :
  l1 `sublist_of` l2 → StronglySorted R l2 → StronglySorted R l1.
Proof.
  induction 1 as [|x l1 l2 Hsub IH|x l1 l2 Hsub IH]; [done| |].
  - intros [Hx Hl]%StronglySorted_cons. apply StronglySorted_cons.
    split; [|by apply IH].
    apply Forall_forall. intros y Hy.
    eapply Forall_forall in Hx; [exact Hx|].
    by eapply elem_of_sublist.
  - intros [_ Hl]%StronglySorted_cons. by apply IH.
Qed.

Lemma StronglySorted_weaken {A} (R R' : relation A) (l : list A) :
  (∀ x y, R x y → R' x y) → StronglySorted R l → StronglySorted R' l.
Proof.
  intros HR. induction 1 as [|x l _ IH Hx]; constructor; [done|].
  eapply Forall_impl; [exact Hx|]. apply HR.
Qed.

(** *** Dates *)

Lemma Date_gtb_true a b :
  Date_gtb a b = true
  ↔ getFullYear b < getFullYear a
    ∨ getFullYear a = getFullYear b
      ∧ (getMonth b < getMonth a
         ∨ getMonth a = getMonth b
           ∧ (getDate b < getDate a
              ∨ getDate a = getDate b ∧ msOfDay b < msOfDay a)).
Proof.
  unfold Date_gtb, Date_compare.
  destruct (Z.compare_spec (getFullYear a) (getFullYear b));
    destruct (Z.compare_spec (getMonth a) (getMonth b));
    destruct (Z.compare_spec (getDate a) (getDate b));
    destruct (Z.compare_spec (msOfDay a) (msOfDay b));
    split; intros; try discriminate; try reflexivity; lia.
Qed.

Lemma Date_gtb_false a b :
  Date_gtb a b = false
  ↔ getFullYear a < getFullYear b
    ∨ getFullYear a = getFullYear b
      ∧ (getMonth a < getMonth b
         ∨ getMonth a = getMonth b
           ∧ (getDate a < getDate b
              ∨ getDate a = getDate b ∧ msOfDay a <= msOfDay b)).
Proof.
  rewrite <- not_true_iff_false, Date_gtb_true. lia.
Qed.

Lemma Date_gtb_asym a b : Date_gtb a b = true → Date_gtb b a = false.
Proof. rewrite Date_gtb_true, Date_gtb_false. lia. Qed.

Lemma Date_gtb_negtrans a b c :
  Date_gtb a b = false → Date_gtb b c = false → Date_gtb a c = false.
Proof. rewrite !Date_gtb_false. lia. Qed.

Lemma Date_gtb_false_true a b c :
  Date_gtb a b = false → Date_gtb c b = true → Date_gtb a c = false.
Proof. rewrite !Date_gtb_false, Date_gtb_true. lia. Qed.

(** Within [CURRENT_MONTH_START .. CURRENT_MONTH_END] is within the
    calendar month. *)
Lemma in_month_range now d :
  valid_Date d →
  Date_geb d (first_of_month (getFullYear now) (getMonth now))
  && Date_leb d (end_of_month (getFullYear now) (getMonth now)) = true
  ↔ in_calendar_month now d.
Proof.
  intros [Hday Hms]. unfold in_calendar_month, Date_geb, Date_leb.
  rewrite andb_true_iff, !negb_true_iff, !Date_gtb_false. simpl.
  split.
  - lia.
  - intros [Hy Hm]. rewrite Hy, Hm in Hday. lia.
Qed.

(** *** The map of bills *)

Section MapFacts.
Context {V : Type}.
Implicit Types (m : list (string * V)) (k : string) (v : V).

Lemma Map_get_Some_elem k v m : Map_get k m = Some v → (k, v) ∈ m.
Proof.
  induction m as [|[k' v'] m IH]; simpl; [done|].
  destruct (String.eqb_spec k k') as [->|Hk].
  - intros [= ->]. apply elem_of_cons. by left.
  - intros Hm. apply elem_of_cons. right. by apply IH.
Qed.

Lemma Map_get_None k m : Map_get k m = None ↔ k ∉ m.*1.
Proof.
  induction m as [|[k' v'] m IH]; simpl.
  - split; [intros _; apply not_elem_of_nil|done].
  - rewrite not_elem_of_cons.
    destruct (String.eqb_spec k k') as [->|Hk].
    + split; [done|]. by intros [? _].
    + rewrite IH. split; [done|]. by intros [_ ?].
Qed.

Lemma Map_get_NoDup k v m : NoDup m.*1 → (k, v) ∈ m → Map_get k m = Some v.
Proof.
  induction m as [|[k' v'] m IH]; simpl.
  - by intros _ ?%elem_of_nil.
  - intros [Hk' Hm]%NoDup_cons [[= -> ->]|Hin]%elem_of_cons.
    + by rewrite String.eqb_refl.
    + destruct (String.eqb_spec k k') as [->|Hk]; [|by apply IH].
      exfalso. apply Hk'. apply list_elem_of_fmap. by exists (k', v).
Qed.

Lemma Map_set_absent k v m :
  Map_get k m = None → Map_set k v m = m ++ [(k, v)].
Proof.
  induction m as [|[k' v'] m IH]; simpl; [done|].
  destruct (String.eqb k k'); [done|]. intros Hm. by rewrite IH.
Qed.

Lemma Map_set_keys k v m : is_Some (Map_get k m) → (Map_set k v m).*1 = m.*1.
Proof.
  induction m as [|[k' v'] m IH]; simpl; [by intros [? [=]]|].
  destruct (String.eqb k k'); [done|]. intros Hm.
  rewrite !fmap_cons. f_equal. by apply IH.
Qed.

Lemma Map_set_elem_of k v m k' v' :
  NoDup m.*1 → is_Some (Map_get k m) →
  (k', v') ∈ Map_set k v m
  ↔ (k' = k ∧ v' = v) ∨ (k' ≠ k ∧ (k', v') ∈ m).
Proof.
  induction m as [|[k0 v0] m IH]; simpl; [by intros _ [? [=]]|].
  intros [Hk0 Hm]%NoDup_cons Hget.
  destruct (String.eqb_spec k k0) as [->|Hk].
  - rewrite !elem_of_cons. split.
    + intros [[= -> ->]|Hin]; [by left|]. right. split; [|by right].
      intros ->. apply Hk0. apply list_elem_of_fmap. by exists (k0, v').
    + intros [[-> ->]|[Hne [[= -> ->]|Hin]]]; [by left|done|by right].
  - rewrite !elem_of_cons, IH by done. split.
    + intros [[= -> ->]|[?|?]]; [right; split; [done|by left]|by left|].
      right. split; [tauto|right; tauto].
    + intros [?|[? [?|?]]]; [right; by left|by left|right; right; tauto].
Qed.

End MapFacts.

Lemma elem_of_snoc {A} (l : list A) (x y : A) : x ∈ l ++ [y] ↔ x ∈ l ∨ x = y.
Proof. by rewrite elem_of_app, list_elem_of_singleton. Qed.

Section BillMap.
Context {num : Type}.
Implicit Types (t : Transaction num) (l : list (Transaction num)).

Lemma billMap_step_latest l billMap t :
  latest_per_name l billMap →
  latest_per_name (l ++ [t]) (billMap_step billMap t).
Proof.
  intros (Hnodup & Hentries & Hnames). unfold billMap_step.
  destruct (Map_get (name t) billMap) as [current|] eqn:Hget.
  - destruct (Date_gtb (date t) (date current)) eqn:Hgt.
    + (* [t] replaces the entry of its name *)
      split; [by rewrite Map_set_keys|]. split.
      * intros k v Hin.
        apply Map_set_elem_of in Hin; [|done|by rewrite Hget].
        destruct Hin as [[-> ->]|[Hne Hin]].
        -- split; [done|]. split; [apply elem_of_app; right; by left|].
           intros t' [Hin| ->]%elem_of_snoc Hname.
           ++ destruct (Hentries _ _ (Map_get_Some_elem _ _ _ Hget))
                as (_ & _ & Hmax).
              eapply Date_gtb_false_true; [by apply Hmax|done].
           ++ apply Date_gtb_false. lia.
        -- destruct (Hentries _ _ Hin) as (Hname & Hv & Hmax).
           split; [done|]. split; [apply elem_of_app; by left|].
           intros t' [Hin'| ->]%elem_of_snoc Hname';
             [by apply Hmax|done].
      * intros t' Hin. rewrite Map_set_keys by done.
        apply elem_of_snoc in Hin as [Hin| ->]; [by apply Hnames|].
        apply list_elem_of_fmap. exists (name t, current).
        split; [done|]. by apply Map_get_Some_elem.
    + (* the entry stays *)
      split; [done|]. split.
      * intros k v Hin. destruct (Hentries _ _ Hin) as (Hname & Hv & Hmax).
        split; [done|]. split; [apply elem_of_app; by left|].
        intros t' [Hin'| ->]%elem_of_snoc Hname';
          [by apply Hmax|].
        rewrite (Map_get_NoDup _ _ _ Hnodup) in Hget
          by by rewrite Hname' in *.
        by injection Hget as <-.
      * intros t' [Hin| ->]%elem_of_snoc;
          [by apply Hnames|].
        apply list_elem_of_fmap. exists (name t, current).
        split; [done|]. by apply Map_get_Some_elem.
  - (* a new name *)
    rewrite Map_set_absent by done.
    split; [|split].
    + rewrite fmap_app. apply NoDup_app. split; [done|]. split.
      * intros k Hk ->%list_elem_of_singleton. by apply Map_get_None in Hget.
      * apply NoDup_singleton.
    + intros k v [Hin|[= -> ->]]%elem_of_snoc.
      * destruct (Hentries _ _ Hin) as (Hname & Hv & Hmax).
        split; [done|]. split; [apply elem_of_app; by left|].
        intros t' [Hin'| ->]%elem_of_snoc Hname';
          [by apply Hmax|].
        exfalso. apply Map_get_None in Hget. apply Hget.
        apply list_elem_of_fmap. exists (k, v). by rewrite Hname'.
      * split; [done|]. split; [apply elem_of_app; right; by left|].
        intros t' [Hin'| ->]%elem_of_snoc Hname'.
        -- exfalso. apply Map_get_None in Hget. apply Hget.
           rewrite <- Hname'. by apply Hnames.
        -- apply Date_gtb_false. lia.
    + intros t' Hin. rewrite fmap_app. apply elem_of_app.
      apply elem_of_snoc in Hin as [Hin| ->];
        [left; by apply Hnames|right; by left].
Qed.

Lemma billMap_foldl_latest l0 billMap l :
  latest_per_name l0 billMap →
  latest_per_name (l0 ++ l) (foldl billMap_step billMap l).
Proof.
  revert l0 billMap. induction l as [|t l IH]; intros l0 billMap Hok; simpl.
  - by rewrite app_nil_r.
  - rewrite (cons_middle t l0 l), app_assoc.
    by apply IH, billMap_step_latest.
Qed.

Lemma billMap_latest l : latest_per_name l (foldl billMap_step [] l).
Proof.
  apply (billMap_foldl_latest [] [] l).
  split; [constructor|]. split; [by intros k v ?%elem_of_nil|].
  by intros t ?%elem_of_nil.
Qed.

End BillMap.

(** *** Classification *)

(** A vendor without a bill: the caller has 501 transactions, of which the
    oldest is the gym subscription, a recurring expense; it is not among
    the 500 newest, and no bill bears its name. *)
Lemma vendor_beyond_newest_500_has_no_bill :
  let listing :=
    bills (getRecurringBills ApiScenario.ilike ApiScenario.text_ltb
             ApiScenario.localeCompare ApiScenario.toLowerCase
             ApiScenario.today ApiScenario.busy_ledger None) in
  ApiScenario.old_gym ∈ ApiScenario.busy_ledger
  ∧ is_recurring_expense ApiScenario.old_gym = true
  ∧ ¬ ∃ b, b ∈ listing ∧ name (tx b) = name ApiScenario.old_gym.
Proof.
  intros listing. split; [by left|]. split; [reflexivity|].
  assert (Hnone : listing = []) by (vm_compute; reflexivity).
  rewrite Hnone. intros (b & Hb & _). by apply elem_of_nil in Hb.
Qed.

Section Classification.
Context {num : Type} `{JsNumber num}.
Variable ilike : string → string → bool.
Variable text_ltb : string → string → bool.
Variable localeCompare : string → string → Z.
Variable toLowerCase : string → string.

Lemma classify_status now (t : Transaction num) :
  valid_Date (date t) →
  (status (classify now t) = paid ↔ in_calendar_month now (date t))
  ∧ (status (classify now t) = due_soon
     ↔ status (classify now t) ≠ paid
       ∧ getDate now < getDate (date t) <= getDate now + 5)
  ∧ (status (classify now t) = upcoming
     ↔ status (classify now t) ≠ paid
       ∧ ¬ (getDate now < getDate (date t) <= getDate now + 5)).
Proof.
  intros Hvalid. pose proof (in_month_range now (date t) Hvalid) as Hrange.
  unfold classify. cbn [status].
  destruct (Date_geb _ _ && Date_leb _ _).
  - assert (in_calendar_month now (date t)) by by apply Hrange.
    intuition discriminate.
  - assert (¬ in_calendar_month now (date t)) by by intros ?%Hrange.
    destruct (Z.ltb_spec (getDate now) (getDate (date t)));
      destruct (Z.leb_spec (getDate (date t)) (getDate now + 5)); simpl;
      intuition (try discriminate; try lia).
Qed.

Lemma elem_of_sortBills o (l : list (RecurringBill num)) b :
  b ∈ sortBills localeCompare o l ↔ b ∈ l.
Proof. unfold sortBills. by rewrite stable_sort_Permutation. Qed.

Lemma recurringTransactions_sublist (table : list (Transaction num)) :
  recurringTransactions ilike text_ltb table `sublist_of` allTransactions ilike text_ltb table.
Proof. apply sublist_filter. Qed.

Lemma getTransactions_sublist (table : list (Transaction num)) params :
  transactions (getTransactions ilike text_ltb table params)
  `sublist_of` order text_ltb
                 (column (SORT_MAP (default Latest (params ≫= tp_sort))))
                 (ascending (SORT_MAP (default Latest (params ≫= tp_sort))))
                 table.
Proof.
  unfold getTransactions.
  destruct (SORT_MAP (default Latest (params ≫= tp_sort))) as [c asc].
  cbn [transactions column ascending]. unfold range.
  etrans; [apply sublist_take|]. etrans; [apply sublist_drop|].
  etrans.
  { destruct (truthy (match params ≫= tp_filter with
                      | Some f => Some f
                      | None => params ≫= tp_category
                      end)) as [cat|]; [|reflexivity].
    destruct (String.eqb cat "All Transactions"); [reflexivity|].
    apply sublist_filter. }
  destruct (truthy (params ≫= tp_search)); [apply sublist_filter|reflexivity].
Qed.

Lemma allTransactions_elem_of (table : list (Transaction num)) t :
  t ∈ allTransactions ilike text_ltb table → t ∈ table.
Proof.
  intros Ht. unfold allTransactions in Ht.
  eapply elem_of_sublist in Ht; [|apply getTransactions_sublist].
  unfold order in Ht. by rewrite stable_sort_Permutation in Ht.
Qed.

Lemma allTransactions_all (table : list (Transaction num)) t :
  (length table <= 500)%nat → t ∈ table →
  t ∈ allTransactions ilike text_ltb table.
Proof.
  intros Hlen Ht.
  change (allTransactions ilike text_ltb table)
    with (take 500 (order text_ltb col_date false table)).
  unfold order. rewrite take_ge.
  - by rewrite stable_sort_Permutation.
  - by rewrite stable_sort_Permutation.
Qed.

Lemma names_of_values (billMap : list (string * Transaction num)) :
  (∀ k v, (k, v) ∈ billMap → name v = k) →
  name <$> Map_values billMap = billMap.*1.
Proof.
  unfold Map_values. induction billMap as [|[k v] m IH]; intros Hm; [done|].
  rewrite !fmap_cons. simpl. f_equal.
  - apply Hm. by left.
  - apply IH. intros k' v' Hin. apply Hm. by right.
Qed.

(** What [getRecurringBills] returns is the classified set, or with a
    search a part of it, in the order asked for. *)
Lemma getRecurringBills_bills now (table : list (Transaction num)) params :
  ∃ l, bills (getRecurringBills ilike text_ltb localeCompare toLowerCase
                now table params)
       ≡ₚ l
       ∧ l `sublist_of` classifiedBills ilike text_ltb now table
       ∧ (truthy (params ≫= search) = None →
          l = classifiedBills ilike text_ltb now table).
Proof.
  unfold getRecurringBills.
  destruct (truthy (params ≫= search)); simpl; eexists;
    (split; [apply stable_sort_Permutation|]).
  - split; [apply sublist_filter|done].
  - by split.
Qed.

(** C7 (amended): the vendors that are classified are those of the page
    that is fetched, the 500 newest transactions of the caller: every name
    among the recurring negative transactions of that page is represented
    by exactly one bill, made from a latest-dated such transaction of that
    name in the page; the bill's [dueDay] is the day of the month of that
    transaction; its status is [paid] exactly when that date falls within
    the current calendar month, [due-soon] exactly when it is not paid and
    [dueDay] is greater than today's day and at most today's day + 5, and
    [upcoming] otherwise.  The page holds every recurring negative
    transaction of the caller as long as the caller has at most 500
    transactions; a name that no recurring negative transaction of the
    page bears has no bill.  A search keeps some of these bills and no
    other. *)
Theorem recurring_bill_classification now (table : list (Transaction num))
    params :
  (∀ t, t ∈ table → valid_Date (date t)) →
  let listing :=
    bills (getRecurringBills ilike text_ltb localeCompare toLowerCase now
                             table params) in
  let page := take 500 (order text_ltb col_date false table) in
  let expenses := filter (λ t, is_recurring_expense t = true) page in
  (∀ t, t ∈ expenses → t ∈ table ∧ is_recurring_expense t = true)
  ∧ ((length table <= 500)%nat →
     ∀ t, t ∈ table → is_recurring_expense t = true → t ∈ expenses)
  ∧ (∀ n, (∀ t, t ∈ expenses → name t ≠ n) →
          ∀ b, b ∈ listing → name (tx b) ≠ n)
  ∧ (truthy (params ≫= search) = None →
     ∀ t, t ∈ expenses → ∃ b, b ∈ listing ∧ name (tx b) = name t)
  ∧ NoDup ((λ b, name (tx b)) <$> listing)
  ∧ ∀ b, b ∈ listing →
      tx b ∈ expenses
      ∧ (∀ t, t ∈ expenses → name t = name (tx b) →
              Date_gtb (date t) (date (tx b)) = false)
      ∧ dueDay b = getDate (date (tx b))
      ∧ (status b = paid ↔ in_calendar_month now (date (tx b)))
      ∧ (status b = due_soon
         ↔ status b ≠ paid ∧ getDate now < dueDay b <= getDate now + 5)
      ∧ (status b = upcoming
         ↔ status b ≠ paid ∧ ¬ (getDate now < dueDay b <= getDate now + 5)).
Proof.
  intros Hvalid listing page expenses.
  assert (Hexpenses : expenses = recurringTransactions ilike text_ltb table)
    by reflexivity.
  clearbody expenses. clear page. subst expenses.
  set (expenses := recurringTransactions ilike text_ltb table).
  destruct (getRecurringBills_bills now table params)
    as (l & Hperm & Hsub & Hall).
  fold listing in Hperm. unfold classifiedBills in Hsub, Hall.
  fold expenses in Hsub, Hall.
  destruct (billMap_latest expenses) as (Hnodup & Hentries & Hnames).
  assert (Hfrom : ∀ b, b ∈ listing → tx b ∈ expenses).
  { intros b Hb. rewrite Hperm in Hb.
    apply (elem_of_sublist _ _ _ Hb) in Hsub.
    apply list_elem_of_fmap in Hsub as (v & -> & Hv).
    apply list_elem_of_fmap in Hv as ([k v'] & -> & Hin). simpl.
    by apply (Hentries _ _ Hin). }
  split; [|split; [|split; [|split; [|split]]]].
  - intros t [Hrec Ht]%list_elem_of_filter. split; [|done].
    by apply allTransactions_elem_of.
  - intros Hlen t Ht Hrec. apply list_elem_of_filter. split; [done|].
    by apply allTransactions_all.
  - intros n Hn b Hb. by apply Hn, Hfrom.
  - intros Hsearch t Ht.
    apply Hnames, list_elem_of_fmap in Ht as ([k v] & Hk & Hin).
    simpl in Hk. exists (classify now v). split.
    + rewrite Hperm, (Hall Hsearch). apply list_elem_of_fmap.
      exists v. split; [done|]. apply list_elem_of_fmap. by exists (k, v).
    + simpl. rewrite Hk. by apply Hentries.
  - rewrite Hperm.
    eapply sublist_NoDup;
      [|exact (fmap_sublist (λ b, name (tx b)) _ _ Hsub)].
    rewrite <- list_fmap_compose.
    rewrite (list_fmap_ext _ name) by done.
    rewrite names_of_values; [done|]. intros k v Hin. by apply Hentries.
  - intros b Hb. rewrite Hperm in Hb.
    apply (elem_of_sublist _ _ _ Hb) in Hsub.
    apply list_elem_of_fmap in Hsub as (v & -> & Hv).
    apply list_elem_of_fmap in Hv as ([k v'] & -> & Hin). simpl.
    destruct (Hentries _ _ Hin) as (Hname & Hv & Hmax).
    split; [done|]. split; [by intros t Ht Ht'; apply Hmax; [|congruence]|].
    split; [done|].
    apply classify_status, Hvalid, allTransactions_elem_of.
    by eapply elem_of_sublist; [|apply recurringTransactions_sublist].
Qed.

End Classification.

Lemma recurring_bill_classification_witness :
  (λ b, (name (tx b), dueDay b, status b))
    <$> bills (getRecurringBills ApiScenario.ilike ApiScenario.text_ltb
                 ApiScenario.localeCompare ApiScenario.toLowerCase
                 ApiScenario.today ApiScenario.ledger
                 (Some {| search := None; sort := None |}))
  = [("Gym", 4, due_soon); ("Rent", 28, upcoming)]
  ∧ NoDup ((λ b, name (tx b))
             <$> bills (getRecurringBills ApiScenario.ilike
                          ApiScenario.text_ltb ApiScenario.localeCompare
                          ApiScenario.toLowerCase ApiScenario.today
                          ApiScenario.ledger
                          (Some {| search := None; sort := None |}))).
Proof.
  split; [vm_compute; reflexivity|].
  apply (recurring_bill_classification (num := Z) ApiScenario.ilike
           ApiScenario.text_ltb ApiScenario.localeCompare
           ApiScenario.toLowerCase ApiScenario.today ApiScenario.ledger
           (Some {| search := None; sort := None |})).
  intros t Ht. unfold ApiScenario.ledger in Ht.
  repeat (apply elem_of_cons in Ht as [->|Ht]);
    [| | | |by apply elem_of_nil in Ht];
    unfold valid_Date, Calendar.days_in_month, Calendar.is_leap_year;
    simpl; lia.
Defined.

(** *** The page of transactions *)

Section Page.
Context {num : Type} `{JsNumber num}.
Variable ilike : string → string → bool.
Variable text_ltb : string → string → bool.
Variable localeCompare : string → string → Z.
Variable toLowerCase : string → string.

Lemma order_date_desc_sorted (rows : list (Transaction num)) :
  StronglySorted not_newer (order text_ltb col_date false rows).
Proof.
  unfold order. apply stable_sort_sorted.
  - intros a b. simpl. apply Date_gtb_asym.
  - intros a b c. unfold may_precede. simpl. intros Hab Hbc.
    by apply (Date_gtb_negtrans _ (date b)).
Qed.

Lemma allTransactions_take (table : list (Transaction num)) :
  allTransactions ilike text_ltb table
  = take 500 (order text_ltb col_date false table).
Proof. reflexivity. Qed.

Lemma take_filter_all {A} (P : A → Prop) `{∀ x, Decision (P x)} n (l : list A) :
  (∀ x, x ∈ take n l → P x) → take n (filter P l) = take n l.
Proof.
  revert n. induction l as [|x l IH]; intros [|n] Hall; try done.
  rewrite filter_cons, decide_True by (apply Hall; by left).
  simpl. f_equal. apply IH. intros y Hy. apply Hall. by right.
Qed.

Lemma allTransactions_filter (P : Transaction num → Prop)
    `{∀ x, Decision (P x)} (table : list (Transaction num)) :
  (∀ x, x ∈ allTransactions ilike text_ltb table → P x) →
  allTransactions ilike text_ltb (filter P table)
  = allTransactions ilike text_ltb table.
Proof.
  rewrite !allTransactions_take. intros Hall. unfold order.
  rewrite <- stable_sort_filter.
  - by apply take_filter_all.
  - intros a b. simpl. apply Date_gtb_asym.
  - intros a b c. unfold may_precede. simpl. intros Hab Hbc.
    by apply (Date_gtb_negtrans _ (date b)).
Qed.

Lemma allTransactions_idem (table : list (Transaction num)) :
  allTransactions ilike text_ltb (allTransactions ilike text_ltb table)
  = allTransactions ilike text_ltb table.
Proof.
  rewrite (allTransactions_take (allTransactions _ _ _)).
  unfold order. rewrite stable_sort_id.
  - rewrite allTransactions_take. by rewrite take_take, Nat.min_id.
  - eapply StronglySorted_sublist; [|apply order_date_desc_sorted].
    rewrite allTransactions_take. apply sublist_take.
Qed.

Lemma getRecurringBills_page now (table table' : list (Transaction num))
    params :
  allTransactions ilike text_ltb table = allTransactions ilike text_ltb table' →
  getRecurringBills ilike text_ltb localeCompare toLowerCase now table params
  = getRecurringBills ilike text_ltb localeCompare toLowerCase
      now table' params.
Proof.
  intros Hpage. unfold getRecurringBills.
  change (transactions (getTransactions ilike text_ltb table (Some limit_500)))
    with (allTransactions ilike text_ltb table).
  change (transactions (getTransactions ilike text_ltb table' (Some limit_500)))
    with (allTransactions ilike text_ltb table').
  by rewrite Hpage.
Qed.

Lemma bills_from_page now (table : list (Transaction num)) params b :
  b ∈ bills (getRecurringBills ilike text_ltb localeCompare toLowerCase
               now table params) →
  tx b ∈ allTransactions ilike text_ltb table.
Proof.
  intros Hb.
  assert (Hc : b ∈ classifiedBills ilike text_ltb now table).
  { unfold getRecurringBills in Hb.
    destruct (truthy (params ≫= search)); simpl in Hb;
      apply elem_of_sortBills in Hb; [|done].
    by apply list_elem_of_filter in Hb as [_ Hb]. }
  apply list_elem_of_fmap in Hc as (v & -> & Hv).
  apply list_elem_of_fmap in Hv as ([k v'] & -> & Hin). simpl.
  destruct (billMap_latest (recurringTransactions ilike text_ltb table))
    as (_ & Hentries & _).
  destruct (Hentries _ _ Hin) as (_ & Hv & _).
  by eapply elem_of_sublist; [|apply recurringTransactions_sublist].
Qed.

(** C9: [getRecurringBills] works from one page of at most 500
    transactions, the first 500 of the caller's transactions in the order
    newest first: its result is the one it gives on that page alone, every
    bill is made from a transaction of the page, and leaving out of the
    table any rows that are not in the page changes neither the bills nor
    the summary. *)
Theorem recurring_bills_from_newest_500 now (table : list (Transaction num))
    params :
  let page := allTransactions ilike text_ltb table in
  (length page <= 500)%nat
  ∧ page = take 500 (order text_ltb col_date false table)
  ∧ order text_ltb col_date false table ≡ₚ table
  ∧ StronglySorted not_newer (order text_ltb col_date false table)
  ∧ getRecurringBills ilike text_ltb localeCompare toLowerCase now table
                      params
    = getRecurringBills ilike text_ltb localeCompare toLowerCase now page
                        params
  ∧ (∀ b, b ∈ bills (getRecurringBills ilike text_ltb localeCompare
                                         toLowerCase now table params) →
          tx b ∈ page)
  ∧ ∀ (P : Transaction num → Prop) (P_dec : ∀ x, Decision (P x)),
      (∀ x, x ∈ page → P x) →
      getRecurringBills ilike text_ltb localeCompare toLowerCase now
                        (filter P table) params
      = getRecurringBills ilike text_ltb localeCompare toLowerCase now table
                          params.
Proof.
  intros page. subst page.
  split; [rewrite allTransactions_take, length_take; lia|].
  split; [apply allTransactions_take|].
  split; [apply stable_sort_Permutation|].
  split; [apply order_date_desc_sorted|].
  split; [apply getRecurringBills_page; by rewrite allTransactions_idem|].
  split; [intros b; apply bills_from_page|].
  intros P P_dec Hall. by apply getRecurringBills_page, allTransactions_filter.
Qed.

End Page.

Lemma recurring_bills_from_newest_500_witness :
  is_recurring_expense ApiScenario.old_gym = true
  ∧ ApiScenario.old_gym ∈ ApiScenario.busy_ledger
  ∧ length ApiScenario.busy_ledger = 501%nat
  ∧ getRecurringBills ApiScenario.ilike ApiScenario.text_ltb
      ApiScenario.localeCompare ApiScenario.toLowerCase ApiScenario.today
      (filter (λ t, name t ≠ "Gym") ApiScenario.busy_ledger) None
    = getRecurringBills ApiScenario.ilike ApiScenario.text_ltb
        ApiScenario.localeCompare ApiScenario.toLowerCase
        ApiScenario.today ApiScenario.busy_ledger
        None
  ∧ bills (getRecurringBills ApiScenario.ilike ApiScenario.text_ltb
             ApiScenario.localeCompare ApiScenario.toLowerCase ApiScenario.today
             ApiScenario.busy_ledger None) = [].
Proof.
  split; [reflexivity|]. split; [by left|]. split; [reflexivity|].
  split; [|vm_compute; reflexivity].
  apply (recurring_bills_from_newest_500 (num := Z)).
  apply Forall_forall.
  apply (bool_decide_unpack _). vm_compute. exact I.
Defined.

(** *** The summary *)

Section Summary.
Context {num : Type} `{JsNumber num}.
Variable ilike : string → string → bool.
Variable text_ltb : string → string → bool.
Variable localeCompare : string → string → Z.
Variable toLowerCase : string → string.

Lemma sortBills_Permutation o (l : list (RecurringBill num)) :
  sortBills localeCompare o l ≡ₚ l.
Proof. apply stable_sort_Permutation. Qed.

(** The summary is taken from the classified set, in the order in which
    [filteredBills.sort] has left the array [bills]. *)
Lemma getRecurringBills_summary now table params :
  ∃ l, l ≡ₚ classifiedBills ilike text_ltb now table
       ∧ summary (getRecurringBills ilike text_ltb localeCompare toLowerCase
                                    now table params)
         = summarize l.
Proof.
  unfold getRecurringBills.
  destruct (truthy (params ≫= search)).
  - by eexists.
  - eexists. split; [|reflexivity]. apply sortBills_Permutation.
Qed.

Lemma summarize_counts (l l' : list (RecurringBill num)) :
  l ≡ₚ l' →
  summary_total (summarize l) = summary_total (summarize l')
  ∧ count (summary_paid (summarize l)) = count (summary_paid (summarize l'))
  ∧ count (summary_upcoming (summarize l))
    = count (summary_upcoming (summarize l'))
  ∧ count (dueSoon (summarize l)) = count (dueSoon (summarize l')).
Proof. intros Hl. simpl. by rewrite !Hl. Qed.

Section Exact.
Hypothesis num_add_comm : ∀ x y : num, num_add x y = num_add y x.
Hypothesis num_add_assoc :
  ∀ x y z : num, num_add x (num_add y z) = num_add (num_add x y) z.

Lemma sum_abs_Permutation (l l' : list (RecurringBill num)) :
  l ≡ₚ l' → sum_abs l = sum_abs l'.
Proof.
  unfold sum_abs. generalize (num_zero (num := num)).
  intros z Hl. revert z.
  induction Hl as [|x l l' _ IH|x y l|l1 l2 l3 _ IH1 _ IH2]; intros z; simpl.
  - done.
  - apply IH.
  - f_equal. rewrite <- !num_add_assoc. f_equal. apply num_add_comm.
  - by rewrite IH1.
Qed.

Lemma summarize_Permutation (l l' : list (RecurringBill num)) :
  l ≡ₚ l' → summarize l = summarize l'.
Proof.
  intros Hl. unfold summarize.
  rewrite (sum_abs_Permutation (filter (λ b, is_unpaid b = true) l)
                               (filter (λ b, is_unpaid b = true) l'))
    by by rewrite Hl.
  rewrite (sum_abs_Permutation (filter (λ b, is_paid b = true) l)
                               (filter (λ b, is_paid b = true) l'))
    by by rewrite Hl.
  rewrite (sum_abs_Permutation (filter (λ b, is_due_soon b = true) l)
                               (filter (λ b, is_due_soon b = true) l'))
    by by rewrite Hl.
  by rewrite !Hl.
Qed.

End Exact.

End Summary.

(** With JavaScript numbers the amounts of the summary depend on whether a
    search is given: three bills of 0.1, 0.2 and 0.3 add up to
    0.6000000000000001 in the order of the classified set and to 0.6 in
    the order of their due days. *)
Lemma summary_differs_with_search :
  let with_search :=
    summary (getRecurringBills ApiScenario.ilike ApiScenario.text_ltb
               ApiScenario.localeCompare ApiScenario.toLowerCase
               ApiScenario.today
               ApiScenario.january_bills
               (Some {| search := Some "gym"; sort := None |})) in
  let without_search :=
    summary (getRecurringBills ApiScenario.ilike ApiScenario.text_ltb
               ApiScenario.localeCompare ApiScenario.toLowerCase
               ApiScenario.today
               ApiScenario.january_bills None) in
  PrimFloat.ltb (totalAmount without_search) (totalAmount with_search) = true
  ∧ with_search ≠ without_search.
Proof.
  intros with_search without_search.
  assert (Hlt : PrimFloat.ltb (totalAmount without_search)
                              (totalAmount with_search) = true)
    by (vm_compute; reflexivity).
  split; [exact Hlt|]. intros Heq. rewrite Heq in Hlt.
  vm_compute in Hlt. discriminate.
Qed.

(** C10 (amended): whatever the search and the sort, [getRecurringBills]
    summarises the full classified set: the counts of the summary are the
    same for every search, and so are its amounts whenever the addition of
    the amounts is exact (commutative and associative).  In floating point
    the amounts may differ in their rounding, because without a search the
    classified array itself is sorted before it is summed. *)
Theorem summary_independent_of_search {num : Type} `{JsNumber num}
    ilike text_ltb localeCompare toLowerCase now
    (table : list (Transaction num)) params params' :
  let s := summary (getRecurringBills ilike text_ltb localeCompare toLowerCase
                                      now table params) in
  let s' := summary (getRecurringBills ilike text_ltb localeCompare
                                       toLowerCase now table params') in
  (summary_total s = summary_total s'
   ∧ count (summary_paid s) = count (summary_paid s')
   ∧ count (summary_upcoming s) = count (summary_upcoming s')
   ∧ count (dueSoon s) = count (dueSoon s'))
  ∧ ((∀ x y : num, num_add x y = num_add y x) →
     (∀ x y z : num, num_add x (num_add y z) = num_add (num_add x y) z) →
     s = s').
Proof.
  intros s s'. subst s s'.
  destruct (getRecurringBills_summary ilike text_ltb localeCompare toLowerCase
              now table params) as (l & Hl & ->).
  destruct (getRecurringBills_summary ilike text_ltb localeCompare toLowerCase
              now table params') as (l' & Hl' & ->).
  assert (Hll : l ≡ₚ l') by by rewrite Hl, Hl'.
  split; [by apply summarize_counts|].
  intros Hcomm Hassoc. by apply summarize_Permutation.
Qed.

Lemma summary_independent_of_search_witness :
  summary (getRecurringBills ApiScenario.ilike ApiScenario.text_ltb
             ApiScenario.localeCompare ApiScenario.toLowerCase
             ApiScenario.today ApiScenario.ledger
             (Some {| search := Some "gym"; sort := Some Highest |}))
  = summary (getRecurringBills ApiScenario.ilike ApiScenario.text_ltb
               ApiScenario.localeCompare ApiScenario.toLowerCase
               ApiScenario.today ApiScenario.ledger
               None).
Proof.
  apply (summary_independent_of_search (num := Z)); simpl; intros; lia.
Defined.

(** *** Listings sorted by "Highest" *)

(** The transaction listing sorted by "Highest" puts an income of 50
    before an expense of 100. *)
Lemma highest_transactions_not_by_abs :
  let listing :=
    transactions
      (getTransactions ApiScenario.ilike ApiScenario.text_ltb
         ApiScenario.two_amounts
         (Some {| tp_page := None; tp_limit := None; tp_search := None;
                  tp_sort := Some Highest; tp_filter := None;
                  tp_category := None |})) in
  amount <$> listing = [50; -100]
  ∧ ¬ StronglySorted abs_amount_geq listing.
Proof.
  intros listing.
  assert (Hl : listing
               = [ ApiScenario.row "t2" "Refund" (ApiScenario.day 2024 0 25)
                     50 false;
                   ApiScenario.row "t1" "Rent" (ApiScenario.day 2024 0 28)
                     (-100) true ])
    by (vm_compute; reflexivity).
  rewrite Hl. split; [reflexivity|].
  intros [Hhd _]%StronglySorted_cons.
  apply Forall_cons in Hhd as [Hhd _].
  vm_compute in Hhd. discriminate.
Qed.

Section Highest.
Context {num : Type} `{JsNumber num}.
Variable ilike : string → string → bool.
Variable text_ltb : string → string → bool.
Variable localeCompare : string → string → Z.
Variable toLowerCase : string → string.

(** The order and the subtraction of exact amounts. *)
Hypothesis num_ltb_asym :
  ∀ x y : num, num_ltb x y = true → num_ltb y x = false.
Hypothesis num_ltb_negtrans :
  ∀ x y z : num, num_ltb x y = false → num_ltb y z = false →
                 num_ltb x z = false.
Hypothesis num_sub_pos :
  ∀ x y : num, num_ltb num_zero (num_sub x y) = num_ltb y x.
Hypothesis num_sub_neg :
  ∀ x y : num, num_ltb (num_sub x y) num_zero = num_ltb x y.

Lemma compareBills_Highest (a b : RecurringBill num) :
  (0 <? compareBills localeCompare Highest a b)
  = num_ltb (num_abs (amount (tx a))) (num_abs (amount (tx b))).
Proof.
  simpl. unfold num_sgn. rewrite num_sub_pos, num_sub_neg.
  destruct (num_ltb (num_abs (amount (tx b))) (num_abs (amount (tx a))))
    eqn:Hba; [by rewrite (num_ltb_asym _ _ Hba)|].
  by destruct (num_ltb (num_abs (amount (tx a))) (num_abs (amount (tx b)))).
Qed.

Lemma sortBills_Highest_sorted (l : list (RecurringBill num)) :
  StronglySorted (λ a b, abs_amount_geq (tx a) (tx b))
                 (sortBills localeCompare Highest l).
Proof.
  unfold sortBills.
  eapply (StronglySorted_weaken (may_precede _));
    [|apply stable_sort_sorted].
  - intros a b. unfold may_precede. by rewrite compareBills_Highest.
  - intros a b. rewrite !compareBills_Highest. apply num_ltb_asym.
  - intros a b c. unfold may_precede. rewrite !compareBills_Highest.
    apply num_ltb_negtrans.
Qed.

Lemma order_amount_desc_sorted (rows : list (Transaction num)) :
  StronglySorted amount_geq (order text_ltb col_amount false rows).
Proof.
  unfold order. apply stable_sort_sorted.
  - intros a b. apply num_ltb_asym.
  - intros a b c. apply num_ltb_negtrans.
Qed.

(** C8 (amended): sorted by "Highest", the recurring-bill listing is
    ordered by [abs(amount)] descending, and the transaction listing is
    ordered by the signed [amount] descending (so that any income stands
    before any expense, whatever their magnitudes); amounts compare and
    subtract exactly. *)
Theorem highest_listings_sorted now (table : list (Transaction num))
    (p : TransactionParams) (q : RecurringBillsParams) :
  tp_sort p = Some Highest →
  sort q = Some Highest →
  StronglySorted amount_geq
    (transactions (getTransactions ilike text_ltb table (Some p)))
  ∧ StronglySorted (λ a b, abs_amount_geq (tx a) (tx b))
      (bills (getRecurringBills ilike text_ltb localeCompare toLowerCase now
                                table (Some q))).
Proof.
  intros Hp Hq. split.
  - eapply StronglySorted_sublist; [apply getTransactions_sublist|].
    simpl. rewrite Hp. simpl. apply order_amount_desc_sorted.
  - unfold getRecurringBills. simpl. rewrite Hq. simpl.
    destruct (truthy (search q)); simpl; apply sortBills_Highest_sorted.
Qed.

End Highest.

Lemma Z_ltb_asym (x y : Z) : (x <? y) = true → (y <? x) = false.
Proof. rewrite Z.ltb_lt, Z.ltb_ge. lia. Qed.

Lemma Z_ltb_negtrans (x y z : Z) :
  (x <? y) = false → (y <? z) = false → (x <? z) = false.
Proof. rewrite !Z.ltb_ge. lia. Qed.

Lemma Z_sub_pos (x y : Z) : (0 <? x - y) = (y <? x).
Proof. destruct (Z.ltb_spec 0 (x - y)), (Z.ltb_spec y x); lia. Qed.

Lemma Z_sub_neg (x y : Z) : (x - y <? 0) = (x <? y).
Proof. destruct (Z.ltb_spec (x - y) 0), (Z.ltb_spec x y); lia. Qed.

Lemma highest_listings_sorted_witness :
  amount <$> transactions
    (getTransactions ApiScenario.ilike ApiScenario.text_ltb ApiScenario.ledger
       (Some {| tp_page := None; tp_limit := None; tp_search := None;
                tp_sort := Some Highest; tp_filter := None;
                tp_category := None |}))
  = [2500; -30; -850; -900]
  ∧ StronglySorted amount_geq
      (transactions
         (getTransactions ApiScenario.ilike ApiScenario.text_ltb
            ApiScenario.ledger
            (Some {| tp_page := None; tp_limit := None; tp_search := None;
                     tp_sort := Some Highest; tp_filter := None;
                     tp_category := None |})))
  ∧ (λ b, amount (tx b)) <$> bills
      (getRecurringBills ApiScenario.ilike ApiScenario.text_ltb
         ApiScenario.localeCompare ApiScenario.toLowerCase
         ApiScenario.today ApiScenario.ledger
         (Some {| search := None; sort := Some Highest |}))
    = [-900; -30]
  ∧ StronglySorted (λ a b, abs_amount_geq (tx a) (tx b))
      (bills
         (getRecurringBills ApiScenario.ilike ApiScenario.text_ltb
            ApiScenario.localeCompare ApiScenario.toLowerCase
            ApiScenario.today ApiScenario.ledger
            (Some {| search := None; sort := Some Highest |}))).
Proof.
  split; [vm_compute; reflexivity|].
  pose proof (highest_listings_sorted (num := Z) ApiScenario.ilike
                ApiScenario.text_ltb ApiScenario.localeCompare
                ApiScenario.toLowerCase
                Z_ltb_asym Z_ltb_negtrans Z_sub_pos Z_sub_neg
                ApiScenario.today ApiScenario.ledger
                {| tp_page := None; tp_limit := None; tp_search := None;
                   tp_sort := Some Highest; tp_filter := None;
                   tp_category := None |}
                {| search := None; sort := Some Highest |}
                eq_refl eq_refl) as [Htx Hbills].
  split; [exact Htx|]. split; [vm_compute; reflexivity|exact Hbills].
Defined.

End Listing.

(* ===================================================================== *)
(** ** Further properties of the writes: round trips, isolation *)
(* ===================================================================== *)

Module Writes.
Import Db.

Lemma balance_of_update_profile u delta now st uid txs ps :
  balance_of uid {| profiles := update_profile_balance u delta now (profiles st);
                    transactions := txs; pots := ps |}
  = (λ b, b + (if decide (u = uid) then delta else 0)) <$> balance_of uid st.
Proof. apply Accrual.balance_update_profile. Qed.

Lemma pot_total_update_pot pot_id delta now (ps : gmap uuid pot) i :
  pot_total <$> update_pot_total pot_id delta now ps !! i
  = (λ x, x + (if decide (pot_id = i) then delta else 0))
      <$> (pot_total <$> ps !! i).
Proof.
  rewrite PotTransfer.lookup_update_pot_total.
  case_decide; destruct (ps !! i); simpl; f_equal; lia.
Qed.

(** X1: a deposit that succeeds can be taken back: the withdrawal of the same
    amount from the same pot succeeds, reports the balance the account
    had before the deposit, and leaves every balance, every pot total and
    every transaction as they were before the deposit. *)
Theorem deposit_then_withdraw_restores uid now now' pot_id amount st v b st1 :
  pots_nonnegative st →
  pot_deposit (Some uid) now pot_id amount st = (success_transfer v b, st1) →
  ∃ v' st2,
    pot_withdraw (Some uid) now' pot_id amount st1
    = (success_transfer v' (balance_of uid st), st2)
    ∧ pot_total <$> v' = pot_total <$> pots st !! pot_id
    ∧ transactions st2 = transactions st
    ∧ (∀ u, balance_of u st2 = balance_of u st)
    ∧ (∀ i, pot_total <$> pots st2 !! i = pot_total <$> pots st !! i).
Proof.
  intros Hnn Hdep.
  apply (PotTransfer.pot_transfer_success Deposit) in Hdep
    as (u & a & p & [= <-] & -> & Ha & Hsel & _ & _ & -> & _ & _).
  simpl pot_change.
  pose proof Hsel as [Hp Hu]%PotTransfer.select_pot_Some.
  pose proof (Hnn _ _ Hp) as Hp0. simpl in Hp0.
  unfold pot_withdraw. cbn [profiles transactions pots].
  destruct (Z.leb_spec a 0); [lia|].
  assert (Hsel' : select_pot pot_id uid (update_pot_total pot_id a now (pots st))
                  = Some (pot_add_total a now p)).
  { apply PotTransfer.select_pot_Some.
    rewrite PotTransfer.lookup_update_pot_total, decide_True, Hp by done.
    done. }
  rewrite Hsel'. simpl pot_total.
  destruct (Z.ltb_spec (pot_total p + a) a); [lia|].
  assert (Hbal : ∀ u,
    balance <$> update_profile_balance uid a now'
                  (update_profile_balance uid (- a) now (profiles st)) !! u
    = balance <$> profiles st !! u).
  { intros u. rewrite !Accrual.balance_update_profile.
    destruct (profiles st !! u); simpl; [|done].
    f_equal. case_decide; lia. }
  assert (Htot : ∀ i,
    pot_total <$> update_pot_total pot_id (- a) now'
                    (update_pot_total pot_id a now (pots st)) !! i
    = pot_total <$> pots st !! i).
  { intros i. rewrite !pot_total_update_pot.
    destruct (pots st !! i); simpl; [|done].
    f_equal. case_decide; lia. }
  eexists _, _. split; [|split; [|split; [|split]]].
  - rewrite Hbal. reflexivity.
  - apply Htot.
  - done.
  - intros u. apply Hbal.
  - apply Htot.
Qed.

Lemma deposit_then_withdraw_restores_witness :
  ∃ v' st2,
    pot_withdraw (Some Scenario.alice) Scenario.march 2%N (Some 40)
                 Scenario.saved
    = (success_transfer v' (Some 100), st2)
    ∧ pot_total <$> v' = Some 0.
Proof.
  destruct (deposit_then_withdraw_restores Scenario.alice Scenario.now0
              Scenario.march 2%N (Some 40) Scenario.funded
              (pots Scenario.saved !! 2%N) (Some 60) Scenario.saved)
    as (v' & st2 & Hw & Hv & _).
  - apply (bool_decide_unpack _). vm_compute. exact I.
  - vm_compute. reflexivity.
  - exists v', st2. split; [exact Hw|exact Hv].
Defined.

(** The trigger touches no profile but those of the rows it is fired for. *)
Lemma trigger_other_profile now ev (ps : gmap uuid profile) u :
  match ev with
  | TG_INSERT NEW => tx_user_id NEW ≠ u
  | TG_UPDATE OLD NEW => tx_user_id OLD ≠ u ∧ tx_user_id NEW ≠ u
  | TG_DELETE OLD => tx_user_id OLD ≠ u
  end →
  update_balance_on_transaction now ev ps !! u = ps !! u.
Proof.
  destruct ev as [NEW|OLD NEW|OLD]; simpl; intros Hu;
    repeat case_match; try done;
    rewrite !PotTransfer.lookup_update_profile_balance;
    rewrite !decide_False by tauto; done.
Qed.

(** X2: tenant isolation of the writes: whatever an operation is and whatever
    ids it names, a request leaves the account of every user other than
    its caller as it was: the profile row, the transactions and the pots
    of that user are neither changed, nor removed, nor added to.  An
    unauthenticated request is such a request for every user. *)
Theorem request_leaves_other_users now auth_uid o st u :
  auth_uid ≠ Some u →
  let st' := execute now (auth_uid, o) st in
  profiles st' !! u = profiles st !! u
  ∧ (∀ i t, tx_user_id t = u →
       transactions st' !! i = Some t ↔ transactions st !! i = Some t)
  ∧ (∀ i p, pot_user_id p = u →
       pots st' !! i = Some p ↔ pots st !! i = Some p).
Proof.
  intros Hu.
  destruct o as [id row|id upd|id|id name target theme|id upd|pot_id amount
                |pot_id amount|pot_id]; simpl.
  - (* createTransaction *)
    unfold insert_transaction. case_decide as Hrow; [|done].
    destruct (transactions st !! id) eqn:Hid; [done|].
    cbn [profiles transactions pots].
    split; [|split; [|done]].
    + apply trigger_other_profile. congruence.
    + intros i t Ht. rewrite lookup_insert_Some. split.
      * intros [[<- <-]|[_ ?]]; [congruence|done].
      * intros Hi. right. split; [|done]. intros <-. congruence.
  - (* updateTransaction *)
    unfold update_transaction.
    destruct (transactions st !! id) as [OLD|] eqn:Hid; [|done].
    case_decide as Hold; [|done]. cbn [profiles transactions pots].
    split; [|split; [|done]].
    + apply trigger_other_profile. simpl. split; congruence.
    + intros i t Ht. rewrite lookup_insert_Some. split.
      * intros [[<- <-]|[_ ?]]; [simpl in Ht; congruence|done].
      * intros Hi. right. split; [|done]. intros <-. congruence.
  - (* deleteTransaction *)
    unfold delete_transaction.
    destruct (transactions st !! id) as [OLD|] eqn:Hid; [|done].
    case_decide as Hold; [|done]. cbn [profiles transactions pots].
    split; [|split; [|done]].
    + apply trigger_other_profile. congruence.
    + intros i t Ht. rewrite lookup_delete_Some. split; [by intros [_ ?]|].
      intros Hi. split; [|done]. intros <-. congruence.
  - (* createPot *)
    unfold insert_pot. destruct auth_uid as [uid|]; [|done].
    destruct (_ || _); [done|].
    destruct (pots st !! id) eqn:Hid; [done|]. simpl.
    split; [done|]. split; [done|].
    intros i p Hp. rewrite lookup_insert_Some. split.
    + intros [[<- <-]|[_ ?]]; [simpl in Hp; congruence|done].
    + intros Hi. right. split; [|done]. intros <-. congruence.
  - (* updatePot *)
    unfold update_pot. destruct (pots st !! id) as [q|] eqn:Hid; [|done].
    case_decide as Hq; [|done]. destruct (_ || _); [done|]. simpl.
    split; [done|]. split; [done|].
    intros i p Hp. rewrite lookup_insert_Some. split.
    + intros [[<- <-]|[_ ?]]; [simpl in Hp; congruence|done].
    + intros Hi. right. split; [|done]. intros <-. congruence.
  - (* pot_deposit *)
    unfold pot_deposit. destruct auth_uid as [uid|]; [|done].
    destruct amount as [a|]; [|done]. destruct (a <=? 0); [done|].
    destruct (select_pot pot_id uid (pots st)) as [q|] eqn:Hsel; [|done].
    destruct (profiles st !! uid) as [prof|]; [|done].
    destruct (_ <? _); [done|]. cbn [snd profiles transactions pots].
    apply PotTransfer.select_pot_Some in Hsel as [Hq Hown].
    split; [|split; [done|]].
    + rewrite PotTransfer.lookup_update_profile_balance.
      rewrite decide_False; [done|congruence].
    + intros i p Hp. rewrite PotTransfer.lookup_update_pot_total.
      case_decide; [subst i|done]. rewrite Hq. simpl. split.
      * intros [= <-]. simpl in Hp. congruence.
      * intros [= <-]. congruence.
  - (* pot_withdraw *)
    unfold pot_withdraw. destruct auth_uid as [uid|]; [|done].
    destruct amount as [a|]; [|done]. destruct (a <=? 0); [done|].
    destruct (select_pot pot_id uid (pots st)) as [q|] eqn:Hsel; [|done].
    destruct (_ <? _); [done|]. cbn [snd profiles transactions pots].
    apply PotTransfer.select_pot_Some in Hsel as [Hq Hown].
    split; [|split; [done|]].
    + rewrite PotTransfer.lookup_update_profile_balance.
      rewrite decide_False; [done|congruence].
    + intros i p Hp. rewrite PotTransfer.lookup_update_pot_total.
      case_decide; [subst i|done]. rewrite Hq. simpl. split.
      * intros [= <-]. simpl in Hp. congruence.
      * intros [= <-]. congruence.
  - (* delete_pot *)
    unfold delete_pot. destruct auth_uid as [uid|]; [|done].
    destruct (select_pot pot_id uid (pots st)) as [q|] eqn:Hsel; [|done].
    cbn [snd profiles transactions pots].
    apply PotTransfer.select_pot_Some in Hsel as [Hq Hown].
    split; [|split; [done|]].
    + destruct (_ <? _); [|done].
      rewrite PotTransfer.lookup_update_profile_balance.
      rewrite decide_False; [done|congruence].
    + intros i p Hp. rewrite lookup_delete_Some. split; [by intros [_ ?]|].
      intros Hi. split; [|done]. intros <-. congruence.
Qed.

Lemma request_leaves_other_users_witness :
  profiles (execute Scenario.now0 (Some Scenario.bob, DeleteTransaction 1%N)
                    Scenario.saved) !! Scenario.alice
  = profiles Scenario.saved !! Scenario.alice
  ∧ transactions (execute Scenario.now0
                    (Some Scenario.bob, DeleteTransaction 1%N) Scenario.saved)
      !! 1%N = Some Scenario.salary.
Proof.
  destruct (request_leaves_other_users Scenario.now0 (Some Scenario.bob)
              (DeleteTransaction 1%N) Scenario.saved Scenario.alice)
    as (Hprof & Htx & _); [vm_compute; congruence|].
  split; [exact Hprof|].
  apply (Htx 1%N Scenario.salary); vm_compute; reflexivity.
Defined.

(** On an UPDATE the trigger does what it does on the DELETE of the old row
    followed by the INSERT of the new one. *)
Lemma trigger_update_split now OLD NEW (ps : gmap uuid profile) :
  update_balance_on_transaction now (TG_UPDATE OLD NEW) ps
  = update_balance_on_transaction now (TG_INSERT NEW)
      (update_balance_on_transaction now (TG_DELETE OLD) ps).
Proof.
  simpl. by destruct (in_current_month now (tx_date OLD)),
              (in_current_month now (tx_date NEW)).
Qed.

(** X3: an update of a transaction has the effect of deleting the stored row
    and inserting the updated one under the same id: the same balances,
    the same rows. *)
Theorem update_is_delete_then_insert auth_uid now id u st OLD :
  transactions st !! id = Some OLD →
  update_transaction auth_uid now id u st
  = insert_transaction auth_uid now id (apply_update u OLD)
      (delete_transaction auth_uid now id st).
Proof.
  intros Hid. unfold update_transaction, delete_transaction. rewrite Hid.
  unfold insert_transaction. simpl tx_user_id.
  case_decide as Hauth; cbn [profiles transactions pots].
  - by rewrite lookup_delete_eq, insert_delete_eq, trigger_update_split.
  - done.
Qed.

Lemma update_is_delete_then_insert_witness :
  let st := replay Scenario.now0 (take 2 Scenario.writes) Scenario.opened in
  let u := {| set_name := None; set_amount := Some (-35);
              set_category := None; set_date := None; set_avatar := None;
              set_recurring := None |} in
  update_transaction (Some Scenario.alice) Scenario.now0 4%N u st
  = insert_transaction (Some Scenario.alice) Scenario.now0 4%N
      (apply_update u Scenario.rent)
      (delete_transaction (Some Scenario.alice) Scenario.now0 4%N st).
Proof.
  intros st u.
  apply (update_is_delete_then_insert (Some Scenario.alice) Scenario.now0 4%N
           u st Scenario.rent).
  vm_compute. reflexivity.
Defined.

(** X4: recording a transaction changes the balance of its owner by the amount
    if the date lies in the window the trigger tests, and no other
    balance; deleting the transaction again restores every balance, the
    transactions and the pots. *)
Theorem insert_then_delete_restores auth_uid now id row st :
  auth_uid = Some (tx_user_id row) →
  transactions st !! id = None →
  let st1 := insert_transaction auth_uid now id row st in
  let st2 := delete_transaction auth_uid now id st1 in
  transactions st1 !! id = Some row
  ∧ (∀ u, balance_of u st1
          = (λ b, b + contribution now u row) <$> balance_of u st)
  ∧ transactions st2 = transactions st
  ∧ pots st2 = pots st
  ∧ ∀ u, balance_of u st2 = balance_of u st.
Proof.
  intros -> Hid. unfold insert_transaction. rewrite decide_True, Hid by done.
  unfold delete_transaction. cbn [profiles transactions pots].
  rewrite lookup_insert_eq, decide_True by done.
  cbn [profiles transactions pots].
  split; [done|].
  split; [|split; [|split; [done|]]].
  - intros u. unfold balance_of. cbn [profiles].
    by rewrite Accrual.trigger_balance.
  - by rewrite delete_insert_eq, delete_id.
  - intros u. unfold balance_of. cbn [profiles].
    rewrite !Accrual.trigger_balance. simpl.
    destruct (profiles st !! u); simpl; [|done]. f_equal. lia.
Qed.

Lemma insert_then_delete_restores_witness :
  balance_of Scenario.alice
    (insert_transaction (Some Scenario.alice) Scenario.now0 1%N Scenario.salary
                        Scenario.opened) = Some 100
  ∧ balance_of Scenario.alice
      (delete_transaction (Some Scenario.alice) Scenario.now0 1%N
         (insert_transaction (Some Scenario.alice) Scenario.now0 1%N
                             Scenario.salary Scenario.opened)) = Some 0.
Proof.
  destruct (insert_then_delete_restores (Some Scenario.alice) Scenario.now0
              1%N Scenario.salary Scenario.opened)
    as (_ & H1 & _ & _ & H2); [reflexivity|reflexivity|].
  split; [rewrite H1|rewrite H2]; vm_compute; reflexivity.
Defined.

(** X5: a transaction that is recorded while its date lies in the window and
    deleted once the window has moved on (the month has turned) leaves its
    amount in the balance of its owner: the trigger takes back only what
    is dated in the window of the time of the deletion. *)
Theorem delete_after_the_month_keeps_amount auth_uid now now' id row st :
  auth_uid = Some (tx_user_id row) →
  transactions st !! id = None →
  in_current_month now (tx_date row) = true →
  in_current_month now' (tx_date row) = false →
  let st2 :=
    delete_transaction auth_uid now' id
      (insert_transaction auth_uid now id row st) in
  transactions st2 = transactions st
  ∧ balance_of (tx_user_id row) st2
    = (λ b, b + tx_amount row) <$> balance_of (tx_user_id row) st
  ∧ ∀ u, u ≠ tx_user_id row → balance_of u st2 = balance_of u st.
Proof.
  intros -> Hid Hin Hout. unfold insert_transaction.
  rewrite decide_True, Hid by done.
  unfold delete_transaction. cbn [profiles transactions pots].
  rewrite lookup_insert_eq, decide_True by done.
  cbn [profiles transactions pots].
  split; [by rewrite delete_insert_eq, delete_id|].
  unfold balance_of. cbn [profiles].
  split; [|intros u Hu]; rewrite !Accrual.trigger_balance; simpl;
    unfold contribution; rewrite Hin, Hout, ?andb_false_r.
  - rewrite bool_decide_eq_true_2 by done. simpl.
    destruct (profiles st !! tx_user_id row); simpl; [|done]. f_equal. lia.
  - rewrite bool_decide_eq_false_2 by done. simpl.
    destruct (profiles st !! u); simpl; [|done]. f_equal. lia.
Qed.

Lemma delete_after_the_month_keeps_amount_witness :
  let st2 :=
    delete_transaction (Some Scenario.alice) Scenario.march 1%N
      (insert_transaction (Some Scenario.alice) Scenario.now0 1%N
                          Scenario.salary Scenario.opened) in
  transactions st2 = ∅ ∧ balance_of Scenario.alice st2 = Some 100.
Proof.
  intros st2.
  destruct (delete_after_the_month_keeps_amount (Some Scenario.alice)
              Scenario.now0 Scenario.march 1%N Scenario.salary
              Scenario.opened) as (Htx & Hbal & _);
    [reflexivity|reflexivity|vm_compute; reflexivity|vm_compute; reflexivity|].
  split; [exact Htx|]. etrans; [exact Hbal|]. vm_compute. reflexivity.
Defined.

(** X6: a transfer that succeeds never overdraws its source: after a deposit
    the balance that is reported is not negative, after a withdrawal the
    total of the pot is not negative, so that the [CHECK (total >= 0)] of
    [pots] cannot reject the update. *)
Theorem transfer_never_overdraws k auth_uid now pot_id amount st v b st' :
  pot_transfer k auth_uid now pot_id amount st = (success_transfer v b, st') →
  match k with
  | Deposit => ∃ x, b = Some x ∧ 0 <= x
  | Withdraw => ∃ p, v = Some p ∧ pots st' !! pot_id = Some p
                     ∧ 0 <= pot_total p
  end.
Proof.
  intros Hk.
  apply PotTransfer.pot_transfer_success in Hk
    as (uid & a & p & -> & -> & Ha & Hsel & Hdep & Hwd & -> & -> & ->).
  apply PotTransfer.select_pot_Some in Hsel as [Hp Hu].
  cbn [profiles transactions pots]. destruct k; simpl pot_change.
  - destruct Hdep as (prof & Hprof & Hle); [done|].
    rewrite PotTransfer.lookup_update_profile_balance, decide_True, Hprof
      by done.
    simpl. eexists. split; [done|lia].
  - specialize (Hwd eq_refl).
    rewrite PotTransfer.lookup_update_pot_total, decide_True, Hp by done.
    simpl. eexists. split; [done|]. split; [done|]. simpl. lia.
Qed.

Lemma transfer_never_overdraws_witness :
  ∃ x, balance_of Scenario.alice Scenario.saved = Some x ∧ 0 <= x.
Proof.
  exact (transfer_never_overdraws Deposit (Some Scenario.alice) Scenario.now0
           2%N (Some 40) Scenario.funded (pots Scenario.saved !! 2%N)
           (balance_of Scenario.alice Scenario.saved) Scenario.saved eq_refl).
Defined.

(** X7: a pot that has just been created can be deleted again, and the store
    is then exactly what it was before the pot was created: a new pot
    holds no money, so no balance is touched. *)
Theorem create_then_delete_pot uid now now' id name target theme st :
  0 <= target →
  theme_taken uid theme None (pots st) = false →
  pots st !! id = None →
  let st1 := insert_pot (Some uid) now id name target theme st in
  (pot_total <$> pots st1 !! id = Some 0)
  ∧ delete_pot (Some uid) now' id st1 = (success, st).
Proof.
  intros Htarget Htheme Hid. unfold insert_pot.
  destruct (Z.ltb_spec target 0); [lia|]. rewrite Htheme, Hid. simpl.
  split; [by rewrite lookup_insert_eq|].
  unfold delete_pot, select_pot. cbn [profiles transactions pots].
  rewrite lookup_insert_eq. simpl. rewrite decide_True by done. simpl.
  rewrite delete_insert_eq, delete_id by done. by destruct st.
Qed.

Lemma create_then_delete_pot_witness :
  delete_pot (Some Scenario.alice) Scenario.march 9%N
    (insert_pot (Some Scenario.alice) Scenario.now0 9%N "Bike" 300 "blue"
                Scenario.saved)
  = (success, Scenario.saved).
Proof.
  refine (proj2 (create_then_delete_pot Scenario.alice Scenario.now0
                   Scenario.march 9%N "Bike" 300 "blue" Scenario.saved
                   _ _ _)).
  - lia.
  - vm_compute. reflexivity.
  - vm_compute. reflexivity.
Defined.

(** *** The constraints of [pots] *)

Lemma theme_taken_false uid theme except (ps : gmap uuid pot) :
  theme_taken uid theme except ps = false →
  ∀ j q, ps !! j = Some q → Some j ≠ except → pot_user_id q = uid →
         pot_theme q ≠ theme.
Proof.
  unfold theme_taken. intros Hfalse%bool_decide_eq_false j q Hq Hj Hu Htheme.
  apply Hfalse. by exists j, q.
Qed.

Lemma constraints_update_pot_total pot_id delta now p st profiles' :
  pots st !! pot_id = Some p →
  0 <= pot_total p + delta →
  Queries.pots_constraints st →
  Queries.pots_constraints
    {| profiles := profiles';
       transactions := transactions st;
       pots := update_pot_total pot_id delta now (pots st) |}.
Proof.
  intros Hp Hdelta [Hchecks Hunique]. split; cbn [pots].
  - intros i q. rewrite PotTransfer.lookup_update_pot_total.
    case_decide; [subst i; rewrite Hp|by apply Hchecks].
    intros [= <-]. simpl. split; [|done]. by apply (Hchecks pot_id p).
  - intros i j q q'. rewrite !PotTransfer.lookup_update_pot_total.
    intros Hq Hq'.
    assert (∃ q0, pots st !! i = Some q0 ∧ pot_user_id q0 = pot_user_id q
                  ∧ pot_theme q0 = pot_theme q) as (q0 & Hq0 & <- & <-).
    { destruct (decide (pot_id = i)) as [<-|]; [|by eauto].
      rewrite Hp in Hq. injection Hq as <-. by eauto. }
    assert (∃ q1, pots st !! j = Some q1 ∧ pot_user_id q1 = pot_user_id q'
                  ∧ pot_theme q1 = pot_theme q') as (q1 & Hq1 & <- & <-).
    { destruct (decide (pot_id = j)) as [<-|]; [|by eauto].
      rewrite Hp in Hq'. injection Hq' as <-. by eauto. }
    by apply Hunique.
Qed.

Lemma execute_keeps_constraints now r st :
  Queries.pots_constraints st → Queries.pots_constraints (execute now r st).
Proof.
  intros Hc. pose proof Hc as [Hchecks Hunique].
  destruct r as [auth_uid o].
  destruct o as [id row|id upd|id|id name target theme|id upd|pot_id amount
                |pot_id amount|pot_id]; simpl.
  - unfold insert_transaction. by repeat case_match.
  - unfold update_transaction. by repeat case_match.
  - unfold delete_transaction. by repeat case_match.
  - (* createPot *)
    unfold insert_pot. destruct auth_uid as [uid|]; [|done].
    destruct (Z.ltb_spec target 0); [done|].
    destruct (theme_taken uid theme None (pots st)) eqn:Htaken; [done|].
    destruct (pots st !! id) eqn:Hid; [done|]. simpl.
    pose proof (theme_taken_false _ _ _ _ Htaken) as Hfree.
    split; cbn [pots].
    + apply map_Forall_insert_2; [simpl; lia|done].
    + intros i j p q. rewrite !lookup_insert_Some.
      intros [[<- <-]|[Hi Hp]] [[<- <-]|[Hj Hq]]; simpl; try done.
      * intros Hu Htheme. by destruct (Hfree j q Hq).
      * intros Hu Htheme. by destruct (Hfree i p Hp).
      * by apply Hunique.
  - (* updatePot *)
    unfold update_pot. destruct (pots st !! id) as [p0|] eqn:Hid; [|done].
    case_decide; [|done].
    destruct (Z.ltb_spec (pot_target (apply_pot_update upd p0)) 0); [done|].
    destruct (theme_taken _ _ _ _) eqn:Htaken; [done|]. simpl.
    pose proof (theme_taken_false _ _ _ _ Htaken) as Hfree.
    split; cbn [pots].
    + apply map_Forall_insert_2; [|done]. split; [done|].
      by apply (Hchecks id p0).
    + intros i j p q. rewrite !lookup_insert_Some.
      intros [[<- <-]|[Hi Hp]] [[<- <-]|[Hj Hq]]; try done.
      * intros Hu Htheme. destruct (Hfree j q Hq); [congruence|done|done].
      * intros Hu Htheme. destruct (Hfree i p Hp); [congruence|done|done].
      * by apply Hunique.
  - (* pot_deposit *)
    unfold pot_deposit. destruct auth_uid as [uid|]; [|done].
    destruct amount as [a|]; [|done]. destruct (Z.leb_spec a 0); [done|].
    destruct (select_pot pot_id uid (pots st)) as [p|] eqn:Hsel; [|done].
    destruct (profiles st !! uid) as [prof|]; [|done].
    destruct (_ <? _); [done|]. cbn [snd].
    apply PotTransfer.select_pot_Some in Hsel as [Hp _].
    apply (constraints_update_pot_total pot_id a now p); [done| |done].
    destruct (Hchecks pot_id p Hp). lia.
  - (* pot_withdraw *)
    unfold pot_withdraw. destruct auth_uid as [uid|]; [|done].
    destruct amount as [a|]; [|done]. destruct (Z.leb_spec a 0); [done|].
    destruct (select_pot pot_id uid (pots st)) as [p|] eqn:Hsel; [|done].
    destruct (Z.ltb_spec (pot_total p) a); [done|]. cbn [snd].
    apply PotTransfer.select_pot_Some in Hsel as [Hp _].
    apply (constraints_update_pot_total pot_id (- a) now p); [done|lia|done].
  - (* delete_pot *)
    unfold delete_pot. destruct auth_uid as [uid|]; [|done].
    destruct (select_pot pot_id uid (pots st)) as [p|] eqn:Hsel; [|done].
    cbn [snd]. split; cbn [pots].
    + by apply map_Forall_delete.
    + intros i j q q'. rewrite !lookup_delete_Some.
      intros [_ Hq] [_ Hq']. by apply Hunique.
Qed.

(** X8: the constraints of [pots] hold in every store that requests reach from
    new accounts: no target and no total is negative, and no user has two
    pots of one theme.  The stored functions, which the database runs
    with the constraints in force, never attempt an update that the
    constraints would reject. *)
Theorem replay_keeps_constraints t0 now users rs :
  Queries.pots_constraints (replay now rs (new_accounts t0 users)).
Proof.
  assert (Hinit : Queries.pots_constraints (new_accounts t0 users)).
  { split; simpl; [apply map_Forall_empty|].
    intros i j p q Hp. by rewrite lookup_empty in Hp. }
  revert Hinit. generalize (new_accounts t0 users).
  induction rs as [|r rs IH]; intros st Hst; [done|].
  change (replay now (r :: rs) st) with (replay now rs (execute now r st)).
  by apply IH, execute_keeps_constraints.
Qed.

End Writes.

(* ===================================================================== *)
(** ** Properties of the read functions *)
(* ===================================================================== *)

Module Reports.
Import Db Queries.

Lemma COALESCE_SUM l : COALESCE (SUM l) 0 = foldr Z.add 0 l.
Proof. by destruct l. Qed.

Lemma COALESCE_ABS_SUM l : COALESCE (ABS (SUM l)) 0 = Z.abs (foldr Z.add 0 l).
Proof. by destruct l. Qed.

(** The sum of the amounts of the rows a query selects is the sum that
    [sum_where] takes over the table. *)
Lemma sum_amounts_select condition (txs : gmap uuid transaction) :
  foldr Z.add 0 (amounts (select_where condition txs))
  = sum_where condition txs.
Proof.
  unfold sum_where, select_where, scan, amounts. rewrite map_fold_foldr.
  induction (map_to_list txs) as [|[i t] l IH]; [done|].
  rewrite filter_cons. cbn [snd uncurry foldr].
  destruct (condition t).
  - rewrite decide_True by done. rewrite fmap_cons. cbn [snd foldr].
    rewrite IH. lia.
  - rewrite decide_False by done. exact IH.
Qed.

Lemma sum_over_insert {A} (f : A → numeric) i x (m : gmap uuid A) :
  m !! i = None → sum_over f (<[i := x]> m) = sum_over f m + f x.
Proof.
  intros Hi. unfold sum_over. rewrite map_fold_insert_L; [done| |done].
  intros. lia.
Qed.

Lemma sum_over_nonneg {A} (f : A → numeric) (m : gmap uuid A) :
  (∀ x, 0 <= f x) → 0 <= sum_over f m.
Proof.
  intros Hf. induction m as [|i x m Hi IH] using map_ind; [done|].
  rewrite sum_over_insert by done. specialize (Hf x). lia.
Qed.

(** Over rows whose amounts are negative, the absolute value of the sum is
    the sum of the absolute values. *)
Lemma abs_sum_where selected (txs : gmap uuid transaction) :
  (∀ t, selected t = true → tx_amount t < 0) →
  Z.abs (sum_where selected txs)
  = sum_over (λ t, if selected t then Z.abs (tx_amount t) else 0) txs
  ∧ sum_where selected txs <= 0.
Proof.
  intros Hneg. induction txs as [|i t txs Hi [IH1 IH2]] using map_ind;
    [done|].
  rewrite Accrual.sum_where_insert, sum_over_insert by done.
  specialize (Hneg t). destruct (selected t); lia.
Qed.

Lemma get_budget_spent_eq now uid c (txs : gmap uuid transaction) :
  get_budget_spent now uid c txs = - sum_where (is_spending now uid c) txs.
Proof.
  unfold get_budget_spent. rewrite COALESCE_ABS_SUM, sum_amounts_select.
  fold (is_spending now uid c).
  destruct (abs_sum_where (is_spending now uid c) txs) as [_ Hle]; [|lia].
  intros t. unfold is_spending. rewrite !andb_true_iff. lia.
Qed.

(** X9: what is spent in a category is the sum of the absolute amounts of the
    expenses that [get_budget_spent] selects (the owner's, of the category,
    dated in the window), and it is not negative. *)
Theorem spent_is_sum_of_expenses now uid c (txs : gmap uuid transaction) :
  get_budget_spent now uid c txs
  = sum_over (λ t, if is_spending now uid c t then Z.abs (tx_amount t) else 0)
             txs
  ∧ 0 <= get_budget_spent now uid c txs.
Proof.
  assert (get_budget_spent now uid c txs
          = sum_over (λ t, if is_spending now uid c t
                           then Z.abs (tx_amount t) else 0) txs) as ->.
  { rewrite get_budget_spent_eq.
    destruct (abs_sum_where (is_spending now uid c) txs) as [Habs Hle];
      [|lia].
    intros t. unfold is_spending. rewrite !andb_true_iff. lia. }
  split; [done|]. apply sum_over_nonneg. intros t.
  destruct (is_spending now uid c t); lia.
Qed.

(** X10: recording an expense dated in the window lowers the balance of its
    owner by the absolute amount and raises by as much what is spent in
    the category of the expense; what is spent in the other categories
    stays. *)
Theorem expense_counts_in_budget_and_balance now id row st c :
  transactions st !! id = None →
  tx_amount row < 0 →
  in_current_month now (tx_date row) = true →
  let uid := tx_user_id row in
  let st' := insert_transaction (Some uid) now id row st in
  get_budget_spent now uid c (transactions st')
  = get_budget_spent now uid c (transactions st)
    + (if decide (tx_category row = c) then Z.abs (tx_amount row) else 0)
  ∧ balance_of uid st'
    = (λ b, b - Z.abs (tx_amount row)) <$> balance_of uid st.
Proof.
  intros Hid Hneg Hwin uid st'. subst st'. unfold insert_transaction.
  rewrite decide_True, Hid by done. cbn [profiles transactions pots]. split.
  - rewrite !get_budget_spent_eq, Accrual.sum_where_insert by done.
    unfold is_spending at 2. subst uid.
    rewrite bool_decide_eq_true_2, Hwin by done.
    destruct (Z.ltb_spec (tx_amount row) 0); [|lia]. simpl.
    case_decide.
    + rewrite bool_decide_eq_true_2 by done. simpl. lia.
    + rewrite bool_decide_eq_false_2 by done. simpl. lia.
  - unfold balance_of. cbn [profiles]. rewrite Accrual.trigger_balance.
    simpl. unfold contribution. subst uid.
    rewrite bool_decide_eq_true_2, Hwin by done. simpl.
    destruct (profiles st !! tx_user_id row); simpl; [|done]. f_equal. lia.
Qed.

Lemma expense_counts_in_budget_and_balance_witness :
  let groceries :=
    {| tx_user_id := Scenario.alice;
       tx_avatar := "/assets/images/avatars/default.jpg";
       tx_name := "Market"; tx_category := Groceries;
       tx_date := {| ts_year := 2024; ts_month := 2; ts_day := 9;
                     ts_usec := 0 |};
       tx_amount := -25; tx_recurring := false;
       tx_created_at := Scenario.now0; tx_updated_at := Scenario.now0 |} in
  let st' :=
    insert_transaction (Some Scenario.alice) Scenario.now0 6%N groceries
                       Scenario.saved in
  get_budget_spent Scenario.now0 Scenario.alice Groceries (transactions st')
  = 25
  ∧ balance_of Scenario.alice st' = Some 35.
Proof.
  intros groceries st'.
  destruct (expense_counts_in_budget_and_balance Scenario.now0 6%N groceries
              Scenario.saved Groceries) as [Hspent Hbal];
    [vm_compute; reflexivity|simpl; lia|vm_compute; reflexivity|].
  split; (etrans; [eassumption|vm_compute; reflexivity]).
Defined.

Lemma period_sum_split now uid (txs : gmap uuid transaction) :
  period_sum now uid txs
  = period_income now uid txs - total_spent now uid txs.
Proof.
  unfold total_spent, categories. cbn [fmap list_fmap foldr].
  rewrite !get_budget_spent_eq. unfold period_sum, period_income.
  induction txs as [|i t txs Hi IH] using map_ind.
  { unfold sum_where. rewrite !map_fold_empty. done. }
  rewrite !Accrual.sum_where_insert by done. unfold is_spending in *.
  destruct (bool_decide (tx_user_id t = uid)),
    (in_current_month now (tx_date t)), (tx_category t);
    destruct (Z.ltb_spec (tx_amount t) 0), (Z.ltb_spec 0 (tx_amount t));
    simpl; lia.
Qed.

(** X11: in every store that requests reach from new accounts, the balance of
    an account together with its pots is the income dated in the window
    less what [get_budget_spent] reports over the ten categories: the
    trigger and the budgets account for the same expenses. *)
Theorem funds_are_income_less_spent t0 now users rs uid prof :
  let st := replay now rs (new_accounts t0 users) in
  profiles st !! uid = Some prof →
  balance prof + pots_sum uid (pots st)
  = period_income now uid (transactions st)
    - total_spent now uid (transactions st).
Proof.
  intros st Hprof. rewrite <- period_sum_split.
  by apply (Accrual.replay_preserves_funds now rs (new_accounts t0 users)
              (Accrual.new_accounts_funds t0 now users)).
Qed.

Lemma funds_are_income_less_spent_witness :
  ∃ prof,
    profiles Scenario.saved !! Scenario.alice = Some prof
    ∧ balance prof + pots_sum Scenario.alice (pots Scenario.saved)
      = period_income Scenario.now0 Scenario.alice
                      (transactions Scenario.saved)
        - total_spent Scenario.now0 Scenario.alice
                      (transactions Scenario.saved).
Proof.
  eexists. split; [vm_compute; reflexivity|].
  apply (funds_are_income_less_spent Scenario.now0 Scenario.now0
           {[ Scenario.alice := "Alice" ]}
           [ (Some Scenario.alice, CreateTransaction 1%N Scenario.salary);
             (Some Scenario.alice, CreatePot 2%N "Holiday" 500 "green");
             (Some Scenario.bob, CreatePot 3%N "Car" 1000 "red");
             (Some Scenario.alice, DepositToPot 2%N (Some 40)) ]).
  vm_compute. reflexivity.
Defined.

Lemma sum_where_split uid (txs : gmap uuid transaction) :
  0 <= sum_where (λ t, bool_decide (tx_user_id t = uid) && (0 <? tx_amount t))
                 txs
  ∧ sum_where (λ t, bool_decide (tx_user_id t = uid) && (tx_amount t <? 0))
              txs <= 0
  ∧ sum_where (λ t, bool_decide (tx_user_id t = uid) && (0 <? tx_amount t))
              txs
    + sum_where (λ t, bool_decide (tx_user_id t = uid) && (tx_amount t <? 0))
                txs
    = net_total uid txs.
Proof.
  unfold net_total. induction txs as [|i t txs Hi IH] using map_ind.
  { unfold sum_where. rewrite !map_fold_empty. done. }
  rewrite !Accrual.sum_where_insert by done.
  destruct (bool_decide (tx_user_id t = uid));
    destruct (Z.ltb_spec (tx_amount t) 0), (Z.ltb_spec 0 (tx_amount t));
    simpl; lia.
Qed.

(** X12: [get_balance] answers every authenticated caller, with 0 for the
    balance of a caller who has no profile row; the income and the
    expenses it reports are not negative and span all time: their
    difference is the sum of the amounts of all the caller's
    transactions. *)
Theorem get_balance_figures uid st :
  ∃ d,
    get_balance (Some uid) st = balance_success d
    ∧ currentBalance d = default 0 (balance_of uid st)
    ∧ 0 <= income d
    ∧ 0 <= expenses d
    ∧ income d - expenses d = net_total uid (transactions st).
Proof.
  eexists. split; [reflexivity|]. cbn [currentBalance income expenses].
  unfold v_income, v_expenses.
  rewrite COALESCE_SUM, COALESCE_ABS_SUM, !sum_amounts_select.
  destruct (sum_where_split uid (transactions st)) as (Hin & Hout & Hnet).
  split; [done|]. lia.
Qed.

(** X13: while all the transactions of an account are dated in the window, the
    balance that [get_balance] reports, together with what the account
    holds in pots, is the income less the expenses that it reports. *)
Theorem balance_is_income_less_expenses t0 now users rs uid d :
  let st := replay now rs (new_accounts t0 users) in
  is_Some (profiles st !! uid) →
  map_Forall (λ _ t, tx_user_id t = uid →
                     in_current_month now (tx_date t) = true)
             (transactions st) →
  get_balance (Some uid) st = balance_success d →
  currentBalance d + pots_sum uid (pots st) = income d - expenses d.
Proof.
  intros st [prof Hprof] Hwin [= <-]. subst st.
  cbn [currentBalance income expenses]. unfold v_income, v_expenses.
  rewrite COALESCE_SUM, COALESCE_ABS_SUM, !sum_amounts_select.
  destruct (sum_where_split uid
              (transactions (replay now rs (new_accounts t0 users))))
    as (_ & Hout & Hnet).
  rewrite Z.abs_neq, Z.sub_opp_r, Hnet, Hprof by done. simpl.
  pose proof (proj1 (Accrual.replay_preserves_funds now rs
                       (new_accounts t0 users)
                       (Accrual.new_accounts_funds t0 now users))
                    uid prof Hprof) as ->.
  unfold period_sum, net_total. apply Accrual.sum_where_ext.
  intros i t Ht. specialize (Hwin i t Ht). simpl in *.
  case_bool_decide; [|done]. by rewrite Hwin.
Qed.

Lemma balance_is_income_less_expenses_witness :
  ∃ d,
    get_balance (Some Scenario.alice) Scenario.saved = balance_success d
    ∧ currentBalance d + pots_sum Scenario.alice (pots Scenario.saved)
      = income d - expenses d.
Proof.
  eexists. split; [reflexivity|].
  apply (balance_is_income_less_expenses Scenario.now0 Scenario.now0
           {[ Scenario.alice := "Alice" ]}
           [ (Some Scenario.alice, CreateTransaction 1%N Scenario.salary);
             (Some Scenario.alice, CreatePot 2%N "Holiday" 500 "green");
             (Some Scenario.bob, CreatePot 3%N "Car" 1000 "red");
             (Some Scenario.alice, DepositToPot 2%N (Some 40)) ]).
  - vm_compute. eauto.
  - apply (bool_decide_unpack _). vm_compute. exact I.
  - reflexivity.
Defined.

(** *** Queries: selection, order, limit *)

Lemma elem_of_select_where {A} (condition : A → bool) (table : gmap uuid A)
    id x :
  (id, x) ∈ select_where condition table
  ↔ table !! id = Some x ∧ condition x = true.
Proof.
  unfold select_where, scan.
  rewrite list_elem_of_filter, elem_of_map_to_list. simpl. tauto.
Qed.

Lemma NoDup_select_where {A} (condition : A → bool) (table : gmap uuid A) :
  NoDup (select_where condition table).*1.
Proof.
  unfold select_where, scan.
  eapply sublist_NoDup; [apply (NoDup_fst_map_to_list table)|].
  apply fmap_sublist, sublist_filter.
Qed.

Lemma ts_leb_trans a b c :
  ts_leb a b = true → ts_leb b c = true → ts_leb a c = true.
Proof. rewrite !Accrual.ts_leb_true. lia. Qed.

Lemma ts_leb_total a b : ts_leb a b = true ∨ ts_leb b a = true.
Proof. rewrite !Accrual.ts_leb_true. lia. Qed.

Lemma ts_ltb_false a b : ts_ltb a b = false ↔ ts_leb b a = true.
Proof. unfold ts_ltb. by destruct (ts_leb b a). Qed.

Lemma ts_ltb_asym a b : ts_ltb a b = true → ts_ltb b a = false.
Proof.
  rewrite ts_ltb_false. unfold ts_ltb.
  destruct (ts_leb_total a b) as [->| ->]; [done|]. discriminate.
Qed.

Lemma ts_ltb_negtrans a b c :
  ts_ltb a b = false → ts_ltb b c = false → ts_ltb a c = false.
Proof. rewrite !ts_ltb_false. eauto using ts_leb_trans. Qed.

(** The first [k] rows of a sorted listing: they are sorted, they come from
    the rows that were sorted, and whatever is left out may stand behind
    each of them. *)
Section TopK.
Context {A : Type} (goes_after : A → A → bool).
Hypothesis goes_after_asym :
  ∀ x y, goes_after x y = true → goes_after y x = false.
Hypothesis precedes_trans :
  ∀ x y z, Api.may_precede goes_after x y → Api.may_precede goes_after y z →
           Api.may_precede goes_after x z.

Lemma take_sorted_top k (l : list A) :
  let top := take k (Api.stable_sort goes_after l) in
  length top = (k `min` length l)%nat
  ∧ StronglySorted (Api.may_precede goes_after) top
  ∧ (NoDup l → NoDup top)
  ∧ (∀ x, x ∈ top → x ∈ l)
  ∧ ∀ x y, x ∈ top → y ∈ l → y ∉ top → Api.may_precede goes_after x y.
Proof.
  intros top. subst top.
  pose proof (Listing.stable_sort_Permutation goes_after l) as Hperm.
  pose proof (Listing.stable_sort_sorted goes_after goes_after_asym
                precedes_trans l) as Hsorted.
  split; [by rewrite length_take, Hperm|].
  split; [eapply Listing.StronglySorted_sublist;
          [apply sublist_take|done]|].
  split.
  { intros Hnd. eapply sublist_NoDup; [|apply sublist_take].
    by rewrite Hperm. }
  split.
  { intros x Hx. rewrite <- Hperm.
    eapply elem_of_sublist; [done|apply sublist_take]. }
  intros x y Hx Hy Hny.
  rewrite <- (take_drop k (Api.stable_sort goes_after l)) in Hsorted.
  apply StronglySorted_app in Hsorted as (Happ & _ & _).
  apply Happ; [done|].
  rewrite <- Hperm, <- (take_drop k (Api.stable_sort goes_after l)) in Hy.
  apply elem_of_app in Hy as [Hy|Hy]; done.
Qed.

End TopK.

Lemma order_by_date_desc_top k (rows : list (uuid * transaction)) :
  let top := LIMIT k (order_by_date_desc rows) in
  length top = (k `min` length rows)%nat
  ∧ StronglySorted not_older top
  ∧ (NoDup rows → NoDup top)
  ∧ (∀ x, x ∈ top → x ∈ rows)
  ∧ ∀ x y, x ∈ top → y ∈ rows → y ∉ top → not_older x y.
Proof.
  destruct (take_sorted_top
              (λ a b : uuid * transaction, ts_ltb (tx_date a.2) (tx_date b.2))
              (λ x y, ts_ltb_asym _ _)
              (λ x y z, ts_ltb_negtrans _ _ _) k rows)
    as (Hlen & Hsorted & Hnd & Hin & Hout).
  split; [done|]. split.
  { eapply Listing.StronglySorted_weaken; [|exact Hsorted].
    intros x y. unfold Api.may_precede, not_older. by rewrite ts_ltb_false. }
  split; [done|]. split; [done|].
  intros x y Hx Hy Hny. specialize (Hout x y Hx Hy Hny).
  unfold Api.may_precede in Hout. by apply ts_ltb_false.
Qed.

(** *** [get_budgets] *)

(** X14: [get_budgets] returns one row for each budget of the caller and none
    for any other budget; what it reports as spent is not negative, and
    [remaining] is [maximum - spent], negative when the budget is
    overspent. *)
Theorem get_budgets_rows uid now (bs : gmap uuid budget)
    (txs : gmap uuid transaction) :
  ∃ rows,
    get_budgets (Some uid) now bs txs = budgets_success rows
    ∧ NoDup (row_id <$> rows)
    ∧ (∀ id b, (∃ r, r ∈ rows ∧ row_id r = id ∧ row_budget r = b)
               ↔ bs !! id = Some b ∧ budget_user_id b = uid)
    ∧ ∀ r, r ∈ rows →
        spent r
        = get_budget_spent now uid (budget_category (row_budget r)) txs
        ∧ 0 <= spent r
        ∧ remaining r = budget_maximum (row_budget r) - spent r
        ∧ (remaining r < 0 ↔ budget_maximum (row_budget r) < spent r).
Proof.
  eexists. split; [reflexivity|]. split; [|split].
  - rewrite <- list_fmap_compose.
    apply (NoDup_select_where
             (λ b, bool_decide (budget_user_id b = uid)) bs).
  - intros id b. split.
    + intros (r & Hr & <- & <-).
      apply list_elem_of_fmap in Hr as ([id b] & -> & Hr).
      apply elem_of_select_where in Hr as [Hb Hu]. simpl.
      split; [done|]. by apply bool_decide_eq_true in Hu.
    + intros [Hb Hu]. eexists. split.
      * apply list_elem_of_fmap. exists (id, b). split; [reflexivity|].
        apply elem_of_select_where. split; [done|].
        by apply bool_decide_eq_true.
      * done.
  - intros r Hr. apply list_elem_of_fmap in Hr as ([id b] & -> & Hr). simpl.
    split; [done|].
    assert (0 <= get_budget_spent now uid (budget_category b) txs).
    { rewrite get_budget_spent_eq.
      destruct (abs_sum_where (is_spending now uid (budget_category b)) txs)
        as [_ Hle]; [|lia].
      intros t. unfold is_spending. rewrite !andb_true_iff. lia. }
    split; [done|]. split; [done|]. lia.
Qed.

(** X15: the latest transactions of a budget row are at most three; they are
    expenses of the caller in the category of the budget, whatever their
    month, newest first; an expense of that category that is not listed
    was left out because three others are listed that are not older. *)
Theorem get_budgets_latest uid now (bs : gmap uuid budget)
    (txs : gmap uuid transaction) rows r :
  get_budgets (Some uid) now bs txs = budgets_success rows →
  r ∈ rows →
  let matching id t :=
    txs !! id = Some t ∧ tx_user_id t = uid
    ∧ tx_category t = budget_category (row_budget r) ∧ tx_amount t < 0 in
  (length (latest_transactions r) <= 3)%nat
  ∧ NoDup (latest_transactions r)
  ∧ StronglySorted not_older (latest_transactions r)
  ∧ (∀ id t, (id, t) ∈ latest_transactions r → matching id t)
  ∧ ∀ id t, matching id t → (id, t) ∉ latest_transactions r →
      length (latest_transactions r) = 3%nat
      ∧ ∀ x, x ∈ latest_transactions r → not_older x (id, t).
Proof.
  intros [= <-] Hr matching.
  apply list_elem_of_fmap in Hr as ([i b] & -> & _).
  cbn [latest_transactions row_budget snd] in *. unfold latest_expenses.
  set (selected :=
         select_where
           (λ t, bool_decide (tx_user_id t = uid)
                 && bool_decide (tx_category t = budget_category b)
                 && (tx_amount t <? 0)) txs).
  destruct (order_by_date_desc_top 3 selected)
    as (Hlen & Hsorted & Hnd & Hin & Hout).
  assert (Hsel : ∀ id t, (id, t) ∈ selected ↔ matching id t).
  { intros id t. unfold selected, matching.
    rewrite elem_of_select_where, !andb_true_iff, !bool_decide_eq_true.
    rewrite Z.ltb_lt. tauto. }
  assert (Hid : order_by_date_desc (LIMIT 3 (order_by_date_desc selected))
                = LIMIT 3 (order_by_date_desc selected)).
  { apply Listing.stable_sort_id.
    eapply Listing.StronglySorted_weaken; [|exact Hsorted].
    intros x y. unfold Api.may_precede, not_older. by rewrite ts_ltb_false. }
  rewrite Hid.
  split; [rewrite Hlen; lia|].
  split.
  { apply Hnd. eapply NoDup_fmap_1. apply NoDup_select_where. }
  split; [done|]. split.
  { intros id t Ht. by apply Hsel, Hin. }
  intros id t Ht Hnot. apply Hsel in Ht. split.
  - rewrite Hlen. apply Nat.min_l.
    destruct (decide (3 <= length selected)%nat) as [|Hshort]; [done|].
    exfalso. apply Hnot. unfold LIMIT.
    rewrite take_ge.
    + unfold order_by_date_desc.
      by rewrite Listing.stable_sort_Permutation.
    + unfold order_by_date_desc.
      rewrite Listing.stable_sort_Permutation. lia.
  - intros x Hx. by apply Hout.
Qed.

Lemma get_budgets_latest_witness :
  ∃ r,
    get_budgets (Some Scenario.alice) Scenario.now0 ReportScenario.plans
                (transactions ReportScenario.household)
    = budgets_success [r]
    ∧ spent r = 60
    ∧ remaining r = -10
    ∧ (λ x, tx_date x.2) <$> latest_transactions r
      = [ReportScenario.on 2 8; ReportScenario.on 2 5; ReportScenario.on 2 2]
    ∧ StronglySorted not_older (latest_transactions r).
Proof.
  assert (∃ r,
    get_budgets (Some Scenario.alice) Scenario.now0 ReportScenario.plans
                (transactions ReportScenario.household)
    = budgets_success [r]
    ∧ spent r = 60
    ∧ remaining r = -10
    ∧ (λ x, tx_date x.2) <$> latest_transactions r
      = [ReportScenario.on 2 8; ReportScenario.on 2 5; ReportScenario.on 2 2])
    as (r & Hr & Hspent & Hremaining & Hdates)
    by (eexists; split; [|split; [|split]]; vm_compute; reflexivity).
  destruct (get_budgets_latest Scenario.alice Scenario.now0
              ReportScenario.plans (transactions ReportScenario.household)
              [r] r Hr (list_elem_of_here _ _)) as (_ & _ & Hsorted & _).
  exists r. split; [exact Hr|]. split; [exact Hspent|].
  split; [exact Hremaining|]. split; [exact Hdates|exact Hsorted].
Defined.

(** *** [get_overview] *)

Lemma elem_of_first_of_each_name rows x :
  x ∈ first_of_each_name rows → x ∈ rows.
Proof.
  induction rows as [|r rows IH]; simpl; [done|].
  rewrite !elem_of_cons, list_elem_of_filter. intros [->|[_ Hx]]; auto.
Qed.

Lemma NoDup_first_of_each_name rows :
  NoDup ((λ r, tx_name r.2) <$> first_of_each_name rows).
Proof.
  induction rows as [|r rows IH]; simpl; [constructor|].
  constructor.
  - rewrite list_elem_of_fmap. intros (y & Hname & Hy).
    apply list_elem_of_filter in Hy as [Hy _]. by apply Hy.
  - eapply sublist_NoDup; [exact IH|]. apply fmap_sublist, sublist_filter.
Qed.

Lemma first_of_each_name_covers rows y :
  y ∈ rows → ∃ x, x ∈ first_of_each_name rows ∧ tx_name x.2 = tx_name y.2.
Proof.
  induction rows as [|r rows IH]; simpl; [by intros ?%elem_of_nil|].
  intros [->|Hy]%elem_of_cons.
  - exists r. split; [left|done].
  - destruct (decide (tx_name y.2 = tx_name r.2)) as [Heq|Hne].
    + exists r. split; [left|done].
    + destruct (IH Hy) as (x & Hx & Hname). exists x. split; [|done].
      right. apply list_elem_of_filter. split; [congruence|done].
Qed.

Lemma first_of_each_name_latest rows x y :
  StronglySorted not_older rows →
  x ∈ first_of_each_name rows → y ∈ rows → tx_name y.2 = tx_name x.2 →
  not_older x y.
Proof.
  induction 1 as [|r rows Hsorted IH Hr]; simpl; [by intros ?%elem_of_nil|].
  intros [->|Hx]%elem_of_cons [->|Hy]%elem_of_cons Hname.
  - unfold not_older. by destruct (ts_leb_total (tx_date r.2) (tx_date r.2)).
  - rewrite Forall_forall in Hr. by apply Hr.
  - apply list_elem_of_filter in Hx as [Hx _]. by destruct Hx.
  - apply list_elem_of_filter in Hx as [_ Hx]. by apply IH.
Qed.

Lemma order_by_date_desc_sorted rows :
  StronglySorted not_older (order_by_date_desc rows).
Proof.
  eapply Listing.StronglySorted_weaken;
    [|apply (Listing.stable_sort_sorted
               (λ a b : uuid * transaction,
                  ts_ltb (tx_date a.2) (tx_date b.2))
               (λ x y, ts_ltb_asym _ _) (λ x y z, ts_ltb_negtrans _ _ _))].
  intros x y. unfold Api.may_precede, not_older. by rewrite ts_ltb_false.
Qed.

Lemma length_filter_negb {A} (f : A → bool) (l : list A) :
  (length (filter (λ x, f x = true) l)
   + length (filter (λ x, negb (f x) = true) l))%nat = length l.
Proof.
  induction l as [|x l IH]; [done|]. rewrite !filter_cons.
  destruct (f x); simpl; lia.
Qed.

Lemma sum_abs_nonneg (l : list numeric) : 0 <= foldr Z.add 0 (Z.abs <$> l).
Proof.
  induction l as [|x l IH]; [done|]. rewrite fmap_cons. cbn [foldr]. lia.
Qed.

Lemma sum_abs_filter (P : uuid * transaction → Prop) `{∀ x, Decision (P x)}
    (rows : list (uuid * transaction)) :
  foldr Z.add 0 (Z.abs <$> amounts (filter P rows))
  <= foldr Z.add 0 (Z.abs <$> amounts rows).
Proof.
  induction rows as [|r rows IH]; [done|]. rewrite filter_cons.
  unfold amounts in *.
  destruct (decide (P r)); rewrite !fmap_cons; cbn [foldr]; lia.
Qed.

(** X16: the recurring bills summary of the overview counts one bill for each
    name under which the caller has a recurring expense: the latest
    expense of that name.  The bill is paid if that expense is dated in
    the window and upcoming otherwise, so that the paid and the upcoming
    bills together are all the bills; [total] and [totalAmount] are those
    of the upcoming bills; the bills due soon are among the upcoming
    ones. *)
Theorem overview_recurring_summary now uid (txs : gmap uuid transaction) :
  let s := recurring_summary now uid txs in
  let expense id t :=
    txs !! id = Some t ∧ tx_user_id t = uid ∧ tx_recurring t = true
    ∧ tx_amount t < 0 in
  ∃ recurring : list (uuid * transaction),
    NoDup ((λ r, tx_name r.2) <$> recurring)
    ∧ (∀ id t, (id, t) ∈ recurring →
         expense id t
         ∧ ∀ id' t', expense id' t' → tx_name t' = tx_name t →
                     ts_leb (tx_date t') (tx_date t) = true)
    ∧ (∀ id t, expense id t →
         ∃ r, r ∈ recurring ∧ tx_name r.2 = tx_name t)
    ∧ count (paid s)
      = length (filter (λ r, in_current_month now (tx_date r.2) = true)
                       recurring)
    ∧ (count (paid s) + count (upcoming s))%nat = length recurring
    ∧ total s = count (upcoming s)
    ∧ totalAmount s = amount (upcoming s)
    ∧ (count (dueSoon s) <= count (upcoming s))%nat
    ∧ 0 <= amount (paid s)
    ∧ 0 <= amount (dueSoon s) <= amount (upcoming s).
Proof.
  intros s expense. subst s. unfold recurring_summary.
  set (selected :=
         select_where
           (λ t, bool_decide (tx_user_id t = uid)
                 && bool_decide (tx_recurring t = true)
                 && (tx_amount t <? 0)) txs).
  assert (Hsel : ∀ id t, (id, t) ∈ selected ↔ expense id t).
  { intros id t. unfold selected, expense.
    rewrite elem_of_select_where, !andb_true_iff, !bool_decide_eq_true.
    rewrite Z.ltb_lt. tauto. }
  assert (Hperm : order_by_date_desc selected ≡ₚ selected)
    by apply Listing.stable_sort_Permutation.
  exists (distinct_on_name_latest selected).
  cbn [total totalAmount paid upcoming dueSoon count amount count_and_amount].
  unfold COUNT. rewrite !COALESCE_SUM.
  split; [apply NoDup_first_of_each_name|].
  split.
  { intros id t Hin. pose proof Hin as Hin'%elem_of_first_of_each_name.
    rewrite Hperm in Hin'. split; [by apply Hsel|].
    intros id' t' Ht' Hname.
    apply (first_of_each_name_latest (order_by_date_desc selected)
             (id, t) (id', t')); [apply order_by_date_desc_sorted|done| |done].
    rewrite Hperm. by apply Hsel. }
  split.
  { intros id t Ht.
    apply (first_of_each_name_covers (order_by_date_desc selected) (id, t)).
    rewrite Hperm. by apply Hsel. }
  split; [done|].
  split; [apply length_filter_negb|].
  split; [done|]. split; [done|].
  split; [apply length_filter|].
  split; [apply sum_abs_nonneg|].
  split; [apply sum_abs_nonneg|apply sum_abs_filter].
Qed.

Lemma sum_totals_select uid (ps : gmap uuid pot) :
  foldr Z.add 0
    ((λ r, pot_total r.2)
       <$> select_where (λ p, bool_decide (pot_user_id p = uid)) ps)
  = pots_sum uid ps.
Proof.
  unfold pots_sum, select_where, scan. rewrite map_fold_foldr.
  induction (map_to_list ps) as [|[i p] l IH]; [done|].
  rewrite filter_cons. cbn [snd uncurry foldr].
  destruct (bool_decide (pot_user_id p = uid)).
  - rewrite decide_True by done. rewrite fmap_cons. cbn [snd foldr].
    rewrite IH. lia.
  - rewrite decide_False by done. exact IH.
Qed.

Lemma sum_Permutation (l k : list numeric) :
  l ≡ₚ k → foldr Z.add 0 l = foldr Z.add 0 k.
Proof. induction 1; simpl; lia. Qed.

Lemma sum_take_le n (l : list numeric) :
  Forall (λ x, 0 <= x) l → foldr Z.add 0 (take n l) <= foldr Z.add 0 l.
Proof.
  intros Hl. revert n. induction Hl as [|x l Hx Hl IH]; intros [|n]; simpl;
    try lia.
  - clear IH. induction Hl; simpl; lia.
  - specialize (IH n). lia.
Qed.

Lemma order_by_created_at_top k (rows : list (uuid * pot)) :
  let top := LIMIT k (order_by_created_at rows) in
  length top = (k `min` length rows)%nat
  ∧ (∀ x, x ∈ top → x ∈ rows)
  ∧ ∀ x y, x ∈ top → y ∈ rows → y ∉ top →
           ts_leb (pot_created_at x.2) (pot_created_at y.2) = true.
Proof.
  destruct (take_sorted_top
              (λ a b : uuid * pot,
                 ts_ltb (pot_created_at b.2) (pot_created_at a.2))
              (λ x y, ts_ltb_asym _ _)
              (λ x y z H1 H2, ts_ltb_negtrans _ _ _ H2 H1) k rows)
    as (Hlen & _ & _ & Hin & Hout).
  split; [done|]. split; [done|].
  intros x y Hx Hy Hny. specialize (Hout x y Hx Hy Hny).
  unfold Api.may_precede in Hout. by apply ts_ltb_false.
Qed.

(** X17: the pots of the overview: [totalSaved] is the sum over all the pots of
    the caller, while [items] lists at most four of them, the ones
    created first, each with [remaining = target - total] and, where the
    target is 0, a percentage of 0; with totals that are not negative the
    pots listed hold no more than [totalSaved]. *)
Theorem overview_pots percentage_of uid now (bs : gmap uuid budget) st d :
  get_overview percentage_of (Some uid) now bs st = overview_success d →
  pots_totalSaved d = pots_sum uid (pots st)
  ∧ (length (pots_items d) <= 4)%nat
  ∧ (∀ it, it ∈ pots_items d →
       pots st !! item_id it = Some (item_pot it)
       ∧ pot_user_id (item_pot it) = uid
       ∧ item_remaining it = pot_target (item_pot it) - pot_total (item_pot it)
       ∧ (pot_target (item_pot it) <= 0 → item_percentage it = 0))
  ∧ (∀ id p, pots st !! id = Some p → pot_user_id p = uid →
       (∃ it, it ∈ pots_items d ∧ item_id it = id ∧ item_pot it = p)
       ∨ (length (pots_items d) = 4%nat
          ∧ ∀ it, it ∈ pots_items d →
              ts_leb (pot_created_at (item_pot it)) (pot_created_at p) = true))
  ∧ (pots_nonnegative st →
     foldr Z.add 0 ((λ it, pot_total (item_pot it)) <$> pots_items d)
     <= pots_totalSaved d).
Proof.
  unfold get_overview. destruct (profiles st !! uid) as [prof|]; [|done].
  intros Hd.
  match type of Hd with
  | overview_success ?x = _ => assert (x = d) as <- by congruence
  end.
  clear Hd. cbn [pots_totalSaved pots_items].
  rewrite COALESCE_SUM, sum_totals_select.
  set (own := select_where (λ p, bool_decide (pot_user_id p = uid)) (pots st)).
  assert (Hown : ∀ id p, (id, p) ∈ own
                         ↔ pots st !! id = Some p ∧ pot_user_id p = uid).
  { intros id p. unfold own.
    by rewrite elem_of_select_where, bool_decide_eq_true. }
  destruct (order_by_created_at_top 4 own) as (Hlen & Hin & Hout).
  split; [done|]. rewrite length_fmap.
  split; [rewrite Hlen; lia|].
  split.
  { intros it ([id p] & -> & Hit)%list_elem_of_fmap. simpl.
    apply Hin, Hown in Hit as [Hp Hu].
    split; [done|]. split; [done|]. split; [done|].
    intros Htarget. by destruct (Z.ltb_spec 0 (pot_target p)); [lia|]. }
  split.
  { intros id p Hp Hu.
    destruct (decide (id ∈ (LIMIT 4 (order_by_created_at own)).*1))
      as [Hlisted|Hnot'].
    - left. apply list_elem_of_fmap in Hlisted as ([id' p'] & -> & Hlisted).
      pose proof (Hin _ Hlisted) as [Hp' _]%Hown. cbn [fst snd] in *.
      assert (p' = p) as -> by congruence.
      eexists. split; [apply list_elem_of_fmap; by exists (id', p)|done].
    - assert (Hnot : (id, p) ∉ LIMIT 4 (order_by_created_at own)).
      { intros Hlisted. apply Hnot', list_elem_of_fmap. by exists (id, p). }
      right. split.
      + rewrite Hlen. apply Nat.min_l.
        destruct (decide (4 <= length own)%nat) as [|Hshort]; [done|].
        exfalso. apply Hnot. unfold LIMIT, order_by_created_at.
        rewrite take_ge by (rewrite Listing.stable_sort_Permutation; lia).
        rewrite Listing.stable_sort_Permutation. by apply Hown.
      + intros it ([id' p'] & -> & Hit)%list_elem_of_fmap. simpl.
        apply (Hout (id', p') (id, p)); [done| |done]. by apply Hown. }
  intros Hnn. rewrite <- list_fmap_compose.
  change ((λ it, pot_total (item_pot it)) ∘ _)
    with (λ r : uuid * pot, pot_total r.2).
  unfold LIMIT. rewrite fmap_take.
  etrans; [apply sum_take_le|].
  - apply Forall_fmap, Forall_forall. intros [id p] Hp. simpl.
    unfold order_by_created_at in Hp.
    rewrite Listing.stable_sort_Permutation in Hp.
    apply Hown in Hp as [Hp _]. by apply (Hnn id p).
  - unfold order_by_created_at.
    rewrite (sum_Permutation _ ((λ r : uuid * pot, pot_total r.2) <$> own)).
    + unfold own. by rewrite sum_totals_select.
    + by rewrite Listing.stable_sort_Permutation.
Qed.

Lemma overview_pots_witness :
  ∃ d,
    get_overview ReportScenario.percentage_of (Some Scenario.alice)
                 Scenario.now0 ReportScenario.plans ReportScenario.household
    = overview_success d
    ∧ pots_totalSaved d = 40
    ∧ (λ it, (item_id it, item_percentage it, item_remaining it))
        <$> pots_items d
      = [(6%N, 0, 0); (2%N, 8, 460); (5%N, 0, 300)]
    ∧ pots_totalSaved d = pots_sum Scenario.alice (pots ReportScenario.household).
Proof.
  assert (∃ d,
    get_overview ReportScenario.percentage_of (Some Scenario.alice)
                 Scenario.now0 ReportScenario.plans ReportScenario.household
    = overview_success d
    ∧ pots_totalSaved d = 40
    ∧ (λ it, (item_id it, item_percentage it, item_remaining it))
        <$> pots_items d
      = [(6%N, 0, 0); (2%N, 8, 460); (5%N, 0, 300)])
    as (d & Hd & Hsaved & Hitems)
    by (eexists; split; [|split]; vm_compute; reflexivity).
  destruct (overview_pots ReportScenario.percentage_of Scenario.alice
              Scenario.now0 ReportScenario.plans ReportScenario.household
              d Hd) as (Hsum & _).
  exists d. split; [exact Hd|]. split; [exact Hsaved|].
  split; [exact Hitems|exact Hsum].
Defined.

(** X18: the recent transactions of the overview are at most five transactions
    of the caller, newest first; a transaction of the caller that is not
    listed was left out because five others are listed that are not
    older. *)
Theorem overview_recent percentage_of uid now (bs : gmap uuid budget) st d :
  get_overview percentage_of (Some uid) now bs st = overview_success d →
  (length (transactions_recent d) <= 5)%nat
  ∧ NoDup (transactions_recent d)
  ∧ StronglySorted not_older (transactions_recent d)
  ∧ (∀ id t, (id, t) ∈ transactions_recent d →
       transactions st !! id = Some t ∧ tx_user_id t = uid)
  ∧ ∀ id t, transactions st !! id = Some t → tx_user_id t = uid →
      (id, t) ∉ transactions_recent d →
      length (transactions_recent d) = 5%nat
      ∧ ∀ x, x ∈ transactions_recent d → not_older x (id, t).
Proof.
  unfold get_overview. destruct (profiles st !! uid) as [prof|]; [|done].
  intros Hd.
  match type of Hd with
  | overview_success ?x = _ => assert (x = d) as <- by congruence
  end.
  clear Hd. cbn [transactions_recent].
  set (own := select_where (λ t, bool_decide (tx_user_id t = uid))
                           (transactions st)).
  assert (Hown : ∀ id t, (id, t) ∈ own
                         ↔ transactions st !! id = Some t ∧ tx_user_id t = uid).
  { intros id t. unfold own.
    by rewrite elem_of_select_where, bool_decide_eq_true. }
  destruct (order_by_date_desc_top 5 own)
    as (Hlen & Hsorted & Hnd & Hin & Hout).
  split; [rewrite Hlen; lia|].
  split; [apply Hnd; eapply NoDup_fmap_1; apply NoDup_select_where|].
  split; [done|]. split.
  { intros id t Ht. by apply Hown, Hin. }
  intros id t Ht Hu Hnot. split.
  - rewrite Hlen. apply Nat.min_l.
    destruct (decide (5 <= length own)%nat) as [|Hshort]; [done|].
    exfalso. apply Hnot. unfold LIMIT, order_by_date_desc.
    rewrite take_ge by (rewrite Listing.stable_sort_Permutation; lia).
    rewrite Listing.stable_sort_Permutation. by apply Hown.
  - intros x Hx. apply Hout; [done| |done]. by apply Hown.
Qed.

Lemma overview_recent_witness :
  ∃ d,
    get_overview ReportScenario.percentage_of (Some Scenario.alice)
                 Scenario.now0 ReportScenario.plans ReportScenario.household
    = overview_success d
    ∧ fst <$> transactions_recent d = [14%N; 12%N; 16%N; 11%N; 1%N]
    ∧ StronglySorted not_older (transactions_recent d).
Proof.
  assert (∃ d,
    get_overview ReportScenario.percentage_of (Some Scenario.alice)
                 Scenario.now0 ReportScenario.plans ReportScenario.household
    = overview_success d
    ∧ fst <$> transactions_recent d = [14%N; 12%N; 16%N; 11%N; 1%N])
    as (d & Hd & Hrecent)
    by (eexists; split; vm_compute; reflexivity).
  destruct (overview_recent ReportScenario.percentage_of Scenario.alice
              Scenario.now0 ReportScenario.plans ReportScenario.household
              d Hd) as (_ & _ & Hsorted & _).
  exists d. split; [exact Hd|]. split; [exact Hrecent|exact Hsorted].
Defined.

Lemma overview_recurring_summary_example :
  recurring_summary Scenario.now0 Scenario.alice
                    (transactions ReportScenario.household)
  = {| total := 1; totalAmount := 8;
       paid := {| count := 1; amount := 30 |};
       upcoming := {| count := 1; amount := 8 |};
       dueSoon := {| count := 1; amount := 8 |} |}.
Proof. vm_compute. reflexivity. Qed.

(** X19: [get_overview] answers exactly the callers that are authenticated and
    have a profile row, and its balance block is then what [get_balance]
    reports; a caller without a profile row is refused by [get_overview]
    and told a balance of 0 by [get_balance]. *)
Theorem overview_balance_block percentage_of auth_uid now
    (bs : gmap uuid budget) st :
  match get_overview percentage_of auth_uid now bs st with
  | overview_error message =>
    (auth_uid = None ∧ message = "Unauthorized"
     ∧ get_balance auth_uid st = balance_error "Unauthorized")
    ∨ (∃ uid, auth_uid = Some uid ∧ profiles st !! uid = None
              ∧ message = "Profile not found"
              ∧ ∃ d, get_balance auth_uid st = balance_success d
                     ∧ currentBalance d = 0)
  | overview_success d =>
    ∃ uid prof,
      auth_uid = Some uid ∧ profiles st !! uid = Some prof
      ∧ balance_current d = balance prof
      ∧ get_balance auth_uid st
        = balance_success {| currentBalance := balance_current d;
                             income := balance_income d;
                             expenses := balance_expenses d |}
  end.
Proof.
  destruct auth_uid as [uid|]; simpl; [|by left].
  destruct (profiles st !! uid) as [prof|] eqn:Hprof.
  - exists uid, prof. by rewrite Hprof.
  - right. exists uid. rewrite Hprof. eauto 10.
Qed.

End Reports.

(* ===================================================================== *)
(** ** Properties of the pages of a listing and of the bills *)
(* ===================================================================== *)

Module Paging.
Import Api Pages.

Lemma take_add_drop {A} (a b : nat) (l : list A) :
  take (a + b) l = take a l ++ take b (drop a l).
Proof.
  revert l. induction a as [|a IH]; intros [|x l]; simpl; try done.
  - by rewrite take_nil.
  - by rewrite IH.
Qed.

(** Windows of [l] rows, one after the other. *)
Lemma concat_windows {A} (l n : nat) (rows : list A) :
  concat ((λ k, take l (drop (k * l) rows)) <$> seq 0 n) = take (n * l) rows.
Proof.
  induction n as [|n IH]; [by rewrite take_0|].
  rewrite seq_S, fmap_app, concat_app, IH. simpl.
  rewrite app_nil_r, <- take_add_drop. f_equal. lia.
Qed.

Lemma list_filter_True {A} (l : list A) : filter (λ _, True) l = l.
Proof.
  induction l as [|x l IH]; [done|]. rewrite filter_cons. simpl. by rewrite IH.
Qed.

Section Listing.
Context {num : Type} `{JsNumber num}.
Variable ilike : string → string → bool.
Variable text_ltb : string → string → bool.
Variable localeCompare : string → string → Z.
Variable toLowerCase : string → string.

Lemma getTransactions_query (table : list (Transaction num)) params :
  getTransactions ilike text_ltb table params
  = let page := default 1%positive (params ≫= tp_page) in
    let limit := default 10%positive (params ≫= tp_limit) in
    let from := ((Pos.to_nat page - 1) * Pos.to_nat limit)%nat in
    let rows := query ilike text_ltb table params in
    {| transactions := take (Pos.to_nat limit) (drop from rows);
       total := length rows;
       page := page;
       pages := (Z.of_nat (length rows) + Z.pos limit - 1) / Z.pos limit;
       limit := limit |}.
Proof.
  unfold getTransactions, query, range. destruct (SORT_MAP _). simpl.
  do 2 f_equal. lia.
Qed.

Lemma pages_bounds (T : nat) (L : positive) :
  let P := (Z.of_nat T + Z.pos L - 1) / Z.pos L in
  Z.of_nat T <= P * Z.pos L < Z.of_nat T + Z.pos L.
Proof.
  intros P. subst P.
  pose proof (Z.div_mod (Z.of_nat T + Z.pos L - 1) (Z.pos L)).
  pose proof (Z.mod_pos_bound (Z.of_nat T + Z.pos L - 1) (Z.pos L)).
  lia.
Qed.

(** X20: [pages] is the least number of pages of [limit] rows that hold the
    [total] rows; every page before the last holds [limit] rows, and the
    last one holds the rest, at least one row. *)
Theorem page_sizes (table : list (Transaction num)) params :
  let r := getTransactions ilike text_ltb table params in
  let l := Pos.to_nat (limit r) in
  let p := Pos.to_nat (page r) in
  Z.of_nat (total r) <= pages r * Z.pos (limit r)
                     < Z.of_nat (total r) + Z.pos (limit r)
  ∧ (Z.pos (page r) < pages r → length (transactions r) = l)
  ∧ (Z.pos (page r) = pages r →
     length (transactions r) = (total r - (p - 1) * l)%nat
     ∧ (1 <= length (transactions r) <= l)%nat).
Proof.
  rewrite getTransactions_query. cbv zeta.
  cbn [transactions total page pages limit].
  set (L := default 10%positive (params ≫= tp_limit)).
  set (P := default 1%positive (params ≫= tp_page)).
  set (rows := query ilike text_ltb table params).
  pose proof (pages_bounds (length rows) L) as Hb. cbv zeta in Hb.
  set (N := (Z.of_nat (length rows) + Z.pos L - 1) / Z.pos L) in *.
  split; [done|].
  rewrite length_take, length_drop.
  split; intros HP; nia.
Qed.

(** X21: the pages of a listing, put one after the other, are the listing:
    every row of the request is on one page, once, in its place.  (The
    rows of a listing that agree on the sort column are taken to come in
    one and the same order on every request.) *)
Theorem pages_make_the_listing (table : list (Transaction num)) params :
  let r := getTransactions ilike text_ltb table params in
  concat ((λ p, transactions
                  (getTransactions ilike text_ltb table (on_page p params)))
            <$> page_numbers (pages r))
  = query ilike text_ltb table params.
Proof.
  intros r. subst r. unfold page_numbers.
  rewrite <- fmap_S_seq, <- !list_fmap_compose.
  rewrite (list_fmap_ext _
             (λ k, take (Pos.to_nat (default 10%positive (params ≫= tp_limit)))
                     (drop (k * Pos.to_nat
                                  (default 10%positive (params ≫= tp_limit)))
                           (query ilike text_ltb table params)))).
  - rewrite concat_windows. apply take_ge.
    rewrite getTransactions_query. cbv zeta. cbn [pages].
    pose proof (pages_bounds (length (query ilike text_ltb table params))
                  (default 10%positive (params ≫= tp_limit))) as Hb.
    cbv zeta in Hb. nia.
  - intros _ k _. simpl. rewrite getTransactions_query. cbv zeta.
    cbn [transactions]. unfold on_page at 1 2. simpl.
    rewrite Nat2Pos.id by done.
    replace (S k - 1)%nat with k by lia. done.
Qed.

Lemma query_passes (table : list (Transaction num)) params :
  query ilike text_ltb table params
  = filter (λ t, passes ilike params t = true)
      (order text_ltb
         (column (SORT_MAP (default Latest (params ≫= tp_sort))))
         (ascending (SORT_MAP (default Latest (params ≫= tp_sort))))
         table).
Proof.
  unfold query, passes. destruct (SORT_MAP _) as [c asc].
  cbn [column ascending].
  set (sorted := order text_ltb c asc table).
  destruct (params ≫= tp_search) as [[|b s]|];
    destruct (match params ≫= tp_filter with
              | Some f => Some f
              | None => params ≫= tp_category
              end) as [[|a cat]|]; cbn [truthy];
    try destruct (String.eqb_spec (String a cat) "All Transactions")
      as [Heq|Hne];
    rewrite ?list_filter_filter;
    first [ apply list_filter_iff
          | rewrite <- (list_filter_True sorted) at 1; apply list_filter_iff ];
    intros t;
    rewrite ?andb_true_iff, ?orb_true_iff, ?bool_decide_eq_true;
    intuition (discriminate || congruence).
Qed.

(** X22: whatever the page and the sort option are, [total] is the number of
    rows of the table that pass the filters of the request, the request
    selects those rows, and a page holds none but them. *)
Theorem total_counts_the_rows_that_pass (table : list (Transaction num))
    params :
  let r := getTransactions ilike text_ltb table params in
  query ilike text_ltb table params
  ≡ₚ filter (λ t, passes ilike params t = true) table
  ∧ total r = length (filter (λ t, passes ilike params t = true) table)
  ∧ ∀ t, t ∈ transactions r → t ∈ table ∧ passes ilike params t = true.
Proof.
  intros r. subst r.
  assert (Hq : query ilike text_ltb table params
               ≡ₚ filter (λ t, passes ilike params t = true) table).
  { rewrite query_passes. unfold order.
    by rewrite Listing.stable_sort_Permutation. }
  split; [done|].
  rewrite getTransactions_query. cbv zeta. cbn [transactions total].
  split; [by rewrite Hq|].
  intros t Ht.
  eapply elem_of_sublist in Ht; [|apply sublist_take].
  eapply elem_of_sublist in Ht; [|apply sublist_drop].
  rewrite Hq in Ht. by apply list_elem_of_filter in Ht as [? ?].
Qed.

(** X23: sorted by "Latest", which is the default, every page of a listing has
    its rows newest first; sorted by "Oldest", oldest first. *)
Theorem listing_by_date (table : list (Transaction num)) params :
  let r := getTransactions ilike text_ltb table params in
  match default Latest (params ≫= tp_sort) with
  | Latest => StronglySorted not_newer (transactions r)
  | Oldest => StronglySorted (flip not_newer) (transactions r)
  | _ => True
  end.
Proof.
  intros r. subst r.
  pose proof (Listing.getTransactions_sublist ilike text_ltb table params)
    as Hsub.
  destruct (default Latest (params ≫= tp_sort)); try done;
    cbn [SORT_MAP column ascending] in Hsub;
    (eapply Listing.StronglySorted_sublist; [exact Hsub|]).
  - apply Listing.order_date_desc_sorted.
  - unfold order, column_ltb.
    apply (Listing.stable_sort_sorted
             (λ a b : Transaction num, Date_gtb (date a) (date b))).
    + intros a b. apply Listing.Date_gtb_asym.
    + intros a b c. apply Listing.Date_gtb_negtrans.
Qed.

(** *** The listing of the bills *)

Lemma bills_sorted now (table : list (Transaction num)) params :
  ∃ l, bills (getRecurringBills ilike text_ltb localeCompare toLowerCase
                now table params)
       = sortBills localeCompare (default Latest (params ≫= sort)) l.
Proof.
  unfold getRecurringBills. destruct (truthy (params ≫= search)); by eexists.
Qed.

Lemma sgn_pos (x : Z) : (0 <? Z.sgn x) = (0 <? x).
Proof. destruct x; done. Qed.

(** X24: sorted by "Latest", which is the default, the bills come by the day of
    the month on which they fall due, earliest day first; sorted by
    "Oldest", latest day first. *)
Theorem bills_by_due_day now (table : list (Transaction num)) params :
  let listing :=
    bills (getRecurringBills ilike text_ltb localeCompare toLowerCase
             now table params) in
  match default Latest (params ≫= sort) with
  | Latest => StronglySorted due_day_leq listing
  | Oldest => StronglySorted (flip due_day_leq) listing
  | _ => True
  end.
Proof.
  intros listing. subst listing.
  destruct (bills_sorted now table params) as [l ->].
  destruct (default Latest (params ≫= sort)); try done; unfold sortBills;
    (eapply (Listing.StronglySorted_weaken (may_precede _));
     [|apply Listing.stable_sort_sorted]);
    unfold may_precede, due_day_leq, flip; simpl; intros *;
    rewrite ?sgn_pos; lia.
Qed.

(** X25: a search keeps the bills whose name, lower-cased by the platform's
    [toLowerCase], contains the lower-cased text that is searched for, and
    leaves them in the order in which the listing without a search has
    them, provided the order that the sort option asks for is one:
    asymmetric and transitive.  This holds whatever [toLowerCase] does to
    the letters. *)
Theorem search_keeps_the_order now (table : list (Transaction num)) s o :
  let goes_after a b :=
    0 <? compareBills localeCompare (default Latest o) a b in
  (∀ a b, goes_after a b = true → goes_after b a = false) →
  (∀ a b c, goes_after a b = false → goes_after b c = false →
            goes_after a c = false) →
  s ≠ EmptyString →
  bills (getRecurringBills ilike text_ltb localeCompare toLowerCase now
           table (Some {| search := Some s; sort := o |}))
  = filter (λ b, includes (toLowerCase (name (tx b))) (toLowerCase s) = true)
      (bills (getRecurringBills ilike text_ltb localeCompare toLowerCase now
                table (Some {| search := None; sort := o |}))).
Proof.
  intros goes_after Hasym Htrans Hs. unfold getRecurringBills. simpl.
  destruct s as [|c s]; [done|]. cbn [truthy]. cbn [bills].
  unfold sortBills. symmetry.
  by apply (Listing.stable_sort_filter goes_after Hasym Htrans).
Qed.

(** X26: the summary counts every bill once, as paid or as upcoming: the two
    counts add up to the number of bills of the listing without a search,
    [total] is the number of the upcoming ones, and the bills due soon are
    among them.  A listing with a search is no longer than that. *)
Theorem summary_counts_every_bill now (table : list (Transaction num)) params :
  let response :=
    getRecurringBills ilike text_ltb localeCompare toLowerCase
      now table params in
  let s := summary response in
  let all :=
    bills (getRecurringBills ilike text_ltb localeCompare toLowerCase
             now table None) in
  (count (summary_paid s) + count (summary_upcoming s))%nat = length all
  ∧ count (summary_paid s) = length (filter (λ b, is_paid b = true) all)
  ∧ summary_total s = count (summary_upcoming s)
  ∧ (count (dueSoon s) <= count (summary_upcoming s))%nat
  ∧ (length (bills response) <= length all)%nat.
Proof.
  intros response s all. subst response s all.
  destruct (Listing.getRecurringBills_summary ilike text_ltb localeCompare
              toLowerCase now table params) as (l & Hl & ->).
  destruct (Listing.getRecurringBills_bills ilike text_ltb localeCompare
              toLowerCase now table None) as (l0 & Hl0 & _ & Hall).
  specialize (Hall eq_refl). subst l0.
  destruct (Listing.getRecurringBills_bills ilike text_ltb localeCompare
              toLowerCase now table params) as (l1 & Hl1 & Hsub & _).
  rewrite Hl0, Hl1. cbn [summarize summary_paid summary_upcoming dueSoon
                          summary_total count].
  rewrite !Hl.
  set (bs := classifiedBills ilike text_ltb now table).
  split; [|split; [done|split; [done|split]]].
  - clear. induction bs as [|b bs IH]; [done|]. rewrite !filter_cons.
    unfold is_paid, is_unpaid in *. destruct (status b); simpl; lia.
  - clear. induction bs as [|b bs IH]; [done|]. rewrite !filter_cons.
    unfold is_due_soon, is_unpaid in *. destruct (status b); simpl; lia.
  - by apply sublist_length.
Qed.

End Listing.

(** Page 2 of 15 rows, 10 to the page, holds 5 rows, and there are 2
    pages. *)
Lemma page_sizes_witness :
  let r :=
    getTransactions ApiScenario.ilike ApiScenario.text_ltb
      (take 15 ApiScenario.busy_ledger)
      (Some {| tp_page := Some 2%positive; tp_limit := Some 10%positive;
               tp_search := None; tp_sort := None; tp_filter := None;
               tp_category := None |}) in
  total r = 15%nat ∧ pages r = 2 ∧ length (transactions r) = 5%nat.
Proof.
  intros r.
  destruct (page_sizes ApiScenario.ilike ApiScenario.text_ltb
              (take 15 ApiScenario.busy_ledger)
              (Some {| tp_page := Some 2%positive; tp_limit := Some 10%positive;
                       tp_search := None; tp_sort := None; tp_filter := None;
                       tp_category := None |})) as (_ & _ & Hlast).
  destruct Hlast as [Hlen _]; [vm_compute; reflexivity|].
  split; [vm_compute; reflexivity|]. split; [vm_compute; reflexivity|].
  etrans; [exact Hlen|]. vm_compute. reflexivity.
Defined.

Lemma search_keeps_the_order_witness :
  bills (getRecurringBills ApiScenario.ilike ApiScenario.text_ltb
           ApiScenario.localeCompare ApiScenario.toLowerCase
           ApiScenario.today ApiScenario.ledger
           (Some {| search := Some "REN"; sort := Some Oldest |}))
  = filter (λ b, includes (ApiScenario.toLowerCase (name (tx b)))
                          (ApiScenario.toLowerCase "REN") = true)
      (bills (getRecurringBills ApiScenario.ilike ApiScenario.text_ltb
                ApiScenario.localeCompare ApiScenario.toLowerCase
                ApiScenario.today ApiScenario.ledger
                (Some {| search := None; sort := Some Oldest |}))).
Proof.
  apply (search_keeps_the_order ApiScenario.ilike ApiScenario.text_ltb
           ApiScenario.localeCompare ApiScenario.toLowerCase
           ApiScenario.today ApiScenario.ledger "REN" (Some Oldest)).
  - intros a b. simpl. rewrite !sgn_pos. lia.
  - intros a b c. simpl. rewrite !sgn_pos. lia.
  - discriminate.
Defined.

Lemma bills_by_due_day_example :
  dueDay <$> bills (getRecurringBills ApiScenario.ilike ApiScenario.text_ltb
                      ApiScenario.localeCompare ApiScenario.toLowerCase
                      ApiScenario.today
                      ApiScenario.ledger None)
  = [4; 28]
  ∧ dueDay <$> bills (getRecurringBills ApiScenario.ilike ApiScenario.text_ltb
                        ApiScenario.localeCompare ApiScenario.toLowerCase
                        ApiScenario.today
                        ApiScenario.ledger
                        (Some {| search := None; sort := Some Oldest |}))
    = [28; 4].
Proof. split; vm_compute; reflexivity. Qed.

End Paging.

(* ===================================================================== *)
(** ** Properties of the deletion of a pot through the edge function *)
(* ===================================================================== *)

Module PotDeletion.
Import Db Edge.

Section PotDelete.
Variable authenticate : string → credentials.
Variable uuid_of : string → option uuid.
Variable invalid_uuid : string.

(** The handler answers 200 exactly when [delete_pot] has deleted a pot;
    it answers 401 exactly when the header is missing, and 400 in every
    other case; whenever the answer is not 200 the store is as it was. *)
Lemma pot_delete_status authHeader body_potId body_id now st response st' :
  pot_delete authenticate uuid_of invalid_uuid authHeader body_potId body_id
             now st = (response, st') →
  (status response = 200
   ∧ body_success response = true ∧ body_error response = None
   ∧ ∃ header potId uid pot_id p,
       Api.truthy authHeader = Some header
       ∧ Api.truthy (match body_potId with
                     | Some x => Some x
                     | None => body_id
                     end) = Some potId
       ∧ authenticate header = role (Some uid)
       ∧ uuid_of potId = Some pot_id
       ∧ select_pot pot_id uid (pots st) = Some p
       ∧ delete_pot (Some uid) now pot_id st = (success, st'))
  ∨ ((status response = 401 ∨ status response = 400)
     ∧ (status response = 401 ↔ Api.truthy authHeader = None)
     ∧ body_success response = false
     ∧ st' = st
     ∧ ¬ ∃ header potId uid pot_id p,
           Api.truthy authHeader = Some header
           ∧ Api.truthy (match body_potId with
                         | Some x => Some x
                         | None => body_id
                         end) = Some potId
           ∧ authenticate header = role (Some uid)
           ∧ uuid_of potId = Some pot_id
           ∧ select_pot pot_id uid (pots st) = Some p).
Proof.
  unfold pot_delete. cbv zeta.
  destruct (Api.truthy authHeader) as [header|] eqn:Hheader.
  2:{ intros ?; simplify_eq. right. simpl. split; [by left|]. split; [done|]. split; [done|].
      split; [done|]. by intros (? & ? & ? & ? & ? & ? & _). }
  destruct (Api.truthy (match body_potId with
                        | Some x => Some x
                        | None => body_id
                        end)) as [potId|] eqn:HpotId.
  2:{ intros ?; simplify_eq. right. simpl. split; [by right|]. split; [done|]. split; [done|].
      split; [done|]. by intros (? & ? & ? & ? & ? & _ & ? & _). }
  unfold rpc_delete_pot.
  destruct (authenticate header) as [message|[uid|]] eqn:Hauth.
  - intros ?; simplify_eq. right. simpl. split; [by right|]. split; [done|]. split; [done|].
    split; [done|].
    intros (? & ? & ? & ? & ? & [= <-] & [= <-] & ? & _). congruence.
  - destruct (uuid_of potId) as [pot_id|] eqn:Hid.
    + unfold delete_pot.
      destruct (select_pot pot_id uid (pots st)) as [p|] eqn:Hsel.
      * intros ?; simplify_eq. left. simpl.
        split; [done|]. split; [done|]. split; [done|].
        exists header, potId, uid, pot_id, p. by rewrite Hsel.
      * intros ?; simplify_eq. right. simpl. split; [by right|]. split; [done|]. split; [done|].
        split; [done|].
        intros (? & ? & ? & ? & ? & [= <-] & [= <-] & ? & ? & ?).
        congruence.
    + intros ?; simplify_eq. right. simpl.
      split; [by right|]. split; [done|]. split; [done|].
      split; [done|].
      intros (? & ? & ? & ? & ? & [= <-] & [= <-] & ? & ? & _). congruence.
  - destruct (uuid_of potId); simpl; intros ?; simplify_eq; right; simpl;
      (split; [by right|]; split; [done|]; split; [done|]; split; [done|];
       intros (? & ? & ? & ? & ? & [= <-] & [= <-] & ? & _); congruence).
Qed.

(** X27: [deletePot] resolves exactly when the id names a pot of the user whom
    the request authenticates; the pot is then gone, deleted by
    [delete_pot], which has returned its total to the balance.  In every
    other case — no credentials, an id that is not one, a pot that is
    missing or is another user's — [deletePot] throws and the store is as
    it was. *)
Theorem deletePot_outcome authHeader id now st :
  match deletePot authenticate uuid_of invalid_uuid authHeader id now st with
  | (resolved _, st') =>
    ∃ uid pot_id p,
      authenticate authHeader = role (Some uid)
      ∧ uuid_of id = Some pot_id
      ∧ select_pot pot_id uid (pots st) = Some p
      ∧ delete_pot (Some uid) now pot_id st = (success, st')
      ∧ pots st' !! pot_id = None
  | (thrown, st') =>
    st' = st
    ∧ ¬ ∃ uid pot_id p,
          authHeader ≠ EmptyString ∧ id ≠ EmptyString
          ∧ authenticate authHeader = role (Some uid)
          ∧ uuid_of id = Some pot_id
          ∧ select_pot pot_id uid (pots st) = Some p
  end.
Proof.
  unfold deletePot.
  destruct (pot_delete _ _ _ _ _ _ _ _) as [response st'] eqn:Hstatus.
  apply pot_delete_status in Hstatus
    as [(Hs & Hok & Herr & Hdel)|(Hs & _ & Hfail & -> & Hnot)].
  - unfold invokeEdgeFunction. rewrite Hs, Herr. simpl. rewrite Hok. simpl.
    destruct Hdel as (header & potId & uid & pot_id & p & Hheader & HpotId
                      & Hauth & Hid & Hsel & Hdel).
    assert (header = authHeader) as ->
      by (destruct authHeader; simpl in Hheader; congruence).
    assert (potId = id) as -> by (destruct id; simpl in HpotId; congruence).
    exists uid, pot_id, p. repeat (split; [done|]).
    unfold delete_pot in Hdel. rewrite Hsel in Hdel. injection Hdel as <-.
    simpl. apply lookup_delete_eq.
  - assert (Hthrown : ¬ ∃ uid pot_id p,
              authHeader ≠ EmptyString ∧ id ≠ EmptyString
              ∧ authenticate authHeader = role (Some uid)
              ∧ uuid_of id = Some pot_id
              ∧ select_pot pot_id uid (pots st) = Some p).
    { intros (uid & pot_id & p & Hh & Hi & Hrest). apply Hnot.
      exists authHeader, id, uid, pot_id, p.
      split; [by destruct authHeader|]. split; [by destruct id|]. done. }
    unfold invokeEdgeFunction.
    destruct Hs as [-> | ->]; simpl; by rewrite ?Hfail.
Qed.

End PotDelete.

Lemma deletePot_outcome_example :
  (∃ st',
     deletePot ReportScenario.authenticate ReportScenario.uuid_of
       "invalid input syntax for type uuid" "Bearer alice" "2"
       Scenario.now0 ReportScenario.household
     = (resolved (true, "Pot deleted and money returned to balance"%string),
        st')
     ∧ balance_of Scenario.alice ReportScenario.household = Some (-30)
     ∧ balance_of Scenario.alice st' = Some 10)
  ∧ deletePot ReportScenario.authenticate ReportScenario.uuid_of
      "invalid input syntax for type uuid" "Bearer bob" "2"
      Scenario.now0 ReportScenario.household
    = (thrown, ReportScenario.household).
Proof.
  split; [eexists; split; [|split]|]; vm_compute; reflexivity.
Qed.

End PotDeletion.

(* ===================================================================== *)
(** ** Properties of the loading of the user *)
(* ===================================================================== *)

Module Accounts.
Import Db.

Lemma deposit_finds_profile uid prof st now pot_id amount :
  profiles st !! uid = Some prof →
  fst (pot_deposit (Some uid) now pot_id amount st)
  ≠ error "Profile not found".
Proof.
  intros Hprof. rewrite PotTransfer.pot_deposit_result, Hprof.
  destruct amount as [a|]; [|done]. destruct (a <=? 0); [done|].
  destruct (select_pot _ _ _); [|done]. by destruct (_ <? _).
Qed.

Lemma upsert_own_profile uid fullName avatarUrl b now st :
  ∃ row,
    Auth.upsert_profile uid uid fullName avatarUrl b now st
    = Some (row, {| profiles := <[uid := row]> (profiles st);
                    transactions := transactions st;
                    pots := pots st |})
    ∧ balance row = b ∧ full_name row = fullName.
Proof.
  unfold Auth.upsert_profile. rewrite decide_True by done.
  eexists. split; [reflexivity|]. by destruct (profiles st !! uid).
Qed.

(** X28: loading the user of the session touches no row but the profile of
    that user.  When the profile is read, it is returned and nothing is
    written.  When no profile is read, because there is none or because
    the request has failed, the profile is written with a balance of 0,
    over the row that exists if there is one, whatever its balance and
    whatever the transactions of the user; the user is returned if the
    answer to the upsert arrives, and [null] otherwise.  Whenever a user is
    returned, the profile row exists: a deposit of the user cannot fail
    with "Profile not found", and loading the user again, the profile
    being read, returns the same user and writes nothing. *)
Theorem fetchUserWithProfile_outcome user select_ends upsert_ends now st :
  let uid := Auth.auth_id user in
  let read :=
    match select_ends with
    | Auth.answered => profiles st !! uid
    | Auth.refused | Auth.lost => None
    end in
  match Auth.fetchUserWithProfile (Some user) uid select_ends upsert_ends now
                                  st with
  | (result, st') =>
    (∀ other, other ≠ uid → profiles st' !! other = profiles st !! other)
    ∧ transactions st' = transactions st
    ∧ pots st' = pots st
    ∧ match read with
      | Some prof0 =>
        st' = st
        ∧ ∃ u, result = Some u
               ∧ Auth.id u = uid
               ∧ Auth.balance u = balance prof0
               ∧ Auth.fullName u = full_name prof0
      | None =>
        match upsert_ends with
        | Auth.answered =>
          ∃ u prof, result = Some u
                    ∧ profiles st' = <[uid := prof]> (profiles st)
                    ∧ balance prof = 0
                    ∧ Auth.id u = uid
                    ∧ Auth.balance u = 0
                    ∧ Auth.fullName u = full_name prof
        | Auth.lost =>
          result = None
          ∧ ∃ prof, profiles st' = <[uid := prof]> (profiles st)
                    ∧ balance prof = 0
        | Auth.refused => result = None ∧ st' = st
        end
      end
    ∧ ∀ u, result = Some u →
        (∃ prof, profiles st' !! uid = Some prof
                 ∧ Auth.balance u = balance prof)
        ∧ (∀ now' pot_id amount,
             fst (pot_deposit (Some uid) now' pot_id amount st')
             ≠ error "Profile not found")
        ∧ ∀ upsert' now',
            Auth.fetchUserWithProfile (Some user) uid Auth.answered upsert'
                                      now' st'
            = (Some u, st')
  end.
Proof.
  intros uid read. subst uid read.
  unfold Auth.fetchUserWithProfile, Auth.select_profile.
  rewrite !decide_True by done.
  destruct (match select_ends with
            | Auth.answered => profiles st !! Auth.auth_id user
            | Auth.refused | Auth.lost => None
            end) as [prof0|] eqn:Hread.
  - (* the profile is read *)
    assert (Hprof : profiles st !! Auth.auth_id user = Some prof0)
      by by destruct select_ends.
    split; [done|]. split; [done|]. split; [done|].
    split; [split; [done|]; by eexists|].
    intros u [= <-]. split; [by exists prof0|].
    split; [intros now' pot_id amount; by eapply deposit_finds_profile|].
    intros upsert' now'. rewrite !decide_True by done. by rewrite Hprof.
  - (* no profile is read: the upsert *)
    match goal with
    | |- context [Auth.upsert_profile ?uid ?uid ?n ?a ?b ?now ?st] =>
      destruct (upsert_own_profile uid n a b now st)
        as (row & -> & Hbalance & Hname)
    end.
    destruct upsert_ends; cbn [profiles transactions pots].
    + split; [by intros other Hother; rewrite lookup_insert_ne|].
      split; [done|]. split; [done|].
      split; [eexists _, row; by repeat split|].
      intros u [= <-]. cbn [Auth.balance].
      split; [exists row; split; [apply lookup_insert_eq|done]|].
      split.
      { intros now' pot_id amount.
        eapply deposit_finds_profile. cbn [profiles].
        apply lookup_insert_eq. }
      intros upsert' now'. rewrite !decide_True by done. cbn [profiles].
      by rewrite lookup_insert_eq.
    + by repeat split.
    + split; [by intros other Hother; rewrite lookup_insert_ne|].
      split; [done|]. split; [done|].
      split; [split; [done|]; by exists row|]. done.
Qed.

(** Bob's missing profile is made, after which his deposit gets as far as
    the test of his balance.  Alice has a balance of 60; the request that
    reads her profile fails and the upsert is answered: her balance is 0,
    in what is returned and in the table. *)
Lemma fetchUserWithProfile_outcome_example :
  let healed :=
    Auth.fetchUserWithProfile (Some ReportScenario.bob) Scenario.bob
      Auth.answered Auth.answered Scenario.now0 Scenario.funded in
  let reset :=
    Auth.fetchUserWithProfile (Some ReportScenario.alice) Scenario.alice
      Auth.refused Auth.answered Scenario.now0 Scenario.saved in
  (profiles Scenario.funded !! Scenario.bob = None
   ∧ fst (pot_deposit (Some Scenario.bob) Scenario.now0 3%N (Some 50)
                      Scenario.funded) = error "Profile not found"
   ∧ (Auth.fullName <$> fst healed) = Some "bob"%string
   ∧ (Auth.balance <$> fst healed) = Some 0
   ∧ fst (pot_deposit (Some Scenario.bob) Scenario.now0 3%N (Some 50)
                      (snd healed)) = error "Insufficient balance")
  ∧ (balance_of Scenario.alice Scenario.saved = Some 60
     ∧ (Auth.balance <$> fst reset) = Some 0
     ∧ balance_of Scenario.alice (snd reset) = Some 0
     ∧ period_sum Scenario.now0 Scenario.alice (transactions (snd reset))
       = 100).
Proof. repeat split; vm_compute; reflexivity. Qed.

End Accounts.
